(** * ping-tracker: the tracking engine, the latency prober and the data model

  A shallow embedding of [tracker/models.go], [tracker/ping.go],
  [tracker/tracker.go] and of the record constructors of the two scanners,
  followed by the properties of the engine.

  Conventions.
  - Go's [int], [int64] and [time.Duration] are 64-bit two's complement
    integers: a [Z] with the wrap-around written out ([wrap_int]).
    [uint64] is a [Z] reduced modulo 2^64 ([wrap_uint64]).
  - [float64] is IEEE 754 binary64, computed with the Standard Library's
    executable specification [SpecFloat] at precision 53 and [emax] 1024.
  - A Go string is a byte string: Rocq's [string].
  - [*Connection] is an address into a heap of records.  The heap is a list
    that only grows (Go's memory is garbage collected, a record is never
    freed while it is referenced): address [p] is allocated iff
    [p < length heap].
  - A Go map is a [gmap].  Go leaves the iteration order of a map
    unspecified; loops over a map run here in the order of [map_to_list].
    No property below depends on which order that is; where two lists of
    records are compared, they are lists in that order. *)

From Stdlib Require Import ZArith Ascii String SpecFloat.
From stdpp Require Import gmap strings list fin_maps pretty.

Open Scope Z_scope.

(** ** Machine integers *)

Module GoInt.

Definition int_min : Z := -9223372036854775808.
Definition int_max : Z := 9223372036854775807.

(** The value of a 64-bit signed integer after an operation whose
    mathematical result is [z]. *)
Definition wrap_int (z : Z) : Z :=
  (z + 9223372036854775808) mod 18446744073709551616 - 9223372036854775808.

Definition wrap_uint64 (z : Z) : Z := z mod 18446744073709551616.

(** [a / b] and [a % b] on [int]: truncated towards zero. *)
Definition int_quot (a b : Z) : Z := wrap_int (Z.quot a b).
Definition int_rem (a b : Z) : Z := Z.rem a b.

End GoInt.
Export GoInt.

(** ** float64 *)

Module Float64.

Definition prec : Z := 53.
Definition emax : Z := 1024.

(** [float64(z)] for an integer [z]: round to nearest, ties to even. *)
Definition of_Z (z : Z) : spec_float := binary_normalize prec emax z 0 false.

Definition zero : spec_float := S754_zero false.
Definition add : spec_float -> spec_float -> spec_float := SFadd prec emax.
Definition mul : spec_float -> spec_float -> spec_float := SFmul prec emax.
Definition div : spec_float -> spec_float -> spec_float := SFdiv prec emax.

(** [x < y], [x <= y]; false as soon as one side is a NaN. *)
Definition ltb : spec_float -> spec_float -> bool := SFltb.
Definition leb : spec_float -> spec_float -> bool := SFleb.

End Float64.

(** ** package time

  An instant is a number of nanoseconds counted from the zero [Time]
  (January 1, year 1, 00:00:00 UTC); the wall clock and the monotonic
  clock readings of a [time.Time] are identified. *)

Module GoTime.

Definition Second : Z := 1000000000.

Definition zeroTime : Z := 0.

Definition IsZero (t : Z) : bool := t =? zeroTime.

(** [t.Sub(u)]: the difference, saturated to the range of [Duration]. *)
Definition Sub (t u : Z) : Z :=
  if t - u <? int_min then int_min
  else if int_max <? t - u then int_max
  else t - u.

(** [d.Seconds()]: [float64(d / Second) + float64(d % Second) / 1e9]. *)
Definition Seconds (d : Z) : spec_float :=
  Float64.add (Float64.of_Z (int_quot d Second))
              (Float64.div (Float64.of_Z (int_rem d Second))
                           (Float64.of_Z 1000000000)).

End GoTime.

(** ** package strings *)

Module GoStrings.

Definition is_upper_ascii (c : ascii) : bool :=
  (65 <=? Z.of_nat (nat_of_ascii c)) && (Z.of_nat (nat_of_ascii c) <=? 90).

Definition is_ascii_byte (c : ascii) : bool :=
  Z.of_nat (nat_of_ascii c) <? 128.

(** [c += 'a' - 'A'] on an upper-case ASCII letter. *)
Definition lower_byte (c : ascii) : ascii :=
  if is_upper_ascii c then ascii_of_nat (nat_of_ascii c + 32) else c.

Fixpoint all_ascii (s : string) : bool :=
  match s with
  | EmptyString => true
  | String c s' => is_ascii_byte c && all_ascii s'
  end.

Fixpoint map_bytes (f : ascii -> ascii) (s : string) : string :=
  match s with
  | EmptyString => EmptyString
  | String c s' => String (f c) (map_bytes f s')
  end.

Section ToLower.

(** [strings.Map(unicode.ToLower, s)], the path [strings.ToLower] takes
    for a string with a byte outside ASCII.  The Unicode case tables are
    not part of the repository: the mapping is a parameter. *)
Variable unicodeLowerMap : string -> string.

(** [strings.ToLower]: an ASCII-only string is lowered byte by byte
    (and returned as it is when it has no upper-case letter, which is the
    same string); any other string goes through the Unicode mapping. *)
Definition ToLower (s : string) : string :=
  if all_ascii s then map_bytes lower_byte s else unicodeLowerMap s.

End ToLower.

(** [strings.Contains(s, substr)]: [substr] occurs in [s] at some byte
    offset. *)
Fixpoint Contains (s substr : string) : bool :=
  String.prefix substr s ||
  match s with
  | EmptyString => false
  | String _ s' => Contains s' substr
  end.

End GoStrings.

(** ** tracker/models.go *)

Module Models.

(** [type ConnState string] and its constants. *)
Definition StateEstablished : string := "ESTABLISHED".
Definition StateListening : string := "LISTEN".
Definition StateTimeWait : string := "TIME_WAIT".
Definition StateCloseWait : string := "CLOSE_WAIT".
Definition StateSynSent : string := "SYN_SENT".
Definition StateSynRecv : string := "SYN_RECV".
Definition StateFinWait1 : string := "FIN_WAIT1".
Definition StateFinWait2 : string := "FIN_WAIT2".
Definition StateLastAck : string := "LAST_ACK".
Definition StateClosing : string := "CLOSING".
Definition StateClosed : string := "CLOSED".
Definition StateUnknown : string := "UNKNOWN".

(** [type Direction string] and its constants. *)
Definition Inbound : string := "IN".
Definition Outbound : string := "OUT".

(** [type Connection struct]. *)
Record Connection : Type := mkConnection {
  PID : Z;
  AppName : string;
  Protocol : string;
  Direction : string;
  LocalAddr : string;
  LocalPort : Z;
  RemoteAddr : string;
  RemotePort : Z;
  State : string;
  Ping : Z;
  Loss : spec_float;
  TxBytes : Z;
  RxBytes : Z;
  TxRate : spec_float;
  RxRate : spec_float;
  ConnAge : Z;
  FirstSeen : Z;
  LastUpdated : Z;
  PingCount : Z;
  PingFailed : Z;
  prevTxBytes : Z;
  prevRxBytes : Z;
  prevTime : Z
}.

(** The zero value of the struct, the starting point of a composite
    literal that names only some fields. *)
Definition zeroConnection : Connection :=
  {| PID := 0; AppName := ""; Protocol := ""; Direction := "";
     LocalAddr := ""; LocalPort := 0; RemoteAddr := ""; RemotePort := 0;
     State := ""; Ping := 0; Loss := Float64.zero; TxBytes := 0;
     RxBytes := 0; TxRate := Float64.zero; RxRate := Float64.zero;
     ConnAge := 0; FirstSeen := GoTime.zeroTime;
     LastUpdated := GoTime.zeroTime; PingCount := 0; PingFailed := 0;
     prevTxBytes := 0; prevRxBytes := 0; prevTime := GoTime.zeroTime |}.

(** [fmt.Sprintf("%d", i)]. *)
Definition fmt_d (i : Z) : string := pretty i.

(** [func (c *Connection) Key() string]:
    ["%d:%s:%s:%d->%s:%d"] of PID, Protocol, LocalAddr, LocalPort,
    RemoteAddr, RemotePort. *)
Definition Key (c : Connection) : string :=
  fmt_d (PID c) +:+ ":" +:+ Protocol c +:+ ":" +:+ LocalAddr c +:+ ":" +:+
  fmt_d (LocalPort c) +:+ "->" +:+ RemoteAddr c +:+ ":" +:+
  fmt_d (RemotePort c).

End Models.
Export Models.

(** ** tracker/ping.go *)

Module PingGo.

Definition pingTimeout : Z := 2 * GoTime.Second.
Definition pingCount : Z := 3.

(** The loop of [intToStr]: [buf[pos] = byte('0' + i%10); i /= 10] while
    [i > 0].  The buffer has 20 bytes and a 64-bit integer has at most 19
    digits, so 20 rounds are enough. *)
Fixpoint intToStr_loop (rounds : nat) (i : Z) (buf : string) : string :=
  match rounds with
  | O => buf
  | S r =>
      if 0 <? i
      then intToStr_loop r (int_quot i 10)
             (String (ascii_of_nat (Z.to_nat (48 + int_rem i 10))) buf)
      else buf
  end.

Definition intToStr (i : Z) : string :=
  if i =? 0 then "0"
  else
    let neg := i <? 0 in
    let i := if neg then wrap_int (- i) else i in
    let buf := intToStr_loop 20 i "" in
    if neg then String "-" buf else buf.

(** [net.JoinHostPort("", "")[0:0] + intToStr(i)]: the slice is empty. *)
Definition itoa (i : Z) : string := "" +:+ intToStr i.

Fixpoint has_colon (s : string) : bool :=
  match s with
  | EmptyString => false
  | String c s' => Ascii.eqb c ":" || has_colon s'
  end.

(** [net.JoinHostPort]: a host with a colon is bracketed. *)
Definition JoinHostPort (host port : string) : string :=
  if has_colon host then "[" +:+ host +:+ "]:" +:+ port
  else host +:+ ":" +:+ port.

(** The network, as [net.DialTimeout("tcp", target, pingTimeout)] sees it:
    given the targets dialled so far and the next target, [Some elapsed]
    when the connection is established after [elapsed] nanoseconds, [None]
    when the attempt fails. *)
Definition Dialer : Type := list string -> string -> option Z.

(** The body of [for i := 0; i < pingCount; i++]; the state is
    [totalRTT], [successful] and the log of the targets dialled. *)
Fixpoint dial_loop (dial : Dialer) (target : string) (rounds : nat)
    (totalRTT successful : Z) (log : list string) : Z * Z * list string :=
  match rounds with
  | O => (totalRTT, successful, log)
  | S r =>
      match dial log target with
      | Some elapsed =>
          dial_loop dial target r (wrap_int (totalRTT + elapsed))
            (wrap_int (successful + 1)) (log ++ [target])
      | None => dial_loop dial target r totalRTT successful (log ++ [target])
      end
  end.

(** The guard that opens [MeasurePing]. *)
Definition skipped_addr (addr : string) : bool :=
  String.eqb addr "0.0.0.0" || String.eqb addr "::" ||
  String.eqb addr "127.0.0.1" || String.eqb addr "::1".

(** [func MeasurePing(addr string, port int) (rtt time.Duration, loss float64)],
    with the log of dialled targets threaded through. *)
Definition MeasurePing (dial : Dialer) (addr : string) (port : Z)
    (log : list string) : Z * spec_float * list string :=
  if skipped_addr addr then (0, Float64.zero, log)
  else
    let target := JoinHostPort addr (itoa port) in
    let '(totalRTT, successful, log') :=
      dial_loop dial target (Z.to_nat pingCount) 0 0 log in
    if successful =? 0 then (0, Float64.of_Z 100, log')
    else
      (int_quot totalRTT successful,
       Float64.mul
         (Float64.div (Float64.of_Z (wrap_int (pingCount - successful)))
                      (Float64.of_Z pingCount))
         (Float64.of_Z 100),
       log').

End PingGo.
Export PingGo.

(** ** The record constructors of the scanners

    Reading [/proc] or calling [iphlpapi.dll] is outside the model; what
    the scanners do with the rows they read is not. *)

Module ScannerLinux.

Record inodeEntry : Type := mkInodeEntry {
  protocol : string;
  localAddr : string;
  localPort : Z;
  remoteAddr : string;
  remotePort : Z;
  state : string;
  inode : string;
  txQueue : Z;
  rxQueue : Z
}.

(** The body of the last loop of [ScanConnections]; a missing map entry
    reads as the zero value. *)
Definition toConnection (now : Z) (inodePID : gmap string Z)
    (inodeName : gmap string string) (e : inodeEntry) : Connection :=
  let pid := default 0 (inodePID !! inode e) in
  let name := default "" (inodeName !! inode e) in
  let name := if String.eqb name "" then "unknown" else name in
  let dir :=
    if String.eqb (state e) StateListening
       || String.eqb (remoteAddr e) "0.0.0.0"
       || String.eqb (remoteAddr e) "::"
    then Inbound else Outbound in
  {| PID := pid; AppName := name; Protocol := protocol e; Direction := dir;
     LocalAddr := localAddr e; LocalPort := localPort e;
     RemoteAddr := remoteAddr e; RemotePort := remotePort e;
     State := state e; Ping := 0; Loss := Float64.zero;
     TxBytes := txQueue e; RxBytes := rxQueue e;
     TxRate := Float64.zero; RxRate := Float64.zero; ConnAge := 0;
     FirstSeen := now; LastUpdated := now; PingCount := 0; PingFailed := 0;
     prevTxBytes := 0; prevRxBytes := 0; prevTime := GoTime.zeroTime |}.

(** [ScanConnections] from the parsed rows and the inode maps on. *)
Definition ScanConnections (now : Z) (entries : list inodeEntry)
    (inodePID : gmap string Z) (inodeName : gmap string string)
    : list Connection :=
  map (toConnection now inodePID inodeName) entries.

End ScannerLinux.

Module ScannerWindows.

Record connEntry : Type := mkConnEntry {
  protocol : string;
  localAddr : string;
  localPort : Z;
  remoteAddr : string;
  remotePort : Z;
  state : string;
  pid : Z
}.

(** [func (e *connEntry) toConnection(now time.Time) *Connection];
    [getProcessName] asks the operating system and is a parameter. *)
Definition toConnection (getProcessName : Z -> string) (now : Z)
    (e : connEntry) : Connection :=
  let name := getProcessName (pid e) in
  let name := if String.eqb name "" then "unknown" else name in
  let dir :=
    if String.eqb (state e) StateListening
       || String.eqb (remoteAddr e) "0.0.0.0"
       || String.eqb (remoteAddr e) "::"
    then Inbound else Outbound in
  {| PID := pid e; AppName := name; Protocol := protocol e; Direction := dir;
     LocalAddr := localAddr e; LocalPort := localPort e;
     RemoteAddr := remoteAddr e; RemotePort := remotePort e;
     State := state e; Ping := 0; Loss := Float64.zero;
     TxBytes := 0; RxBytes := 0;
     TxRate := Float64.zero; RxRate := Float64.zero; ConnAge := 0;
     FirstSeen := now; LastUpdated := now; PingCount := 0; PingFailed := 0;
     prevTxBytes := 0; prevRxBytes := 0; prevTime := GoTime.zeroTime |}.

(** [ScanConnections] from the four tables on (a table that could not be
    read contributes no row). *)
Definition ScanConnections (getProcessName : Z -> string) (now : Z)
    (tcp tcp6 udp udp6 : list connEntry) : list Connection :=
  map (toConnection getProcessName now) (tcp ++ tcp6 ++ udp ++ udp6).

End ScannerWindows.

(** A record as a scanner hands it to the engine. *)
Inductive discovered : Connection -> Prop :=
  | discovered_linux now inodePID inodeName e :
      discovered (ScannerLinux.toConnection now inodePID inodeName e)
  | discovered_windows getProcessName now e :
      discovered (ScannerWindows.toConnection getProcessName now e).

(** ** tracker/tracker.go *)

Module TrackerGo.

(** [type Tracker struct]; the lock and the stop channel have no content
    in a sequential run, [connections] maps a key to the address of its
    record. *)
Record Tracker : Type := mkTracker {
  connections : gmap string nat;
  interval : Z;
  pingEnabled : bool
}.

(** Everything a scan cycle or a reader can change: the records in memory,
    the tracker, and the targets dialled so far. *)
Record World : Type := mkWorld {
  heap : list Connection;
  tracker : Tracker;
  dialled : list string
}.

(** [func NewTracker(interval time.Duration, pingEnabled bool) *Tracker]. *)
Definition NewTracker (interval : Z) (pingEnabled : bool) : Tracker :=
  {| connections := ∅; interval := interval; pingEnabled := pingEnabled |}.

(** The branch [if ok] of the loop of [scan]: the assignments to
    [existing], in the order of the source.  The rates are computed from
    [existing.prevTxBytes], [existing.prevRxBytes] and [existing.prevTime]
    as they are on entry; after that the previous counters receive
    [existing.TxBytes] and [existing.RxBytes], which are overwritten with
    the scanned counters only in the last two assignments. *)
Definition update_existing (now : Z) (sc existing : Connection) : Connection :=
  let dt := GoTime.Seconds (GoTime.Sub now (prevTime existing)) in
  let timed :=
    negb (GoTime.IsZero (prevTime existing)) && Float64.ltb Float64.zero dt in
  {| PID := PID existing; AppName := AppName existing;
     Protocol := Protocol existing; Direction := Direction existing;
     LocalAddr := LocalAddr existing; LocalPort := LocalPort existing;
     RemoteAddr := RemoteAddr existing; RemotePort := RemotePort existing;
     State := State sc;
     Ping := Ping existing; Loss := Loss existing;
     TxBytes := TxBytes sc; RxBytes := RxBytes sc;
     TxRate :=
       if timed && (prevTxBytes existing <=? TxBytes sc)
       then Float64.div
              (Float64.of_Z (wrap_uint64 (TxBytes sc - prevTxBytes existing)))
              dt
       else TxRate existing;
     RxRate :=
       if timed && (prevRxBytes existing <=? RxBytes sc)
       then Float64.div
              (Float64.of_Z (wrap_uint64 (RxBytes sc - prevRxBytes existing)))
              dt
       else RxRate existing;
     ConnAge := GoTime.Sub now (FirstSeen existing);
     FirstSeen := FirstSeen existing; LastUpdated := now;
     PingCount := PingCount existing; PingFailed := PingFailed existing;
     prevTxBytes := TxBytes existing; prevRxBytes := RxBytes existing;
     prevTime := now |}.

(** The branch [else] of the loop of [scan]: the assignments to [sc]
    before it is stored in the map. *)
Definition init_new (now : Z) (sc : Connection) : Connection :=
  {| PID := PID sc; AppName := AppName sc; Protocol := Protocol sc;
     Direction := Direction sc; LocalAddr := LocalAddr sc;
     LocalPort := LocalPort sc; RemoteAddr := RemoteAddr sc;
     RemotePort := RemotePort sc; State := State sc; Ping := Ping sc;
     Loss := Loss sc; TxBytes := TxBytes sc; RxBytes := RxBytes sc;
     TxRate := TxRate sc; RxRate := RxRate sc; ConnAge := ConnAge sc;
     FirstSeen := now; LastUpdated := now;
     PingCount := PingCount sc; PingFailed := PingFailed sc;
     prevTxBytes := TxBytes sc; prevRxBytes := RxBytes sc; prevTime := now |}.

(** The body of [for _, sc := range scanned { ... }].  A scanned record
    lives at an address of its own, which matters only once the address is
    stored in the map: the cell is materialised at that point.  An address
    in the map always holds a record, so the inner [None] is never reached
    from a well-formed world. *)
Definition reconcile_step (now : Z) (sc : Connection)
    (h : list Connection) (m : gmap string nat) (alive : gmap string bool)
    : list Connection * gmap string nat * gmap string bool :=
  let key := Key sc in
  let alive := <[key := true]> alive in
  match m !! key with
  | Some p =>
      match h !! p with
      | Some existing => (<[p := update_existing now sc existing]> h, m, alive)
      | None => (h, m, alive)
      end
  | None => (h ++ [init_new now sc], <[key := length h]> m, alive)
  end.

(** The first loop of [scan], under the write lock. *)
Fixpoint reconcile_loop (now : Z) (scanned : list Connection)
    (h : list Connection) (m : gmap string nat) (alive : gmap string bool)
    : list Connection * gmap string nat * gmap string bool :=
  match scanned with
  | [] => (h, m, alive)
  | sc :: rest =>
      let '(h', m', alive') := reconcile_step now sc h m alive in
      reconcile_loop now rest h' m' alive'
  end.

(** [alive[key]]: a missing key reads as [false]. *)
Definition is_alive (alive : gmap string bool) (key : string) : bool :=
  default false (alive !! key).

(** [for key := range t.connections { if !alive[key] { delete(...) } }]. *)
Definition remove_stale (alive : gmap string bool) (m : gmap string nat)
    : gmap string nat :=
  foldl (fun acc key => if is_alive alive key then acc else delete key acc)
        m ((map_to_list m).*1).

(** The part of [scan] that runs under the write lock. *)
Definition reconcile (now : Z) (scanned : list Connection) (w : World) : World :=
  let '(h, m, alive) :=
    reconcile_loop now scanned (heap w) (connections (tracker w)) ∅ in
  {| heap := h;
     tracker := {| connections := remove_stale alive m;
                   interval := interval (tracker w);
                   pingEnabled := pingEnabled (tracker w) |};
     dialled := dialled w |}.

(** The condition under which [pingAll] collects a record. *)
Definition is_target (c : Connection) : bool :=
  String.eqb (State c) StateEstablished
  && negb (String.eqb (RemoteAddr c) "0.0.0.0")
  && negb (String.eqb (RemoteAddr c) "::").

(** The first loop of [pingAll]: the addresses of the eligible records. *)
Fixpoint collect_loop (h : list Connection) (ps : list nat) : list nat :=
  match ps with
  | [] => []
  | p :: rest =>
      match h !! p with
      | Some c =>
          if is_target c then p :: collect_loop h rest
          else collect_loop h rest
      | None => collect_loop h rest
      end
  end.

Definition collect_targets (h : list Connection) (m : gmap string nat)
    : list nat :=
  collect_loop h ((map_to_list m).*2).

(** What a probe writes back under the write lock. *)
Definition write_back (rtt : Z) (loss : spec_float) (conn : Connection)
    : Connection :=
  {| PID := PID conn; AppName := AppName conn; Protocol := Protocol conn;
     Direction := Direction conn; LocalAddr := LocalAddr conn;
     LocalPort := LocalPort conn; RemoteAddr := RemoteAddr conn;
     RemotePort := RemotePort conn; State := State conn;
     Ping := rtt; Loss := loss;
     TxBytes := TxBytes conn; RxBytes := RxBytes conn;
     TxRate := TxRate conn; RxRate := RxRate conn; ConnAge := ConnAge conn;
     FirstSeen := FirstSeen conn; LastUpdated := LastUpdated conn;
     PingCount := wrap_int (PingCount conn + 1);
     PingFailed :=
       if Float64.leb (Float64.of_Z 100) loss
       then wrap_int (PingFailed conn + 1) else PingFailed conn;
     prevTxBytes := prevTxBytes conn; prevRxBytes := prevRxBytes conn;
     prevTime := prevTime conn |}.

(** The probes of one pass, one after the other: probe, then write back. *)
Fixpoint probe_each (dial : Dialer) (targets : list nat)
    (h : list Connection) (log : list string)
    : list Connection * list string :=
  match targets with
  | [] => (h, log)
  | p :: rest =>
      match h !! p with
      | Some conn =>
          let '(rtt, loss, log') :=
            MeasurePing dial (RemoteAddr conn) (RemotePort conn) log in
          probe_each dial rest (<[p := write_back rtt loss conn]> h) log'
      | None => probe_each dial rest h log
      end
  end.

(** [func (t *Tracker) pingAll()], in one of its sequential orders. *)
Definition pingAll (dial : Dialer) (w : World) : World :=
  let targets := collect_targets (heap w) (connections (tracker w)) in
  let '(h, log) := probe_each dial targets (heap w) (dialled w) in
  {| heap := h; tracker := tracker w; dialled := log |}.

(** [func (t *Tracker) scan()].  [scanned] is what [ScanConnections]
    returned: [None] for an error.  [now] is [time.Now()]. *)
Definition scan (dial : Dialer) (scanned : option (list Connection))
    (now : Z) (w : World) : World :=
  match scanned with
  | None => w
  | Some scanned =>
      let w := reconcile now scanned w in
      if pingEnabled (tracker w) then pingAll dial w else w
  end.

(** The loop shared by [Snapshot] and [Search]: every record the map
    points to and [keep] accepts is copied to a new address. *)
Fixpoint copy_records (keep : Connection -> bool) (ps : list nat)
    (h : list Connection) (result : list nat) : list nat * list Connection :=
  match ps with
  | [] => (result, h)
  | p :: rest =>
      match h !! p with
      | Some c =>
          if keep c
          then copy_records keep rest (h ++ [c]) (result ++ [length h])
          else copy_records keep rest h result
      | None => copy_records keep rest h result
      end
  end.

(** [func (t *Tracker) Snapshot() []*Connection]. *)
Definition Snapshot (w : World) : list nat * World :=
  let '(result, h) :=
    copy_records (fun _ => true) ((map_to_list (connections (tracker w))).*2)
      (heap w) [] in
  (result, {| heap := h; tracker := tracker w; dialled := dialled w |}).

Section Search.

Variable unicodeLowerMap : string -> string.

(** The test of the loop of [Search], [query] already lowered. *)
Definition matches (query : string) (c : Connection) : bool :=
  GoStrings.Contains (GoStrings.ToLower unicodeLowerMap (AppName c)) query.

(** [func (t *Tracker) Search(query string) []*Connection]. *)
Definition Search (query : string) (w : World) : list nat * World :=
  if String.eqb query "" then Snapshot w
  else
    let query := GoStrings.ToLower unicodeLowerMap query in
    let '(result, h) :=
      copy_records (matches query)
        ((map_to_list (connections (tracker w))).*2) (heap w) [] in
    (result, {| heap := h; tracker := tracker w; dialled := dialled w |}).

End Search.

(** The records behind a list of addresses. *)
Definition deref (h : list Connection) (ps : list nat) : list Connection :=
  omap (fun p => h !! p) ps.

End TrackerGo.
Export TrackerGo.

(** ** The probe pass as a machine

    [pingAll] after its first loop, statement by statement, for any
    scheduling of the goroutines.  [sem] is the number of elements in the
    buffered channel [make(chan struct{}, 20)], [wg] the counter of the
    [sync.WaitGroup]. *)

Module ProbePass.

(** Where a goroutine [go func(conn *Connection) { ... }(c)] stands:
    in [MeasurePing]; back from it with the result, before the write lock;
    before the deferred [<-sem]; before the deferred [wg.Done()]; gone.
    Deferred calls run last in, first out. *)
Inductive phase : Type :=
  | Probing
  | Writing (rtt : Z) (loss : spec_float)
  | Releasing
  | Finishing
  | Exited.

(** Where the dispatching loop stands: at the head of
    [for _, c := range targets] (whose first statement is [wg.Add(1)]);
    before [sem <- struct{}{}]; before the [go] statement; in [wg.Wait()];
    returned. *)
Inductive dispatcher : Type :=
  | AtLoop
  | AtSend (c : nat)
  | AtGo (c : nat)
  | AtWait
  | Returned.

Record pass : Type := mkPass {
  pc : dispatcher;
  todo : list nat;
  sem : nat;
  wg : Z;
  workers : list (nat * phase);
  mem : list Connection
}.

(** The capacity of [sem]. *)
Definition semCap : nat := 20.

Definition start (targets : list nat) (h : list Connection) : pass :=
  {| pc := AtLoop; todo := targets; sem := 0; wg := 0; workers := [];
     mem := h |}.

Inductive step : pass -> pass -> Prop :=
  | step_add s c rest :
      pc s = AtLoop -> todo s = c :: rest ->
      step s {| pc := AtSend c; todo := rest; sem := sem s; wg := wg s + 1;
                workers := workers s; mem := mem s |}
  | step_range_over s :
      pc s = AtLoop -> todo s = [] ->
      step s {| pc := AtWait; todo := todo s; sem := sem s; wg := wg s;
                workers := workers s; mem := mem s |}
  | step_send s c :
      pc s = AtSend c -> (sem s < semCap)%nat ->
      step s {| pc := AtGo c; todo := todo s; sem := S (sem s); wg := wg s;
                workers := workers s; mem := mem s |}
  | step_go s c :
      pc s = AtGo c ->
      step s {| pc := AtLoop; todo := todo s; sem := sem s; wg := wg s;
                workers := workers s ++ [(c, Probing)]; mem := mem s |}
  | step_wait s :
      pc s = AtWait -> wg s = 0 ->
      step s {| pc := Returned; todo := todo s; sem := sem s; wg := wg s;
                workers := workers s; mem := mem s |}
  | step_probed s i c rtt loss :
      workers s !! i = Some (c, Probing) ->
      step s {| pc := pc s; todo := todo s; sem := sem s; wg := wg s;
                workers := <[i := (c, Writing rtt loss)]> (workers s);
                mem := mem s |}
  | step_written s i c rtt loss conn :
      workers s !! i = Some (c, Writing rtt loss) ->
      mem s !! c = Some conn ->
      step s {| pc := pc s; todo := todo s; sem := sem s; wg := wg s;
                workers := <[i := (c, Releasing)]> (workers s);
                mem := <[c := write_back rtt loss conn]> (mem s) |}
  | step_release s i c :
      workers s !! i = Some (c, Releasing) -> (0 < sem s)%nat ->
      step s {| pc := pc s; todo := todo s; sem := pred (sem s); wg := wg s;
                workers := <[i := (c, Finishing)]> (workers s);
                mem := mem s |}
  | step_done s i c :
      workers s !! i = Some (c, Finishing) ->
      step s {| pc := pc s; todo := todo s; sem := sem s; wg := wg s - 1;
                workers := <[i := (c, Exited)]> (workers s);
                mem := mem s |}.

(** The states a pass over [targets] goes through. *)
Inductive reachable (targets : list nat) (h : list Connection)
    : pass -> Prop :=
  | reachable_start : reachable targets h (start targets h)
  | reachable_step s s' :
      reachable targets h s -> step s s' -> reachable targets h s'.

(** A probe operation is in flight while its goroutine is in
    [MeasurePing] or holds its result. *)
Definition probing (ph : phase) : bool :=
  match ph with
  | Probing | Writing _ _ => true
  | _ => false
  end.

(** The goroutine has not yet received from [sem]. *)
Definition holds_slot (ph : phase) : bool :=
  match ph with
  | Probing | Writing _ _ | Releasing => true
  | _ => false
  end.

(** The goroutine has not yet called [wg.Done()]. *)
Definition pending (ph : phase) : bool :=
  match ph with
  | Exited => false
  | _ => true
  end.

Definition count (f : phase -> bool) (ws : list (nat * phase)) : nat :=
  length (List.filter (fun w => f w.2) ws).

Definition in_flight (s : pass) : nat := count probing (workers s).

(** What the dispatching loop itself contributes: the element it has sent
    to [sem] for a goroutine not yet started, its [wg.Add(1)] for a
    goroutine not yet started, and the target it is busy with. *)
Definition slot_of (d : dispatcher) : nat :=
  match d with
  | AtGo _ => 1
  | _ => 0
  end.

Definition added_of (d : dispatcher) : Z :=
  match d with
  | AtSend _ | AtGo _ => 1
  | _ => 0
  end.

Definition current (d : dispatcher) : list nat :=
  match d with
  | AtSend c | AtGo c => [c]
  | _ => []
  end.

(** The bookkeeping of a pass: the channel holds one element per goroutine
    that has not received yet, the wait group counts the goroutines that
    have not called [Done], and the targets are those handled, the one in
    hand and those to come. *)
Definition invariant (targets : list nat) (s : pass) : Prop :=
  sem s = (count holds_slot (workers s) + slot_of (pc s))%nat /\
  (sem s <= semCap)%nat /\
  wg s = Z.of_nat (count pending (workers s)) + added_of (pc s) /\
  (workers s).*1 ++ current (pc s) ++ todo s = targets /\
  (pc s = AtWait \/ pc s = Returned -> todo s = []) /\
  (pc s = Returned -> count pending (workers s) = 0%nat).

End ProbePass.

(** ** Runs of the engine *)

(** No address in the map dangles and no two keys share a record. *)
Definition wf_map (h : list Connection) (m : gmap string nat) : Prop :=
  (forall k p, m !! k = Some p -> (p < length h)%nat) /\
  (forall k1 k2 p, m !! k1 = Some p -> m !! k2 = Some p -> k1 = k2).

Definition wf (w : World) : Prop := wf_map (heap w) (connections (tracker w)).

(** The records of the live map, in the order a loop over the map visits
    them. *)
Definition live_records (w : World) : list Connection :=
  deref (heap w) ((map_to_list (connections (tracker w))).*2).

(** One atomic action on the engine: the locked part of a scan cycle fed
    with the scanners' records, the write-back of one probe (to any record
    in memory, with any result, after any dialling), a [Snapshot], a
    [Search]. *)
Inductive engine_step : World -> World -> Prop :=
  | engine_reconcile now scanned w :
      Forall discovered scanned ->
      engine_step w (reconcile now scanned w)
  | engine_write_back p rtt loss conn log w :
      heap w !! p = Some conn ->
      engine_step w {| heap := <[p := write_back rtt loss conn]> (heap w);
                       tracker := tracker w; dialled := log |}
  | engine_snapshot w : engine_step w (Snapshot w).2
  | engine_search lower query w : engine_step w (Search lower query w).2.

(** The worlds the engine is in after [n] actions, from [NewTracker] on. *)
Inductive engine_run : nat -> World -> Prop :=
  | engine_run_new interval pingEnabled :
      engine_run 0 {| heap := []; tracker := NewTracker interval pingEnabled;
                      dialled := [] |}
  | engine_run_step n w w' :
      engine_run n w -> engine_step w w' -> engine_run (S n) w'.

(** The probe counters of a record after at most [n] actions. *)
Definition counted (n : Z) (c : Connection) : Prop :=
  0 <= PingFailed c /\ PingFailed c <= PingCount c /\ PingCount c <= n.

(** ** Addresses, in the words of the specification *)

Module AddressClass.

Definition is_digit (c : ascii) : bool :=
  (48 <=? Z.of_nat (nat_of_ascii c)) && (Z.of_nat (nat_of_ascii c) <=? 57).

(** A decimal number of one to three digits. *)
Fixpoint decimal (s : string) (acc : Z) : option Z :=
  match s with
  | EmptyString => Some acc
  | String c s' =>
      if is_digit c
      then decimal s' (10 * acc + (Z.of_nat (nat_of_ascii c) - 48))
      else None
  end.

Definition octet (s : string) : option Z :=
  match s with
  | EmptyString => None
  | _ =>
      if (3 <? Z.of_nat (String.length s)) then None
      else match decimal s 0 with
           | Some n => if n <=? 255 then Some n else None
           | None => None
           end
  end.

(** The fields of [s] between dots. *)
Fixpoint fields (s : string) (cur : string) : list string :=
  match s with
  | EmptyString => [cur]
  | String c s' =>
      if Ascii.eqb c "." then cur :: fields s' ""
      else fields s' (cur +:+ String c "")
  end.

(** A dotted quad, as its four octets. *)
Definition ipv4 (s : string) : option (Z * Z * Z * Z) :=
  match octet <$> fields s "" with
  | [Some a; Some b; Some c; Some d] => Some (a, b, c, d)
  | _ => None
  end.

(** "An unspecified address": 0.0.0.0 or [::]. *)
Definition unspecified (addr : string) : bool :=
  String.eqb addr "0.0.0.0" || String.eqb addr "::".

(** "A loopback address": an IPv4 address of the block 127.0.0.0/8, or
    [::1]. *)
Definition loopback (addr : string) : bool :=
  match ipv4 addr with
  | Some (a, _, _, _) => a =? 127
  | None => String.eqb addr "::1"
  end.

End AddressClass.

(** [c'] has been sampled at [now] and has the first-seen time and the
    rates of [c]. *)
Definition settled (now : Z) (c c' : Connection) : Prop :=
  prevTime c' = now /\ LastUpdated c' = now /\
  FirstSeen c' = FirstSeen c /\ TxRate c' = TxRate c /\ RxRate c' = RxRate c.

(** ** A host with one connection

    A browser with PID 77 holds one established connection; the scanner
    reports it with a transmit counter of 1000, 2000 and 3000 bytes in
    three cycles one second apart, probing disabled. *)

Module Scenario.

Definition row (tx rx : Z) : ScannerLinux.inodeEntry :=
  {| ScannerLinux.protocol := "tcp";
     ScannerLinux.localAddr := "10.0.0.2";
     ScannerLinux.localPort := 40000;
     ScannerLinux.remoteAddr := "93.184.216.34";
     ScannerLinux.remotePort := 443;
     ScannerLinux.state := StateEstablished;
     ScannerLinux.inode := "12345";
     ScannerLinux.txQueue := tx;
     ScannerLinux.rxQueue := rx |}.

Definition discover (now tx rx : Z) : list Connection :=
  ScannerLinux.ScanConnections now [row tx rx]
    {["12345" := 77]} {["12345" := "Chrome"]}.

Definition key : string := "77:tcp:10.0.0.2:40000->93.184.216.34:443".

(** An instant in the year 2026. *)
Definition t0 : Z := 63900000000000000000.

(** A network on which every connection attempt fails. *)
Definition refused : Dialer := fun _ _ => None.

(** A network on which every attempt succeeds after 1.5 ms. *)
Definition accepted : Dialer := fun _ _ => Some 1500000.

Definition world0 : World :=
  {| heap := []; tracker := NewTracker (3 * GoTime.Second) false;
     dialled := [] |}.

Definition world1 : World :=
  scan refused (Some (discover t0 1000 0)) t0 world0.

(** The record the first cycle stores, at address 0. *)
Definition record1 : Connection :=
  init_new t0
    (ScannerLinux.toConnection t0 {["12345" := 77]} {["12345" := "Chrome"]}
       (row 1000 0)).

Definition world2 : World :=
  scan refused (Some (discover (t0 + GoTime.Second) 2000 0))
    (t0 + GoTime.Second) world1.

Definition world3 : World :=
  scan refused (Some (discover (t0 + 2 * GoTime.Second) 3000 0))
    (t0 + 2 * GoTime.Second) world2.

(** The record after the second cycle. *)
Definition record2 : Connection :=
  update_existing (t0 + GoTime.Second)
    (ScannerLinux.toConnection (t0 + GoTime.Second) {["12345" := 77]}
       {["12345" := "Chrome"]} (row 2000 0))
    record1.

(** What the scanner reports in a third cycle after a counter reset. *)
Definition reset : Connection :=
  ScannerLinux.toConnection (t0 + 2 * GoTime.Second) {["12345" := 77]}
    {["12345" := "Chrome"]} (row 500 0).

(** The first cycle, then the write-back of a probe that found the peer
    closed. *)
Definition world1_probed : World :=
  {| heap := <[0%nat := write_back 0 (Float64.of_Z 100) record1]> (heap world1);
     tracker := tracker world1; dialled := [] |}.

(** The memory after a [Snapshot] of [world1] whose reader has overwritten
    the record it was handed, at address 1. *)
Definition scribbled : list Connection :=
  <[1%nat := zeroConnection]> (heap (Snapshot world1).2).

(** A probe pass over that record on a network that refuses, once
    [pingAll] has returned. *)
Definition pass_end : ProbePass.pass :=
  {| ProbePass.pc := ProbePass.Returned; ProbePass.todo := [];
     ProbePass.sem := 0; ProbePass.wg := 0;
     ProbePass.workers := [(0%nat, ProbePass.Exited)];
     ProbePass.mem := [write_back 0 (Float64.of_Z 100) record1] |}.

End Scenario.

(** ** What a reconciliation keeps of a record *)

(** [c'] is a later state of the record [c]: the fields that identify the
    connection, its application name and direction, its first-seen time and
    the results of its probes are those of [c]. *)
Definition same_identity (c c' : Connection) : Prop :=
  PID c' = PID c /\ AppName c' = AppName c /\ Protocol c' = Protocol c /\
  Direction c' = Direction c /\
  LocalAddr c' = LocalAddr c /\ LocalPort c' = LocalPort c /\
  RemoteAddr c' = RemoteAddr c /\ RemotePort c' = RemotePort c /\
  FirstSeen c' = FirstSeen c /\
  Ping c' = Ping c /\ Loss c' = Loss c /\
  PingCount c' = PingCount c /\ PingFailed c' = PingFailed c.

(** [c] carries the stamps of a cycle run at [now]. *)
Definition stamped (now : Z) (c : Connection) : Prop :=
  LastUpdated c = now /\ prevTime c = now /\
  ConnAge c = GoTime.Sub now (FirstSeen c).

(** Every entry of the live map leads to a record that has the entry's
    key. *)
Definition keyed (h : list Connection) (m : gmap string nat) : Prop :=
  forall k p c, m !! k = Some p -> h !! p = Some c -> Key c = k.

(** ** More of the host with one connection *)

Module Scenario2.

(** The third cycle of the scenario, run at the instant of the second. *)
Definition again : list Connection :=
  Scenario.discover (Scenario.t0 + GoTime.Second) 5000 7.

(** The record of [Scenario.world1_probed]. *)
Definition record1_probed : Connection :=
  write_back 0 (Float64.of_Z 100) Scenario.record1.

(** What a scanner reports in the third cycle when it lists the
    connection a first time, with other counters, before
    [Scenario.reset]. *)
Definition listed_before : list Connection :=
  Scenario.discover (Scenario.t0 + 2 * GoTime.Second) 9000 9.

(** A tracker that probes, before its first cycle. *)
Definition probing0 : World :=
  {| heap := []; tracker := NewTracker (3 * GoTime.Second) true;
     dialled := [] |}.

End Scenario2.

(** ** tui/tui.go: the model of the table and its keys

    Rendering (styles, [fmt] of floats) is outside the model; the state
    of the table, the keys that change it and the helpers that cut and pad
    cells are not.  [m.tracker] is the world the operations run in, and
    [m.connections] holds the addresses [Snapshot] or [Search] returned. *)

Module Tui.

(** [s[:n]]: panics ([None]) unless [0 <= n <= len(s)]. *)
Definition slice_to (s : string) (n : Z) : option string :=
  if (n <? 0) || (Z.of_nat (String.length s) <? n) then None
  else Some (String.substring 0 (Z.to_nat n) s).

Fixpoint repeat_string (s : string) (count : nat) : string :=
  match count with
  | O => ""
  | S n => s +:+ repeat_string s n
  end.

Section Alloc.

(** The allocator of the run time: whether it hands out a buffer of [n]
    bytes.  When it does not, [makeslice] panics ([len out of range]) or
    the process dies out of memory; either way the call does not return,
    which is [None] below.  What can be allocated depends on the platform
    and on the memory in use: the test is a parameter. *)
Variable can_alloc : Z -> bool.

(** [strings.Repeat(s, count)]: the empty string for count 0 and [s]
    itself for count 1, without a buffer; a panic on a negative count and
    when [len(s) * count] overflows [int]; the empty string for an empty
    [s]; otherwise a buffer of [len(s) * count] bytes ([Builder.Grow]),
    filled with the copies. *)
Definition Repeat (s : string) (count : Z) : option string :=
  if count =? 0 then Some ""
  else if count =? 1 then Some s
  else if count <? 0 then None
  else
    let n := Z.of_nat (String.length s) * count in
    if int_max <? n then None
    else if Z.of_nat (String.length s) =? 0 then Some ""
    else if can_alloc n then Some (repeat_string s (Z.to_nat count))
    else None.

(** [a + b] on strings that do not live on the stack: when one of them is
    empty the other one is the result; otherwise the run time allocates
    the [len(a) + len(b)] bytes of the result (and gives up when the
    length overflows [int]). *)
Definition concat (a b : string) : option string :=
  if (Z.of_nat (String.length a) =? 0) || (Z.of_nat (String.length b) =? 0)
  then Some (a +:+ b)
  else
    let l := Z.of_nat (String.length a) + Z.of_nat (String.length b) in
    if int_max <? l then None
    else if can_alloc l then Some (a +:+ b) else None.

(** [func padRight(s string, width int) string]. *)
Definition padRight (s : string) (width : Z) : option string :=
  if width <=? Z.of_nat (String.length s) then slice_to s width
  else
    match Repeat " " (wrap_int (width - Z.of_nat (String.length s))) with
    | Some pad => concat s pad
    | None => None
    end.

End Alloc.

(** [func truncate(s string, maxLen int) string]. *)
Definition truncate (s : string) (maxLen : Z) : option string :=
  if maxLen <=? 0 then Some ""
  else if Z.of_nat (String.length s) <=? maxLen then Some s
  else if maxLen <? 4 then slice_to s maxLen
  else
    match slice_to s (wrap_int (maxLen - 3)) with
    | Some head => Some (head +:+ "...")
    | None => None
    end.

(** [func truncStr(s string, maxLen int) string]: the same body. *)
Definition truncStr (s : string) (maxLen : Z) : option string :=
  if maxLen <=? 0 then Some ""
  else if Z.of_nat (String.length s) <=? maxLen then Some s
  else if maxLen <? 4 then slice_to s maxLen
  else
    match slice_to s (wrap_int (maxLen - 3)) with
    | Some head => Some (head +:+ "...")
    | None => None
    end.

(** A plain cell of [renderRow]: [padRight(truncStr(s, col), col)]. *)
Definition cell (can_alloc : Z -> bool) (s : string) (col : Z)
    : option string :=
  match truncStr s col with
  | Some t => padRight can_alloc t col
  | None => None
  end.

Definition maxInt (a b : Z) : Z := if b <? a then a else b.
Definition minInt (a b : Z) : Z := if a <? b then a else b.

(** [type SortField int] and its constants. *)
Inductive SortField : Type :=
  | SortApp
  | SortPing
  | SortLoss
  | SortTxRate
  | SortRxRate
  | SortState.

Definition SortField_eqb (a b : SortField) : bool :=
  match a, b with
  | SortApp, SortApp | SortPing, SortPing | SortLoss, SortLoss
  | SortTxRate, SortTxRate | SortRxRate, SortRxRate
  | SortState, SortState => true
  | _, _ => false
  end.

(** [type Model struct], without the pointer to the tracker. *)
Record Model : Type := mkModel {
  connections : list nat;
  filter : string;
  searching : bool;
  cursor : Z;
  offset : Z;
  width : Z;
  height : Z;
  sortField : SortField;
  sortAsc : bool;
  paused : bool;
  showHelp : bool
}.

(** [func NewModel(t *tracker.Tracker) Model]. *)
Definition NewModel : Model :=
  {| connections := []; filter := ""; searching := false; cursor := 0;
     offset := 0; width := 120; height := 30; sortField := SortApp;
     sortAsc := true; paused := false; showHelp := false |}.

(** Assignments to fields of the model. *)
Definition with_connections (l : list nat) (m : Model) : Model :=
  {| connections := l; filter := filter m; searching := searching m;
     cursor := cursor m; offset := offset m; width := width m;
     height := height m; sortField := sortField m; sortAsc := sortAsc m;
     paused := paused m; showHelp := showHelp m |}.

Definition with_filter (f : string) (m : Model) : Model :=
  {| connections := connections m; filter := f; searching := searching m;
     cursor := cursor m; offset := offset m; width := width m;
     height := height m; sortField := sortField m; sortAsc := sortAsc m;
     paused := paused m; showHelp := showHelp m |}.

Definition with_searching (b : bool) (m : Model) : Model :=
  {| connections := connections m; filter := filter m; searching := b;
     cursor := cursor m; offset := offset m; width := width m;
     height := height m; sortField := sortField m; sortAsc := sortAsc m;
     paused := paused m; showHelp := showHelp m |}.

Definition with_cursor (c o : Z) (m : Model) : Model :=
  {| connections := connections m; filter := filter m;
     searching := searching m; cursor := c; offset := o; width := width m;
     height := height m; sortField := sortField m; sortAsc := sortAsc m;
     paused := paused m; showHelp := showHelp m |}.

Definition with_size (w h : Z) (m : Model) : Model :=
  {| connections := connections m; filter := filter m;
     searching := searching m; cursor := cursor m; offset := offset m;
     width := w; height := h; sortField := sortField m; sortAsc := sortAsc m;
     paused := paused m; showHelp := showHelp m |}.

Definition with_sort (field : SortField) (asc : bool) (m : Model) : Model :=
  {| connections := connections m; filter := filter m;
     searching := searching m; cursor := cursor m; offset := offset m;
     width := width m; height := height m; sortField := field; sortAsc := asc;
     paused := paused m; showHelp := showHelp m |}.

Definition with_paused (b : bool) (m : Model) : Model :=
  {| connections := connections m; filter := filter m;
     searching := searching m; cursor := cursor m; offset := offset m;
     width := width m; height := height m; sortField := sortField m;
     sortAsc := sortAsc m; paused := b; showHelp := showHelp m |}.

Definition with_showHelp (b : bool) (m : Model) : Model :=
  {| connections := connections m; filter := filter m;
     searching := searching m; cursor := cursor m; offset := offset m;
     width := width m; height := height m; sortField := sortField m;
     sortAsc := sortAsc m; paused := paused m; showHelp := b |}.

(** [len(m.connections)]. *)
Definition rows (m : Model) : Z := Z.of_nat (length (connections m)).

(** [func (m Model) visibleRows() int]. *)
Definition visibleRows (m : Model) : Z := maxInt 1 (wrap_int (height m - 6)).

(** [func compareDuration(a, b time.Duration) int]. *)
Definition compareDuration (a b : Z) : Z :=
  if a <? b then -1 else if b <? a then 1 else 0.

(** [func compareFloat(a, b float64) int]. *)
Definition compareFloat (a b : spec_float) : Z :=
  if Float64.ltb a b then -1 else if Float64.ltb b a then 1 else 0.

(** [strings.Compare]: the byte-wise lexicographic order. *)
Definition Compare (a b : string) : Z :=
  match String.compare a b with
  | Lt => -1
  | Eq => 0
  | Gt => 1
  end.

(** What a key press or a message asks the runtime to do next. *)
Inductive Cmd : Type :=
  | NoCmd
  | Quit
  | Tick.

(** The messages [Update] distinguishes; a key comes as [msg.String()]. *)
Inductive Msg : Type :=
  | KeyMsg (key : string)
  | TickMsg
  | WindowSizeMsg (Width Height : Z)
  | OtherMsg.

Section Sorted.

(** [strings.Map(unicode.ToLower, s)], as for [Search]. *)
Variable unicodeLowerMap : string -> string.

(** [sort.SliceStable], of package [sort]. *)
Variable SliceStable : (nat -> nat -> bool) -> list nat -> list nat.

(** The function literal of [sortConnections], on two records. *)
Definition less (field : SortField) (asc : bool) (a b : Connection) : bool :=
  let cmp :=
    match field with
    | SortApp =>
        Compare (GoStrings.ToLower unicodeLowerMap (AppName a))
                (GoStrings.ToLower unicodeLowerMap (AppName b))
    | SortPing => compareDuration (Ping a) (Ping b)
    | SortLoss => compareFloat (Loss a) (Loss b)
    | SortTxRate => compareFloat (TxRate a) (TxRate b)
    | SortRxRate => compareFloat (RxRate a) (RxRate b)
    | SortState => Compare (State a) (State b)
    end in
  let cmp := if asc then cmp else wrap_int (- cmp) in
  if negb (cmp =? 0) then cmp <? 0
  else if negb (String.eqb (Direction a) (Direction b))
       then String.eqb (Direction a) Outbound
       else false.

(** The same on two addresses of the slice. *)
Definition less_at (h : list Connection) (field : SortField) (asc : bool)
    (p q : nat) : bool :=
  match h !! p, h !! q with
  | Some a, Some b => less field asc a b
  | _, _ => false
  end.

(** [func (m *Model) sortConnections()]. *)
Definition sortConnections (h : list Connection) (m : Model) : Model :=
  with_connections
    (SliceStable (less_at h (sortField m) (sortAsc m)) (connections m)) m.

(** [func (m *Model) toggleSort(field SortField)]. *)
Definition toggleSort (field : SortField) (h : list Connection) (m : Model)
    : Model :=
  sortConnections h
    (if SortField_eqb (sortField m) field
     then with_sort (sortField m) (negb (sortAsc m)) m
     else with_sort field true m).

(** [func (m *Model) refresh()]. *)
Definition refresh (m : Model) (w : World) : Model * World :=
  let '(result, w') :=
    if negb (String.eqb (filter m) "")
    then Search unicodeLowerMap (filter m) w
    else Snapshot w in
  (sortConnections (heap w') (with_connections result m), w').

(** [func (m Model) handleSearchKey(msg tea.KeyMsg) (tea.Model, tea.Cmd)]. *)
Definition handleSearchKey (key : string) (m : Model) (w : World)
    : Model * World * Cmd :=
  if String.eqb key "enter" then
    let '(m', w') := refresh (with_cursor 0 0 (with_searching false m)) w in
    (m', w', NoCmd)
  else if String.eqb key "esc" then (with_searching false m, w, NoCmd)
  else if String.eqb key "backspace" then
    if 0 <? Z.of_nat (String.length (filter m))
    then
      match slice_to (filter m)
              (wrap_int (Z.of_nat (String.length (filter m)) - 1)) with
      | Some f => (with_filter f m, w, NoCmd)
      | None => (m, w, NoCmd)
      end
    else (m, w, NoCmd)
  else if Z.of_nat (String.length key) =? 1
       then (with_filter (filter m +:+ key) m, w, NoCmd)
       else (m, w, NoCmd).

(** [func (m Model) handleKey(msg tea.KeyMsg) (tea.Model, tea.Cmd)]. *)
Definition handleKey (key : string) (m : Model) (w : World)
    : Model * World * Cmd :=
  if searching m then handleSearchKey key m w
  else if String.eqb key "q" || String.eqb key "ctrl+c" then (m, w, Quit)
  else if String.eqb key "/" then (with_searching true m, w, NoCmd)
  else if String.eqb key "up" || String.eqb key "k" then
    if 0 <? cursor m then
      let c := wrap_int (cursor m - 1) in
      (with_cursor c (if c <? offset m then c else offset m) m, w, NoCmd)
    else (m, w, NoCmd)
  else if String.eqb key "down" || String.eqb key "j" then
    if cursor m <? wrap_int (rows m - 1) then
      let c := wrap_int (cursor m + 1) in
      let maxVisible := visibleRows m in
      (with_cursor c
         (if wrap_int (offset m + maxVisible) <=? c
          then wrap_int (wrap_int (c - maxVisible) + 1) else offset m) m,
       w, NoCmd)
    else (m, w, NoCmd)
  else if String.eqb key "home" || String.eqb key "g" then
    (with_cursor 0 0 m, w, NoCmd)
  else if String.eqb key "end" || String.eqb key "G" then
    let c := maxInt 0 (wrap_int (rows m - 1)) in
    let maxVisible := visibleRows m in
    (with_cursor c
       (if maxVisible <=? c
        then wrap_int (wrap_int (c - maxVisible) + 1) else offset m) m,
     w, NoCmd)
  else if String.eqb key "1" then (toggleSort SortApp (heap w) m, w, NoCmd)
  else if String.eqb key "2" then (toggleSort SortPing (heap w) m, w, NoCmd)
  else if String.eqb key "3" then (toggleSort SortLoss (heap w) m, w, NoCmd)
  else if String.eqb key "4" then (toggleSort SortTxRate (heap w) m, w, NoCmd)
  else if String.eqb key "5" then (toggleSort SortRxRate (heap w) m, w, NoCmd)
  else if String.eqb key "6" then (toggleSort SortState (heap w) m, w, NoCmd)
  else if String.eqb key "p" then (with_paused (negb (paused m)) m, w, NoCmd)
  else if String.eqb key "r" then
    let '(m', w') := refresh m w in (m', w', NoCmd)
  else if String.eqb key "c" then
    let '(m', w') := refresh (with_cursor 0 0 (with_filter "" m)) w in
    (m', w', NoCmd)
  else if String.eqb key "?" then
    (with_showHelp (negb (showHelp m)) m, w, NoCmd)
  else (m, w, NoCmd).

(** [func (m Model) Update(msg tea.Msg) (tea.Model, tea.Cmd)]. *)
Definition Update (msg : Msg) (m : Model) (w : World) : Model * World * Cmd :=
  match msg with
  | KeyMsg key => handleKey key m w
  | TickMsg =>
      if negb (paused m)
      then let '(m', w') := refresh m w in (m', w', Tick)
      else (m, w, Tick)
  | WindowSizeMsg Width Height => (with_size Width Height m, w, NoCmd)
  | OtherMsg => (m, w, NoCmd)
  end.

End Sorted.

(** The cursor is on a row of the table (row 0 when the table is empty)
    and inside the window of [visibleRows] rows that starts at [offset]. *)
Definition in_view (m : Model) : Prop :=
  0 <= offset m /\ offset m <= cursor m /\
  cursor m < offset m + visibleRows m /\
  cursor m <= maxInt 0 (rows m - 1) /\
  offset m + visibleRows m <= int_max.

End Tui.

(** ** A table with three rows *)

Module Scenario3.

(** A stable sort that can stand for [sort.SliceStable]: insertion
    sort, from the right.  An element moves behind the elements to its
    right that are less than it and stays in front of the others, so equal
    elements keep their order. *)
Fixpoint insert_sorted (less : nat -> nat -> bool) (x : nat) (l : list nat)
    : list nat :=
  match l with
  | [] => [x]
  | y :: l' => if less y x then y :: insert_sorted less x l' else x :: y :: l'
  end.

Definition insertion_sort (less : nat -> nat -> bool) (l : list nat)
    : list nat :=
  foldr (insert_sorted less) [] l.

(** An allocator that hands out buffers of up to [2^47] bytes. *)
Definition can_alloc (n : Z) : bool := n <=? 140737488355328.

(** The model after a refresh that returned three rows. *)
Definition three_rows : Tui.Model :=
  Tui.with_connections [1%nat; 2%nat; 3%nat] Tui.NewModel.

(** The model in search mode. *)
Definition typing : Tui.Model := Tui.with_searching true Tui.NewModel.

End Scenario3.

(** ** tracker/scanner_windows.go: from the rows of the tables on *)

Module WindowsTables.

(** [binary.LittleEndian.PutUint32(b, v)] on a slice of four bytes:
    [b[0] = byte(v)], [b[1] = byte(v >> 8)], [b[2] = byte(v >> 16)],
    [b[3] = byte(v >> 24)]. *)
Definition PutUint32 (v : Z) : Z * Z * Z * Z :=
  (Z.land v 255, Z.land (Z.shiftr v 8) 255, Z.land (Z.shiftr v 16) 255,
   Z.land (Z.shiftr v 24) 255).

(** [binary.BigEndian.Uint16(b)] on the two bytes [b0], [b1]:
    [uint16(b[1]) | uint16(b[0])<<8]. *)
Definition Uint16 (b0 b1 : Z) : Z := Z.lor b1 (Z.shiftl b0 8).

(** [func networkToHostPort(p uint32) int]. *)
Definition networkToHostPort (p : Z) : Z :=
  let '(b0, b1, _, _) := PutUint32 p in Uint16 b0 b1.

(** [net.IP.String] on a slice of four bytes: the dotted quad. *)
Definition IPv4_String (b0 b1 b2 b3 : Z) : string :=
  fmt_d b0 +:+ "." +:+ fmt_d b1 +:+ "." +:+ fmt_d b2 +:+ "." +:+ fmt_d b3.

(** [func uint32ToIP(addr uint32) string]. *)
Definition uint32ToIP (addr : Z) : string :=
  let '(b0, b1, b2, b3) := PutUint32 addr in IPv4_String b0 b1 b2 b3.

(** [var winTCPStates = map[uint32]ConnState]. *)
Definition winTCPStates (s : Z) : option string :=
  match s with
  | 1 => Some StateClosed
  | 2 => Some StateListening
  | 3 => Some StateSynSent
  | 4 => Some StateSynRecv
  | 5 => Some StateEstablished
  | 6 => Some StateFinWait1
  | 7 => Some StateFinWait2
  | 8 => Some StateCloseWait
  | 9 => Some StateClosing
  | 10 => Some StateLastAck
  | 11 => Some StateTimeWait
  | 12 => Some StateClosed
  | _ => None
  end.

(** [type tcpRowOwnerPID struct]; every field is a [uint32].  The fields
    of the four row types carry the row type in their names, as one
    module cannot hold two fields of one name. *)
Record tcpRowOwnerPID : Type := mkTcpRow {
  tcp_State : Z;
  tcp_LocalAddr : Z;
  tcp_LocalPort : Z;
  tcp_RemoteAddr : Z;
  tcp_RemotePort : Z;
  tcp_OwningPid : Z
}.

(** [type udpRowOwnerPID struct]. *)
Record udpRowOwnerPID : Type := mkUdpRow {
  udp_LocalAddr : Z;
  udp_LocalPort : Z;
  udp_OwningPid : Z
}.

(** [type tcp6RowOwnerPID struct]; an address is its sixteen bytes. *)
Record tcp6RowOwnerPID : Type := mkTcp6Row {
  tcp6_LocalAddr : list Z;
  tcp6_LocalScopeId : Z;
  tcp6_LocalPort : Z;
  tcp6_RemoteAddr : list Z;
  tcp6_RemoteScopeId : Z;
  tcp6_RemotePort : Z;
  tcp6_State : Z;
  tcp6_OwningPid : Z
}.

(** [type udp6RowOwnerPID struct]. *)
Record udp6RowOwnerPID : Type := mkUdp6Row {
  udp6_LocalAddr : list Z;
  udp6_LocalScopeId : Z;
  udp6_LocalPort : Z;
  udp6_OwningPid : Z
}.

(** The body of the loop of [getTCPTable]. *)
Definition tcp_entry (row : tcpRowOwnerPID) : ScannerWindows.connEntry :=
  let state := default StateUnknown (winTCPStates (tcp_State row)) in
  {| ScannerWindows.protocol := "tcp";
     ScannerWindows.localAddr := uint32ToIP (tcp_LocalAddr row);
     ScannerWindows.localPort := networkToHostPort (tcp_LocalPort row);
     ScannerWindows.remoteAddr := uint32ToIP (tcp_RemoteAddr row);
     ScannerWindows.remotePort := networkToHostPort (tcp_RemotePort row);
     ScannerWindows.state := state;
     ScannerWindows.pid := tcp_OwningPid row |}.

(** The body of the loop of [getUDPTable]. *)
Definition udp_entry (row : udpRowOwnerPID) : ScannerWindows.connEntry :=
  {| ScannerWindows.protocol := "udp";
     ScannerWindows.localAddr := uint32ToIP (udp_LocalAddr row);
     ScannerWindows.localPort := networkToHostPort (udp_LocalPort row);
     ScannerWindows.remoteAddr := "0.0.0.0";
     ScannerWindows.remotePort := 0;
     ScannerWindows.state := StateEstablished;
     ScannerWindows.pid := udp_OwningPid row |}.

Section IPv6.

(** [net.IP.String] on a slice of sixteen bytes (the text form of an IPv6
    address, with its zero compression). *)
Variable IP_String : list Z -> string.

(** The body of the loop of [getTCP6Table]. *)
Definition tcp6_entry (row : tcp6RowOwnerPID) : ScannerWindows.connEntry :=
  let state := default StateUnknown (winTCPStates (tcp6_State row)) in
  {| ScannerWindows.protocol := "tcp6";
     ScannerWindows.localAddr := IP_String (tcp6_LocalAddr row);
     ScannerWindows.localPort := networkToHostPort (tcp6_LocalPort row);
     ScannerWindows.remoteAddr := IP_String (tcp6_RemoteAddr row);
     ScannerWindows.remotePort := networkToHostPort (tcp6_RemotePort row);
     ScannerWindows.state := state;
     ScannerWindows.pid := tcp6_OwningPid row |}.

(** The body of the loop of [getUDP6Table]. *)
Definition udp6_entry (row : udp6RowOwnerPID) : ScannerWindows.connEntry :=
  {| ScannerWindows.protocol := "udp6";
     ScannerWindows.localAddr := IP_String (udp6_LocalAddr row);
     ScannerWindows.localPort := networkToHostPort (udp6_LocalPort row);
     ScannerWindows.remoteAddr := "::";
     ScannerWindows.remotePort := 0;
     ScannerWindows.state := StateEstablished;
     ScannerWindows.pid := udp6_OwningPid row |}.

(** [ScanConnections] from the rows of the four tables on. *)
Definition ScanRows (getProcessName : Z -> string) (now : Z)
    (tcp : list tcpRowOwnerPID) (tcp6 : list tcp6RowOwnerPID)
    (udp : list udpRowOwnerPID) (udp6 : list udp6RowOwnerPID)
    : list Connection :=
  ScannerWindows.ScanConnections getProcessName now
    (map tcp_entry tcp) (map tcp6_entry tcp6)
    (map udp_entry udp) (map udp6_entry udp6).

End IPv6.

(** A port as a row of the operating system holds it: in network byte
    order in the two low bytes of the field. *)
Definition htons (port : Z) : Z :=
  Z.lor (Z.shiftl (Z.land port 255) 8) (Z.land (Z.shiftr port 8) 255).

(** An IPv4 address as a row holds it: the four octets in memory order,
    read as a little-endian word. *)
Definition in_addr (a b c d : Z) : Z :=
  a + 256 * b + 65536 * c + 16777216 * d.

End WindowsTables.

(** A row of the TCP table: an established connection from port 40000 to
    93.184.216.34:443, owned by process 77. *)
Definition tcp_row_example : WindowsTables.tcpRowOwnerPID :=
  {| WindowsTables.tcp_State := 5;
     WindowsTables.tcp_LocalAddr := WindowsTables.in_addr 10 0 0 2;
     WindowsTables.tcp_LocalPort := WindowsTables.htons 40000;
     WindowsTables.tcp_RemoteAddr := WindowsTables.in_addr 93 184 216 34;
     WindowsTables.tcp_RemotePort := WindowsTables.htons 443;
     WindowsTables.tcp_OwningPid := 77 |}.

(** [c] can be shown in the table: it has an application name and one of
    the two directions. *)
Definition classified (c : Connection) : Prop :=
  AppName c <> "" /\ (Direction c = Inbound \/ Direction c = Outbound).

(** [s] holds no byte [c]. *)
Fixpoint free (c : ascii) (s : string) : bool :=
  match s with
  | EmptyString => true
  | String a s' => negb (Ascii.eqb a c) && free c s'
  end.

(** The octets 0 to 255. *)
Definition octets : list Z := seqZ 0 256.

(** ** tracker/scanner_linux.go: from the fields of a line on *)

Module ProcNet.

(** [strings.Split(s, sep)] for a separator of one byte: the pieces of
    [s] between the occurrences of [sep]; [cur] is the piece being read. *)
Fixpoint Split (sep : ascii) (s cur : string) : list string :=
  match s with
  | EmptyString => [cur]
  | String c s' =>
      if Ascii.eqb c sep then cur :: Split sep s' ""
      else Split sep s' (cur +:+ String c "")
  end.

(** The entry of [c] in the table of [encoding/hex]: the value of a
    digit [0-9], [a-f] or [A-F]. *)
Definition fromHexChar (c : ascii) : option Z :=
  let n := Z.of_nat (nat_of_ascii c) in
  if (48 <=? n) && (n <=? 57) then Some (n - 48)
  else if (97 <=? n) && (n <=? 102) then Some (n - 97 + 10)
  else if (65 <=? n) && (n <=? 70) then Some (n - 65 + 10)
  else None.

(** [hex.DecodeString]: two digits a byte, [(a << 4) | b]; a byte that is
    no digit or an odd length is an error. *)
Fixpoint DecodeString (s : string) : option (list Z) :=
  match s with
  | EmptyString => Some []
  | String _ EmptyString => None
  | String p (String q rest) =>
      match fromHexChar p, fromHexChar q with
      | Some a, Some b =>
          match DecodeString rest with
          | Some l => Some (Z.lor (Z.shiftl a 4) b :: l)
          | None => None
          end
      | _, _ => None
      end
  end.

(** The errors of [strconv]. *)
Inductive NumError : Type := ErrSyntax | ErrRange.

(** The digit of [c] in the loop of [strconv.ParseUint], base 16:
    [c - '0'] for a decimal digit, [lower(c) - 'a' + 10] for a letter,
    where [lower(c)] is [c | 0x20]; a digit of 16 or more is refused. *)
Definition hex_digit (c : ascii) : option Z :=
  let n := Z.of_nat (nat_of_ascii c) in
  let l := Z.lor n 32 in
  if (48 <=? n) && (n <=? 57) then Some (n - 48)
  else if (97 <=? l) && (l <=? 122)
       then if 16 <=? l - 97 + 10 then None else Some (l - 97 + 10)
       else None.

(** The cutoff of [ParseUint] for base 16: [maxUint64/16 + 1]. *)
Definition cutoff16 : Z := 18446744073709551615 / 16 + 1.

(** The loop of [strconv.ParseUint] for base 16. *)
Fixpoint ParseUint_loop (maxVal : Z) (s : string) (n : Z)
    : Z * option NumError :=
  match s with
  | EmptyString => (n, None)
  | String c s' =>
      match hex_digit c with
      | None => (0, Some ErrSyntax)
      | Some d =>
          if cutoff16 <=? n then (maxVal, Some ErrRange)
          else
            let n := wrap_uint64 (n * 16) in
            let n1 := wrap_uint64 (n + d) in
            if (n1 <? n) || (maxVal <? n1) then (maxVal, Some ErrRange)
            else ParseUint_loop maxVal s' n1
      end
  end.

(** [strconv.ParseUint(s, 16, bitSize)], for a [bitSize] from 1 to 64. *)
Definition ParseUint (s : string) (bitSize : Z) : Z * option NumError :=
  match s with
  | EmptyString => (0, Some ErrSyntax)
  | _ =>
      let maxVal := wrap_uint64 (wrap_uint64 (Z.shiftl 1 bitSize) - 1) in
      ParseUint_loop maxVal s 0
  end.

(** [strconv.ParseInt(s, 16, bitSize)]: an optional sign, then
    [ParseUint]; the magnitude is checked against [1 << (bitSize-1)]. *)
Definition ParseInt (s : string) (bitSize : Z) : Z * option NumError :=
  match s with
  | EmptyString => (0, Some ErrSyntax)
  | String c s' =>
      let neg := Ascii.eqb c "-" in
      let digits := if Ascii.eqb c "+" || Ascii.eqb c "-" then s' else s in
      match ParseUint digits bitSize with
      | (_, Some ErrSyntax) => (0, Some ErrSyntax)
      | (un, _) =>
          let cutoff := Z.shiftl 1 (bitSize - 1) in
          if negb neg && (cutoff <=? un) then (cutoff - 1, Some ErrRange)
          else if neg && (cutoff <? un) then (- cutoff, Some ErrRange)
          else (if neg then - un else un, None)
      end
  end.

(** [binary.LittleEndian.Uint32] on four bytes. *)
Definition Uint32_LE (b0 b1 b2 b3 : Z) : Z :=
  Z.lor (Z.lor (Z.lor b0 (Z.shiftl b1 8)) (Z.shiftl b2 16)) (Z.shiftl b3 24).

(** [binary.BigEndian.PutUint32]: the four bytes written. *)
Definition PutUint32_BE (v : Z) : list Z :=
  [Z.land (Z.shiftr v 24) 255; Z.land (Z.shiftr v 16) 255;
   Z.land (Z.shiftr v 8) 255; Z.land v 255].

(** The loop of the case 16 of [hexToIP]: each word of four bytes is read
    little-endian and written big-endian. *)
Fixpoint swap_words (b : list Z) : list Z :=
  match b with
  | b0 :: b1 :: b2 :: b3 :: rest =>
      PutUint32_BE (Uint32_LE b0 b1 b2 b3) ++ swap_words rest
  | _ => []
  end.

Section Parse.

(** [net.IP.String] on a slice of sixteen bytes. *)
Variable IP_String : list Z -> string.

(** [strings.Map(unicode.ToUpper, s)], the path of [strings.ToUpper] for a
    string with a byte outside ASCII. *)
Variable unicodeUpperMap : string -> string.

Definition is_lower_ascii (c : ascii) : bool :=
  (97 <=? Z.of_nat (nat_of_ascii c)) && (Z.of_nat (nat_of_ascii c) <=? 122).

(** [c -= 'a' - 'A'] on a lower-case ASCII letter. *)
Definition upper_byte (c : ascii) : ascii :=
  if is_lower_ascii c then ascii_of_nat (nat_of_ascii c - 32) else c.

(** [strings.ToUpper]. *)
Definition ToUpper (s : string) : string :=
  if GoStrings.all_ascii s then GoStrings.map_bytes upper_byte s
  else unicodeUpperMap s.

(** [func hexToIP(h string) (string, error)]; [net.IPv4(a, b, c, d)]
    is written as the dotted quad. *)
Definition hexToIP (h : string) : option string :=
  match DecodeString h with
  | None => None
  | Some b =>
      match b with
      | [b0; b1; b2; b3] => Some (WindowsTables.IPv4_String b3 b2 b1 b0)
      | _ =>
          if (length b =? 16)%nat then Some (IP_String (swap_words b))
          else None
      end
  end.

(** [func parseAddr(s string) (string, int, error)]. *)
Definition parseAddr (s : string) : option (string * Z) :=
  match Split ":" s "" with
  | [addrHex; portHex] =>
      match ParseInt portHex 32 with
      | (port, None) =>
          match hexToIP addrHex with
          | Some addr => Some (addr, port)
          | None => None
          end
      | (_, Some _) => None
      end
  | _ => None
  end.

(** [var procStates = map[string]ConnState]. *)
Definition procStates : gmap string string :=
  list_to_map
    [("01", StateEstablished); ("02", StateSynSent); ("03", StateSynRecv);
     ("04", StateFinWait1); ("05", StateFinWait2); ("06", StateTimeWait);
     ("07", StateClosed); ("08", StateCloseWait); ("09", StateLastAck);
     ("0A", StateListening); ("0B", StateClosing)].

(** The body of the loop of [parseProcNet] from [fields] on: [None] is a
    line that is skipped. *)
Definition parse_fields (protocol : string) (fields : list string)
    : option ScannerLinux.inodeEntry :=
  match fields with
  | _ :: f1 :: f2 :: f3 :: f4 :: _ :: _ :: _ :: _ :: f9 :: _ =>
      match parseAddr f1 with
      | None => None
      | Some (localAddr, localPort) =>
          match parseAddr f2 with
          | None => None
          | Some (remoteAddr, remotePort) =>
              let stateHex := ToUpper f3 in
              let state := default StateUnknown (procStates !! stateHex) in
              let '(txQ, rxQ) :=
                match Split ":" f4 "" with
                | [q0; q1] => ((ParseUint q0 64).1, (ParseUint q1 64).1)
                | _ => (0, 0)
                end in
              Some {| ScannerLinux.protocol := protocol;
                      ScannerLinux.localAddr := localAddr;
                      ScannerLinux.localPort := localPort;
                      ScannerLinux.remoteAddr := remoteAddr;
                      ScannerLinux.remotePort := remotePort;
                      ScannerLinux.state := state;
                      ScannerLinux.inode := f9;
                      ScannerLinux.txQueue := txQ;
                      ScannerLinux.rxQueue := rxQ |}
          end
      end
  | _ => None
  end.

(** [parseProcNet] from the fields of the lines after the header on. *)
Definition parseProcNet (protocol : string) (lines : list (list string))
    : list ScannerLinux.inodeEntry :=
  omap (parse_fields protocol) lines.

End Parse.

(** What the kernel writes: [%0nX], the [digits] low hexadecimal digits
    of [v] in upper case. *)
Definition hex_char (d : Z) : ascii :=
  ascii_of_nat (Z.to_nat (if d <? 10 then 48 + d else 55 + d)).

Fixpoint hex_upper (digits : nat) (v : Z) : string :=
  match digits with
  | O => ""
  | S k => hex_upper k (v / 16) +:+ String (hex_char (v mod 16)) ""
  end.

(** An IPv4 endpoint in a line of [/proc/net/tcp]: the address word as
    the host reads the four octets from memory, then the port. *)
Definition kernel_addr (a b c d port : Z) : string :=
  hex_upper 8 (WindowsTables.in_addr a b c d) +:+ ":" +:+ hex_upper 4 port.

(** The two queue lengths of a line. *)
Definition kernel_queues (tx rx : Z) : string :=
  hex_upper 8 tx +:+ ":" +:+ hex_upper 8 rx.

End ProcNet.

(** ** Lines of [/proc/net/tcp] as the kernel writes them *)

Module KernelLine.

(** An IPv4 endpoint: four octets and a port. *)
Record endpoint : Type := mkEndpoint {
  oct_a : Z;
  oct_b : Z;
  oct_c : Z;
  oct_d : Z;
  ep_port : Z
}.

Definition valid_endpoint (e : endpoint) : Prop :=
  0 <= oct_a e < 256 /\ 0 <= oct_b e < 256 /\ 0 <= oct_c e < 256 /\
  0 <= oct_d e < 256 /\ 0 <= ep_port e < 65536.

Definition endpoint_text (e : endpoint) : string :=
  ProcNet.kernel_addr (oct_a e) (oct_b e) (oct_c e) (oct_d e) (ep_port e).

Definition dotted (e : endpoint) : string :=
  WindowsTables.IPv4_String (oct_a e) (oct_b e) (oct_c e) (oct_d e).

Definition zero_address (e : endpoint) : Prop :=
  oct_a e = 0 /\ oct_b e = 0 /\ oct_c e = 0 /\ oct_d e = 0.

(** What a line of an IPv4 socket tells: the two endpoints, the state
    code, the two queue lengths and the inode. *)
Record socket : Type := mkSocket {
  local : endpoint;
  remote : endpoint;
  st : Z;
  tx_queue : Z;
  rx_queue : Z;
  ino : string
}.

Definition valid_socket (s : socket) : Prop :=
  valid_endpoint (local s) /\ valid_endpoint (remote s) /\
  0 <= st s < 256 /\
  0 <= tx_queue s < 4294967296 /\ 0 <= rx_queue s < 4294967296.

(** The fields of the line of [s]: slot, local and remote endpoint,
    state, queues, four fields the scanner does not read, the inode, and
    what follows. *)
Definition fields (slot : string) (s : socket) (f5 f6 f7 f8 : string)
    (rest : list string) : list string :=
  slot :: endpoint_text (local s) :: endpoint_text (remote s) ::
  ProcNet.hex_upper 2 (st s) :: ProcNet.kernel_queues (tx_queue s) (rx_queue s) ::
  f5 :: f6 :: f7 :: f8 :: ino s :: rest.

(** The socket of the comment of [parseAddr], [0100007F:0035]: the local
    resolver, listening on 127.0.0.1:53. *)
Definition resolver : socket :=
  {| local := mkEndpoint 127 0 0 1 53; remote := mkEndpoint 0 0 0 0 0;
     st := 10; tx_queue := 0; rx_queue := 0; ino := "2001" |}.

(** An established connection to 93.184.216.34:443 with 1000 bytes
    queued for sending. *)
Definition browser : socket :=
  {| local := mkEndpoint 10 0 0 2 40000;
     remote := mkEndpoint 93 184 216 34 443;
     st := 1; tx_queue := 1000; rx_queue := 0; ino := "12345" |}.

End KernelLine.

(** [w'] is [w] as far as the engine can tell: the same tracker, the same
    dial log, and the same record at every address of [w]. *)
Definition reader_only (w w' : World) : Prop :=
  tracker w' = tracker w /\ dialled w' = dialled w /\
  forall q, (q < length (heap w))%nat -> heap w' !! q = heap w !! q.

(** * Properties *)

(** ** Arithmetic of the embedding *)

Lemma wrap_int_id z : int_min <= z <= int_max -> wrap_int z = z.
Proof.
  unfold wrap_int, int_min, int_max. intros Hz.
  rewrite Z.mod_small; lia.
Qed.

Lemma wrap_uint64_id z : 0 <= z < 18446744073709551616 -> wrap_uint64 z = z.
Proof. unfold wrap_uint64. intros Hz. by rewrite Z.mod_small. Qed.

Lemma Sub_same t : GoTime.Sub t t = 0.
Proof. unfold GoTime.Sub. by rewrite Z.sub_diag. Qed.

(** No time passes between two samples taken at the same instant: the test
    [dt > 0] of [scan] fails. *)
Lemma no_time_no_rate t :
  Float64.ltb Float64.zero (GoTime.Seconds (GoTime.Sub t t)) = false.
Proof. rewrite Sub_same. reflexivity. Qed.

(** ** The reconciliation loop *)

Section ReconcileLoop.

Variable now : Z.

Lemma reconcile_step_alive sc h m alive :
  (reconcile_step now sc h m alive).2 = <[Key sc := true]> alive.
Proof.
  unfold reconcile_step.
  destruct (m !! Key sc) as [p|]; [destruct (h !! p)|]; reflexivity.
Qed.

Lemma reconcile_step_dom sc h m alive :
  dom (reconcile_step now sc h m alive).1.2 = {[Key sc]} ∪ dom m.
Proof.
  unfold reconcile_step.
  destruct (m !! Key sc) as [p|] eqn:Hk.
  - assert (Hin : Key sc ∈ dom m) by (apply elem_of_dom; eauto).
    assert (dom m = {[Key sc]} ∪ dom m) as Hdom.
    { symmetry. apply subseteq_union_1_L. by apply singleton_subseteq_l. }
    by destruct (h !! p).
  - simpl. by rewrite dom_insert_L.
Qed.

Lemma reconcile_step_other sc h m alive k :
  Key sc ≠ k -> (reconcile_step now sc h m alive).1.2 !! k = m !! k.
Proof.
  intros Hne. unfold reconcile_step.
  destruct (m !! Key sc) as [p|]; [destruct (h !! p)|]; simpl; try done.
  by rewrite lookup_insert_ne.
Qed.

Lemma reconcile_step_length sc h m alive :
  (length h <= length (reconcile_step now sc h m alive).1.1)%nat.
Proof.
  unfold reconcile_step.
  destruct (m !! Key sc) as [p|]; [destruct (h !! p)|]; simpl.
  - by rewrite length_insert.
  - done.
  - rewrite length_app. simpl. lia.
Qed.

Lemma reconcile_step_wf sc h m alive :
  wf_map h m ->
  wf_map (reconcile_step now sc h m alive).1.1
         (reconcile_step now sc h m alive).1.2.
Proof.
  intros [Hlt Hinj]. unfold reconcile_step.
  destruct (m !! Key sc) as [p|] eqn:Hk; [destruct (h !! p)|]; simpl.
  - split; [|done]. intros k q Hq. rewrite length_insert. eauto.
  - by split.
  - split.
    + intros k q Hq. rewrite length_app. simpl.
      rewrite lookup_insert in Hq. case_decide; simplify_eq; [lia|].
      apply Hlt in Hq. lia.
    + intros k1 k2 q H1 H2.
      rewrite lookup_insert in H1. rewrite lookup_insert in H2.
      destruct (decide (Key sc = k1)) as [E1|N1];
        destruct (decide (Key sc = k2)) as [E2|N2].
      * congruence.
      * injection H1 as <-. apply Hlt in H2. lia.
      * injection H2 as <-. apply Hlt in H1. lia.
      * eauto.
Qed.

(** A step for another key leaves the record of [k] alone. *)
Lemma reconcile_step_frame sc h m alive k p :
  wf_map h m -> m !! k = Some p -> Key sc ≠ k ->
  (reconcile_step now sc h m alive).1.1 !! p = h !! p.
Proof.
  intros [Hlt Hinj] Hk Hne. unfold reconcile_step.
  destruct (m !! Key sc) as [q|] eqn:Hq; [destruct (h !! q)|]; simpl.
  - rewrite list_lookup_insert_ne; [done|].
    intros ->. apply Hne. by eapply Hinj.
  - done.
  - apply lookup_app_l. eauto.
Qed.

(** A step for the key of a record in the map updates that record. *)
Lemma reconcile_step_existing sc h m alive p c :
  m !! Key sc = Some p -> h !! p = Some c ->
  reconcile_step now sc h m alive =
    (<[p := update_existing now sc c]> h, m, <[Key sc := true]> alive).
Proof. intros Hk Hp. unfold reconcile_step. by rewrite Hk, Hp. Qed.

(** A step for a key that is not in the map stores the record. *)
Lemma reconcile_step_new sc h m alive :
  m !! Key sc = None ->
  reconcile_step now sc h m alive =
    (h ++ [init_new now sc], <[Key sc := length h]> m,
     <[Key sc := true]> alive).
Proof. intros Hk. unfold reconcile_step. by rewrite Hk. Qed.

Lemma reconcile_loop_cons sc rest h m alive :
  reconcile_loop now (sc :: rest) h m alive =
    reconcile_loop now rest (reconcile_step now sc h m alive).1.1
      (reconcile_step now sc h m alive).1.2
      (reconcile_step now sc h m alive).2.
Proof. simpl. by destruct (reconcile_step now sc h m alive) as [[??]?]. Qed.

Lemma reconcile_loop_app pre post h m alive :
  reconcile_loop now (pre ++ post) h m alive =
    reconcile_loop now post (reconcile_loop now pre h m alive).1.1
      (reconcile_loop now pre h m alive).1.2
      (reconcile_loop now pre h m alive).2.
Proof.
  revert h m alive. induction pre as [|sc pre IH]; intros h m alive.
  - reflexivity.
  - rewrite <-app_comm_cons, !reconcile_loop_cons. apply IH.
Qed.

Lemma reconcile_loop_alive scanned h m alive k :
  is_alive (reconcile_loop now scanned h m alive).2 k = true <->
  is_alive alive k = true \/ k ∈ Key <$> scanned.
Proof.
  revert h m alive. induction scanned as [|sc rest IH]; intros h m alive.
  - simpl. set_solver.
  - rewrite reconcile_loop_cons, IH, reconcile_step_alive, fmap_cons.
    unfold is_alive. destruct (decide (Key sc = k)) as [->|Hne].
    + rewrite lookup_insert_eq. set_solver.
    + rewrite lookup_insert_ne by done. set_solver.
Qed.

Lemma reconcile_loop_dom scanned h m alive :
  dom (reconcile_loop now scanned h m alive).1.2 =
    list_to_set (Key <$> scanned) ∪ dom m.
Proof.
  revert h m alive. induction scanned as [|sc rest IH]; intros h m alive.
  - simpl. set_solver.
  - rewrite reconcile_loop_cons, IH, reconcile_step_dom, fmap_cons. set_solver.
Qed.

Lemma reconcile_loop_wf scanned h m alive :
  wf_map h m ->
  wf_map (reconcile_loop now scanned h m alive).1.1
         (reconcile_loop now scanned h m alive).1.2.
Proof.
  revert h m alive. induction scanned as [|sc rest IH]; intros h m alive Hwf.
  - done.
  - rewrite reconcile_loop_cons. by apply IH, reconcile_step_wf.
Qed.

Lemma reconcile_loop_length scanned h m alive :
  (length h <= length (reconcile_loop now scanned h m alive).1.1)%nat.
Proof.
  revert h m alive. induction scanned as [|sc rest IH]; intros h m alive.
  - done.
  - rewrite reconcile_loop_cons. etrans; [|apply IH].
    apply reconcile_step_length.
Qed.

(** Iterations for other keys leave the entry and the record of [k]
    alone. *)
Lemma reconcile_loop_frame scanned h m alive k p :
  wf_map h m -> m !! k = Some p -> k ∉ Key <$> scanned ->
  (reconcile_loop now scanned h m alive).1.2 !! k = Some p /\
  (reconcile_loop now scanned h m alive).1.1 !! p = h !! p.
Proof.
  revert h m alive. induction scanned as [|sc rest IH]; intros h m alive Hwf Hk Hnot.
  - done.
  - rewrite fmap_cons in Hnot. apply not_elem_of_cons in Hnot as [Hne Hnot].
    rewrite reconcile_loop_cons.
    assert (Hk' : (reconcile_step now sc h m alive).1.2 !! k = Some p)
      by (by rewrite reconcile_step_other).
    destruct (IH _ _ (reconcile_step now sc h m alive).2
                (reconcile_step_wf sc h m alive Hwf) Hk' Hnot) as [-> ->].
    split; [done|]. by eapply reconcile_step_frame.
Qed.

Lemma reconcile_loop_absent scanned h m alive k :
  m !! k = None -> k ∉ Key <$> scanned ->
  (reconcile_loop now scanned h m alive).1.2 !! k = None.
Proof.
  intros Hk Hnot. apply not_elem_of_dom.
  rewrite reconcile_loop_dom. apply not_elem_of_dom in Hk. set_solver.
Qed.

End ReconcileLoop.

(** ** Eviction *)

Lemma remove_stale_fold alive ks (acc : gmap string nat) k :
  foldl (fun acc key => if is_alive alive key then acc else delete key acc)
        acc ks !! k =
  if is_alive alive k then acc !! k
  else if bool_decide (k ∈ ks) then None else acc !! k.
Proof.
  revert acc. induction ks as [|x ks IH]; intros acc; cbn [foldl].
  - destruct (is_alive alive k); [done|].
    by rewrite bool_decide_eq_false_2 by apply not_elem_of_nil.
  - rewrite IH. destruct (is_alive alive k) eqn:Hk.
    + destruct (is_alive alive x) eqn:Hx; [done|].
      rewrite lookup_delete_ne; [done|]. congruence.
    + destruct (decide (k ∈ ks)) as [Hin|Hnin].
      * rewrite !bool_decide_eq_true_2; [done| |done]. apply elem_of_cons; by right.
      * rewrite (bool_decide_eq_false_2 (k ∈ ks)) by done.
        destruct (decide (x = k)) as [->|Hne].
        -- rewrite Hk, lookup_delete_eq.
           rewrite bool_decide_eq_true_2; [done|]. apply elem_of_cons; by left.
        -- rewrite bool_decide_eq_false_2.
           ++ destruct (is_alive alive x); [done|]. by rewrite lookup_delete_ne.
           ++ intros [?|?]%elem_of_cons; congruence.
Qed.

(** After the second loop of [scan] the map holds the entries whose key is
    alive, and only them. *)
Lemma remove_stale_lookup alive (m : gmap string nat) k :
  remove_stale alive m !! k = if is_alive alive k then m !! k else None.
Proof.
  unfold remove_stale. rewrite remove_stale_fold.
  destruct (is_alive alive k); [done|].
  case_bool_decide as Hin; [done|].
  destruct (m !! k) as [p|] eqn:Hk; [|done].
  exfalso. apply Hin. apply list_elem_of_fmap. exists (k, p). split; [done|].
  by apply elem_of_map_to_list.
Qed.

(** ** A scan cycle *)

Lemma reconcile_eq now scanned w :
  reconcile now scanned w =
    let l := reconcile_loop now scanned (heap w) (connections (tracker w)) ∅ in
    {| heap := l.1.1;
       tracker := {| connections := remove_stale l.2 l.1.2;
                     interval := interval (tracker w);
                     pingEnabled := pingEnabled (tracker w) |};
       dialled := dialled w |}.
Proof.
  unfold reconcile.
  by destruct (reconcile_loop now scanned (heap w) (connections (tracker w)) ∅)
    as [[??]?].
Qed.

(** After the locked part of a cycle, the entry of a discovered key is the
    one the first loop left, and there is no other entry. *)
Lemma reconcile_lookup now scanned w k :
  connections (tracker (reconcile now scanned w)) !! k =
    if bool_decide (k ∈ Key <$> scanned)
    then (reconcile_loop now scanned (heap w) (connections (tracker w)) ∅).1.2
           !! k
    else None.
Proof.
  rewrite reconcile_eq. cbn. rewrite remove_stale_lookup.
  pose proof (reconcile_loop_alive now scanned (heap w)
                (connections (tracker w)) ∅ k) as Halive.
  destruct (is_alive _ k) eqn:Hk.
  - destruct Halive as [[Habs|Hin] _]; [done| |].
    + unfold is_alive in Habs. by rewrite lookup_empty in Habs.
    + by rewrite bool_decide_eq_true_2.
  - rewrite bool_decide_eq_false_2; [done|].
    intros Hin. destruct Halive as [_ Halive].
    specialize (Halive (or_intror Hin)). congruence.
Qed.

Lemma reconcile_heap now scanned w :
  heap (reconcile now scanned w) =
    (reconcile_loop now scanned (heap w) (connections (tracker w)) ∅).1.1.
Proof. by rewrite reconcile_eq. Qed.

Lemma reconcile_dom now scanned w :
  dom (connections (tracker (reconcile now scanned w))) =
    list_to_set (Key <$> scanned).
Proof.
  apply set_eq. intros k.
  rewrite elem_of_dom, reconcile_lookup, elem_of_list_to_set.
  case_bool_decide as Hin.
  - split; [done|]. intros _. apply elem_of_dom.
    rewrite reconcile_loop_dom. apply elem_of_union. left.
    by apply elem_of_list_to_set.
  - split; [|done]. by intros [? ?].
Qed.

Lemma probe_each_length dial targets h log :
  length (probe_each dial targets h log).1 = length h.
Proof.
  revert h log. induction targets as [|p rest IH]; intros h log; simpl.
  - done.
  - destruct (h !! p) as [conn|]; [|apply IH].
    destruct (MeasurePing dial (RemoteAddr conn) (RemotePort conn) log)
      as [[rtt loss] log'].
    rewrite IH. apply length_insert.
Qed.

Lemma pingAll_tracker dial w : tracker (pingAll dial w) = tracker w.
Proof.
  unfold pingAll.
  by destruct (probe_each dial _ (heap w) (dialled w)) as [h log].
Qed.

Lemma scan_tracker dial now scanned w :
  tracker (scan dial (Some scanned) now w) = tracker (reconcile now scanned w).
Proof.
  unfold scan. destruct (pingEnabled _); [apply pingAll_tracker|done].
Qed.

(** C2.  After a scan cycle whose discovery succeeded, the keys of the live
    map are exactly the keys of the discovered records: every key of the
    map was discovered, every discovered key is in the map, and a key that
    was in the map before the cycle and was not discovered is gone. *)
Theorem scan_keys_exact dial now scanned w :
  let w' := scan dial (Some scanned) now w in
  dom (connections (tracker w')) = list_to_set (Key <$> scanned) /\
  (forall k, is_Some (connections (tracker w') !! k) -> k ∈ Key <$> scanned) /\
  (forall k, k ∈ Key <$> scanned -> is_Some (connections (tracker w') !! k)) /\
  (forall k, is_Some (connections (tracker w) !! k) ->
             k ∉ Key <$> scanned -> connections (tracker w') !! k = None).
Proof.
  intros w'. subst w'. rewrite scan_tracker.
  pose proof (reconcile_dom now scanned w) as Hdom.
  split; [done|].
  split; [|split].
  - intros k Hk%elem_of_dom. rewrite Hdom in Hk.
    by apply elem_of_list_to_set in Hk.
  - intros k Hk. apply elem_of_dom. rewrite Hdom.
    by apply elem_of_list_to_set.
  - intros k _ Hk. apply not_elem_of_dom. rewrite Hdom.
    by rewrite elem_of_list_to_set.
Qed.

(** C3.  When the discovery fails the cycle changes nothing: the records in
    memory, the live map, the tracker's fields and the log of dialled
    targets are what they were, and [scan] has no result through which an
    error could reach its caller. *)
Theorem scan_discovery_failure dial now w :
  scan dial None now w = w.
Proof. reflexivity. Qed.

(** ** Rates *)

(** What the update branch computes when time has passed and the counter
    has not gone down. *)
Lemma update_existing_rate now sc c :
  GoTime.IsZero (prevTime c) = false ->
  Float64.ltb Float64.zero (GoTime.Seconds (GoTime.Sub now (prevTime c))) = true ->
  (prevTxBytes c <= TxBytes sc ->
   TxRate (update_existing now sc c) =
     Float64.div (Float64.of_Z (wrap_uint64 (TxBytes sc - prevTxBytes c)))
                 (GoTime.Seconds (GoTime.Sub now (prevTime c)))) /\
  (prevRxBytes c <= RxBytes sc ->
   RxRate (update_existing now sc c) =
     Float64.div (Float64.of_Z (wrap_uint64 (RxBytes sc - prevRxBytes c)))
                 (GoTime.Seconds (GoTime.Sub now (prevTime c)))).
Proof.
  intros Hz Hdt. unfold update_existing. cbn. rewrite Hz, Hdt. cbn.
  split; intros Hle; apply Z.leb_le in Hle; by rewrite Hle.
Qed.

(** The counters the update branch keeps as previous are the ones the
    record held on entry, not the scanned ones. *)
Lemma update_existing_previous now sc c :
  prevTxBytes (update_existing now sc c) = TxBytes c /\
  prevRxBytes (update_existing now sc c) = RxBytes c /\
  prevTime (update_existing now sc c) = now /\
  TxBytes (update_existing now sc c) = TxBytes sc /\
  RxBytes (update_existing now sc c) = RxBytes sc.
Proof. done. Qed.

(** A counter that went down leaves its rate alone. *)
Lemma update_existing_decrease now sc c :
  (TxBytes sc < prevTxBytes c ->
   TxRate (update_existing now sc c) = TxRate c) /\
  (RxBytes sc < prevRxBytes c ->
   RxRate (update_existing now sc c) = RxRate c).
Proof.
  unfold update_existing. cbn.
  split; intros Hlt; apply Z.leb_gt in Hlt; rewrite Hlt;
    by rewrite andb_false_r.
Qed.

(** A record already sampled at [now] keeps its rates and its first-seen
    time through another update of the same cycle. *)
Lemma update_existing_settled now sc c :
  prevTime c = now ->
  prevTime (update_existing now sc c) = now /\
  LastUpdated (update_existing now sc c) = now /\
  FirstSeen (update_existing now sc c) = FirstSeen c /\
  TxRate (update_existing now sc c) = TxRate c /\
  RxRate (update_existing now sc c) = RxRate c.
Proof.
  intros Hprev. unfold update_existing. cbn.
  rewrite Hprev, no_time_no_rate, andb_false_r. done.
Qed.

Lemma reconcile_loop_settled now scanned h m alive k p c :
  wf_map h m -> m !! k = Some p -> h !! p = Some c ->
  prevTime c = now -> LastUpdated c = now ->
  exists c',
    (reconcile_loop now scanned h m alive).1.2 !! k = Some p /\
    (reconcile_loop now scanned h m alive).1.1 !! p = Some c' /\
    settled now c c'.
Proof.
  revert h m alive c.
  induction scanned as [|sc rest IH]; intros h m alive c Hwf Hk Hp Hprev Hlast.
  - exists c. by repeat split.
  - rewrite reconcile_loop_cons.
    pose proof (reconcile_step_wf now sc h m alive Hwf) as Hwf'.
    destruct (decide (Key sc = k)) as [Heq|Hne].
    + subst k. rewrite (reconcile_step_existing now sc h m alive p c Hk Hp) in *.
      cbn [fst snd] in *.
      destruct (update_existing_settled now sc c Hprev) as (S1 & S2 & S3 & S4 & S5).
      destruct (IH (<[p := update_existing now sc c]> h) m
                  (<[Key sc := true]> alive) (update_existing now sc c))
        as (c' & Hk' & Hp' & T1 & T2 & T3 & T4 & T5); try done.
      { apply list_lookup_insert_eq. by eapply lookup_lt_Some. }
      exists c'. repeat split; try done; congruence.
    + apply (IH _ _ _ c); try done.
      * by rewrite reconcile_step_other.
      * by rewrite (reconcile_step_frame now sc h m alive k p).
Qed.

Lemma wf_new interval pingEnabled log :
  wf {| heap := []; tracker := NewTracker interval pingEnabled; dialled := log |}.
Proof. split; intros *; cbn; by rewrite lookup_empty. Qed.

Lemma remove_stale_wf alive h m : wf_map h m -> wf_map h (remove_stale alive m).
Proof.
  intros [Hlt Hinj]. split.
  - intros k p. rewrite remove_stale_lookup.
    destruct (is_alive alive k); [apply Hlt|done].
  - intros k1 k2 p. rewrite !remove_stale_lookup.
    destruct (is_alive alive k1), (is_alive alive k2); try done. apply Hinj.
Qed.

Lemma reconcile_wf now scanned w : wf w -> wf (reconcile now scanned w).
Proof.
  intros Hwf. unfold wf. rewrite reconcile_eq. cbn.
  by apply remove_stale_wf, reconcile_loop_wf.
Qed.

(** C4.  A record of the live map is re-observed by a cycle: [sc] is the
    first discovered record with its key.  If the transmit counter of [sc]
    is strictly below the stored previous transmit counter, the transmit
    rate after the reconciliation is the rate before it, and likewise for
    the receive side: the rate is neither recomputed nor reset. *)
Theorem rate_kept_on_counter_decrease now pre sc post w p c :
  wf w ->
  connections (tracker w) !! Key sc = Some p ->
  heap w !! p = Some c ->
  Key sc ∉ Key <$> pre ->
  exists c',
    connections (tracker (reconcile now (pre ++ sc :: post) w)) !! Key sc
      = Some p /\
    heap (reconcile now (pre ++ sc :: post) w) !! p = Some c' /\
    (TxBytes sc < prevTxBytes c -> TxRate c' = TxRate c) /\
    (RxBytes sc < prevRxBytes c -> RxRate c' = RxRate c).
Proof.
  intros Hwf Hk Hp Hpre.
  rewrite reconcile_lookup, reconcile_heap.
  rewrite bool_decide_eq_true_2
    by (rewrite fmap_app, fmap_cons; apply elem_of_app; right;
        apply elem_of_cons; by left).
  rewrite reconcile_loop_app, reconcile_loop_cons.
  destruct (reconcile_loop_frame now pre _ _ ∅ _ _ Hwf Hk Hpre) as [Hk1 Hp1].
  rewrite Hp in Hp1.
  pose proof (reconcile_loop_wf now pre _ _ ∅ Hwf) as Hwf1.
  set (l1 := reconcile_loop now pre (heap w) (connections (tracker w)) ∅) in *.
  rewrite (reconcile_step_existing now sc _ _ l1.2 p c Hk1 Hp1).
  cbn [fst snd].
  destruct (reconcile_loop_settled now post
              (<[p := update_existing now sc c]> l1.1.1) l1.1.2
              (<[Key sc := true]> l1.2) (Key sc) p (update_existing now sc c))
    as (c' & Hk2 & Hp2 & _ & _ & _ & Htx & Hrx); try done.
  { destruct Hwf1 as [Hlt Hinj]. split; [|done].
    intros k q Hq. rewrite length_insert. eauto. }
  { apply list_lookup_insert_eq. by eapply lookup_lt_Some. }
  exists c'. split; [done|]. split; [done|].
  destruct (update_existing_decrease now sc c) as [Dtx Drx].
  split; intros Hlt; [rewrite Htx; auto|rewrite Hrx; auto].
Qed.

(** C5.  A discovered record [sc] whose key is not in the live map is seen
    for the first time.  Right after the iteration that stores it, the
    stored record has first-seen and last-updated equal to the scan time,
    previous counters equal to its own counters and both rates zero,
    whatever its counters are.  At the end of the reconciliation the key
    still leads to that record, with the same timestamps and zero rates. *)
Theorem first_observation_zero_rate now pre sc post w :
  wf w ->
  discovered sc ->
  connections (tracker w) !! Key sc = None ->
  Key sc ∉ Key <$> pre ->
  (exists p c,
     let l := reconcile_loop now (pre ++ [sc]) (heap w)
                (connections (tracker w)) ∅ in
     l.1.2 !! Key sc = Some p /\ l.1.1 !! p = Some c /\
     FirstSeen c = now /\ LastUpdated c = now /\
     TxBytes c = TxBytes sc /\ RxBytes c = RxBytes sc /\
     prevTxBytes c = TxBytes sc /\ prevRxBytes c = RxBytes sc /\
     TxRate c = Float64.zero /\ RxRate c = Float64.zero) /\
  (exists p c,
     connections (tracker (reconcile now (pre ++ sc :: post) w)) !! Key sc
       = Some p /\
     heap (reconcile now (pre ++ sc :: post) w) !! p = Some c /\
     FirstSeen c = now /\ LastUpdated c = now /\
     TxRate c = Float64.zero /\ RxRate c = Float64.zero).
Proof.
  intros Hwf Hdisc Hk Hpre.
  pose proof (reconcile_loop_absent now pre (heap w) _ ∅ _ Hk Hpre) as Hk1.
  pose proof (reconcile_loop_wf now pre _ _ ∅ Hwf) as Hwf1.
  assert (Hrates : TxRate sc = Float64.zero /\ RxRate sc = Float64.zero)
    by (by destruct Hdisc).
  destruct Hrates as [Htx Hrx].
  set (l1 := reconcile_loop now pre (heap w) (connections (tracker w)) ∅) in *.
  assert (Hstep : reconcile_loop now (pre ++ [sc]) (heap w)
                    (connections (tracker w)) ∅ =
                  (l1.1.1 ++ [init_new now sc],
                   <[Key sc := length l1.1.1]> l1.1.2,
                   <[Key sc := true]> l1.2)).
  { rewrite reconcile_loop_app, reconcile_loop_cons. fold l1.
    by rewrite (reconcile_step_new now sc _ _ l1.2 Hk1). }
  assert (Hcell : (l1.1.1 ++ [init_new now sc]) !! length l1.1.1
                  = Some (init_new now sc)).
  { rewrite lookup_app_r by lia. by rewrite Nat.sub_diag. }
  split.
  - exists (length l1.1.1), (init_new now sc). cbn zeta. rewrite Hstep.
    cbn [fst snd]. rewrite lookup_insert_eq. by repeat split.
  - rewrite reconcile_lookup, reconcile_heap.
    rewrite bool_decide_eq_true_2
      by (rewrite fmap_app, fmap_cons; apply elem_of_app; right;
          apply elem_of_cons; by left).
    replace (pre ++ sc :: post) with ((pre ++ [sc]) ++ post)
      by (by rewrite <-app_assoc).
    rewrite reconcile_loop_app, Hstep. cbn [fst snd].
    destruct (reconcile_loop_settled now post
                (l1.1.1 ++ [init_new now sc])
                (<[Key sc := length l1.1.1]> l1.1.2)
                (<[Key sc := true]> l1.2) (Key sc) (length l1.1.1)
                (init_new now sc))
      as (c' & Hk2 & Hp2 & _ & Hlast & Hfirst & Htx' & Hrx'); try done.
    { pose proof (reconcile_step_wf now sc _ _ l1.2 Hwf1) as Hwf2.
      by rewrite (reconcile_step_new now sc _ _ l1.2 Hk1) in Hwf2. }
    { apply lookup_insert_eq. }
    exists (length l1.1.1), c'. repeat split; try done.
    + by rewrite Htx'.
    + by rewrite Hrx'.
Qed.

(** C1.  The rate of a cycle is computed from the stored previous counter,
    but the counter stored as previous by the update branch is the one the
    record held before the cycle, not the one just discovered.  On a
    connection that sends 1000 bytes per second: after the second cycle
    the record holds the counter 2000 and the previous counter 1000, and
    the third cycle, one second later with the counter at 3000, reports
    (3000 - 1000) / 1 s = 2000 bytes per second. *)
Theorem previous_counters_lag_one_cycle :
  connections (tracker Scenario.world2) !! Scenario.key = Some 0%nat /\
  (TxRate <$> heap Scenario.world2 !! 0%nat) = Some (Float64.of_Z 1000) /\
  (TxBytes <$> heap Scenario.world2 !! 0%nat) = Some 2000 /\
  (prevTxBytes <$> heap Scenario.world2 !! 0%nat) = Some 1000 /\
  (prevTime <$> heap Scenario.world2 !! 0%nat)
    = Some (Scenario.t0 + GoTime.Second) /\
  connections (tracker Scenario.world3) !! Scenario.key = Some 0%nat /\
  (TxBytes <$> heap Scenario.world3 !! 0%nat) = Some 3000 /\
  (TxRate <$> heap Scenario.world3 !! 0%nat) = Some (Float64.of_Z 2000).
Proof. repeat split; vm_compute; reflexivity. Qed.

(** ** The prober *)

Lemma dial_loop_log dial target rounds totalRTT successful log :
  (dial_loop dial target rounds totalRTT successful log).2
    = log ++ replicate rounds target.
Proof.
  revert totalRTT successful log.
  induction rounds as [|r IH]; intros totalRTT successful log; simpl.
  - by rewrite app_nil_r.
  - destruct (dial log target); rewrite IH, <-app_assoc; done.
Qed.

(** Any address other than the four of the guard is dialled three times. *)
Lemma MeasurePing_dials dial addr port log :
  skipped_addr addr = false ->
  (MeasurePing dial addr port log).2 =
    log ++ replicate 3 (JoinHostPort addr (itoa port)).
Proof.
  intros Hskip. unfold MeasurePing. rewrite Hskip.
  pose proof (dial_loop_log dial (JoinHostPort addr (itoa port))
                (Z.to_nat pingCount) 0 0 log) as Hlog.
  destruct (dial_loop _ _ _ _ _ _) as [[totalRTT successful] log'].
  simpl in Hlog. subst log'. by destruct (successful =? 0).
Qed.

(** C6, as the code has it.  When the address is one of the four strings
    0.0.0.0, [::], 127.0.0.1 and [::1], [MeasurePing] returns a zero
    round-trip time and a zero loss and dials nothing. *)
Theorem MeasurePing_skips_literal_addresses dial addr port log :
  addr ∈ ["0.0.0.0"; "::"; "127.0.0.1"; "::1"] ->
  MeasurePing dial addr port log = (0, Float64.zero, log).
Proof.
  intros Hin. unfold MeasurePing.
  assert (skipped_addr addr = true) as ->; [|done].
  repeat (apply elem_of_cons in Hin as [->|Hin]; [done|]).
  by apply elem_of_nil in Hin.
Qed.

Lemma MeasurePing_skips_literal_addresses_witness :
  "::1" ∈ ["0.0.0.0"; "::"; "127.0.0.1"; "::1"] /\
  MeasurePing Scenario.accepted "::1" 631 ["10.0.0.9:22"]
    = (0, Float64.zero, ["10.0.0.9:22"]).
Proof.
  assert (H : "::1" ∈ ["0.0.0.0"; "::"; "127.0.0.1"; "::1"])
    by (apply (bool_decide_unpack _); vm_compute; exact I).
  split; [exact H|].
  exact (MeasurePing_skips_literal_addresses Scenario.accepted "::1" 631
           ["10.0.0.9:22"] H).
Defined.

(** C6, as the specification words it, fails: 127.0.0.53 is a loopback
    address, and [MeasurePing] dials it three times; when the attempts
    fail it reports a loss of 100. *)
Lemma MeasurePing_dials_loopback_127_0_0_53 :
  AddressClass.loopback "127.0.0.53" = true /\
  MeasurePing Scenario.refused "127.0.0.53" 53 []
    = (0, Float64.of_Z 100,
       ["127.0.0.53:53"; "127.0.0.53:53"; "127.0.0.53:53"]) /\
  MeasurePing Scenario.refused "127.0.0.53" 53 [] ≠ (0, Float64.zero, []).
Proof. split; [|split]; [vm_compute; reflexivity..|]. by vm_compute. Qed.

(** ** Copies handed to readers *)

Lemma deref_cons h p ps :
  deref h (p :: ps) =
    match h !! p with
    | Some c => c :: deref h ps
    | None => deref h ps
    end.
Proof. reflexivity. Qed.

Lemma deref_ext h h' ps :
  Forall (fun p => h' !! p = h !! p) ps -> deref h' ps = deref h ps.
Proof.
  induction 1 as [|p ps Hp _ IH]; [done|].
  by rewrite !deref_cons, Hp, IH.
Qed.

Lemma deref_app_l h h' ps :
  Forall (fun p => (p < length h)%nat) ps -> deref (h ++ h') ps = deref h ps.
Proof.
  intros Hps. apply deref_ext.
  eapply Forall_impl; [exact Hps|]. intros p Hp. by apply lookup_app_l.
Qed.

Lemma deref_fresh h cs :
  deref (h ++ cs) (seq (length h) (length cs)) = cs.
Proof.
  revert h. induction cs as [|c cs IH]; intros h; [done|].
  cbn [length seq]. rewrite deref_cons.
  rewrite lookup_app_r by lia. rewrite Nat.sub_diag. cbn [lookup list_lookup].
  f_equal. specialize (IH (h ++ [c])).
  rewrite <-app_assoc, length_app in IH. cbn in IH.
  by rewrite Nat.add_1_r in IH.
Qed.

(** The loop of [Snapshot] and [Search] appends one copy per accepted
    record and returns the addresses of the copies. *)
Lemma copy_records_spec keep ps h result :
  Forall (fun p => (p < length h)%nat) ps ->
  copy_records keep ps h result =
    (result ++ seq (length h) (length (List.filter keep (deref h ps))),
     h ++ List.filter keep (deref h ps)).
Proof.
  revert h result. induction ps as [|p ps IH]; intros h result Hps.
  - cbn. by rewrite !app_nil_r.
  - apply Forall_cons in Hps as [Hp Hps].
    cbn [copy_records]. rewrite deref_cons.
    destruct (h !! p) as [c|] eqn:Hc; [|by apply IH].
    cbn [List.filter]. destruct (keep c); [|by apply IH].
    rewrite IH.
    + rewrite (deref_app_l h [c] ps Hps), length_app. cbn [length seq].
      rewrite Nat.add_1_r, <-!app_assoc. done.
    + eapply Forall_impl; [exact Hps|]. intros q Hq. cbn beta in *.
      rewrite length_app. cbn [length]. lia.
Qed.

Lemma filter_all {A} (l : list A) : List.filter (fun _ => true) l = l.
Proof. induction l as [|x l IH]; [done|]. cbn. by rewrite IH. Qed.

Lemma wf_live_allocated w :
  wf w ->
  Forall (fun p => (p < length (heap w))%nat)
         ((map_to_list (connections (tracker w))).*2).
Proof.
  intros [Hlt _]. apply Forall_forall. intros p Hp.
  apply list_elem_of_fmap in Hp as ([k q] & -> & Hkq).
  apply elem_of_map_to_list in Hkq. by eapply Hlt.
Qed.

Lemma Snapshot_eq w :
  wf w ->
  Snapshot w =
    (seq (length (heap w)) (length (live_records w)),
     {| heap := heap w ++ live_records w; tracker := tracker w;
        dialled := dialled w |}).
Proof.
  intros Hwf. unfold Snapshot.
  rewrite (copy_records_spec _ _ _ [] (wf_live_allocated w Hwf)).
  fold (live_records w). by rewrite filter_all.
Qed.

Lemma Search_eq lower query w :
  wf w -> query ≠ "" ->
  Search lower query w =
    (seq (length (heap w))
         (length (List.filter (matches lower (GoStrings.ToLower lower query))
                              (live_records w))),
     {| heap := heap w ++
                List.filter (matches lower (GoStrings.ToLower lower query))
                            (live_records w);
        tracker := tracker w; dialled := dialled w |}).
Proof.
  intros Hwf Hq. unfold Search.
  destruct (String.eqb_spec query ""); [done|].
  by rewrite (copy_records_spec _ _ _ [] (wf_live_allocated w Hwf)).
Qed.

(** Copies are appended: what the live map points to is not touched. *)
Lemma live_records_app w cs log :
  wf w ->
  live_records {| heap := heap w ++ cs; tracker := tracker w; dialled := log |}
    = live_records w.
Proof.
  intros Hwf. unfold live_records. cbn [heap tracker].
  by apply deref_app_l, wf_live_allocated.
Qed.

Lemma Chrome_matches lower :
  forall c, AppName c = "Chrome" ->
    matches lower (GoStrings.ToLower lower "chrome") c = true /\
    matches lower (GoStrings.ToLower lower "CHR") c = true.
Proof. intros c Hc. unfold matches. rewrite Hc. by split. Qed.

(** C7.  [Search] with the empty query is [Snapshot].  With another query
    it returns, at addresses that were not allocated before, copies of the
    live records whose [AppName], lowered, contains the lowered query, and
    of no other record; the test reads no other field.  It changes neither
    the tracker nor the live records.  A live record named "Chrome" is
    among the records returned for "chrome" and for "CHR". *)
Theorem search_by_application_name lower query w :
  wf w ->
  Search lower "" w = Snapshot w /\
  (query ≠ "" ->
   deref (heap (Search lower query w).2) (Search lower query w).1
     = List.filter
         (fun c => GoStrings.Contains
                     (GoStrings.ToLower lower (AppName c))
                     (GoStrings.ToLower lower query))
         (live_records w) /\
   Forall (fun p => (length (heap w) <= p)%nat) (Search lower query w).1 /\
   tracker (Search lower query w).2 = tracker w /\
   live_records (Search lower query w).2 = live_records w) /\
  (forall c, c ∈ live_records w -> AppName c = "Chrome" ->
     c ∈ deref (heap (Search lower "chrome" w).2) (Search lower "chrome" w).1 /\
     c ∈ deref (heap (Search lower "CHR" w).2) (Search lower "CHR" w).1).
Proof.
  intros Hwf. split; [done|]. split.
  - intros Hq. rewrite (Search_eq lower query w Hwf Hq).
    cbn [fst snd heap tracker].
    split; [apply deref_fresh|]. split; [|split].
    + apply Forall_forall. intros p Hp%list_elem_of_In%in_seq. lia.
    + done.
    + by apply live_records_app.
  - intros c Hc Hname.
    destruct (Chrome_matches lower c Hname) as [H1 H2].
    rewrite !Search_eq by done. cbn [fst snd heap]. rewrite !deref_fresh.
    split; apply list_elem_of_In, filter_In; split; try done;
      by apply list_elem_of_In.
Qed.

Lemma deref_length h ps :
  Forall (fun p => (p < length h)%nat) ps -> length (deref h ps) = length ps.
Proof.
  induction 1 as [|p ps Hp _ IH]; [done|].
  rewrite deref_cons. destruct (lookup_lt_is_Some_2 h p Hp) as [c ->].
  cbn [length]. by rewrite IH.
Qed.

Lemma deref_elem h ps p c :
  p ∈ ps -> h !! p = Some c -> c ∈ deref h ps.
Proof.
  intros Hin Hc. induction ps as [|q ps IH]; [by apply elem_of_nil in Hin|].
  rewrite deref_cons. apply elem_of_cons in Hin as [<-|Hin].
  - rewrite Hc. apply elem_of_cons. by left.
  - destruct (h !! q); [apply elem_of_cons; right|]; by apply IH.
Qed.

(** C8.  [Snapshot] returns a copy of every record of the live map, and of
    nothing else, at addresses of their own: the records behind the
    returned addresses are the live records, one address per key, and no
    returned address is in memory before the call or in the live map.
    Whatever a reader writes into the records it was handed ([h2] is the
    memory after any such writes: it differs from the memory [Snapshot]
    left only at the returned addresses), every record of the live map is
    what it was, and a later [Snapshot] returns the records it would have
    returned without those writes, which are the records of the first
    one. *)
Theorem snapshot_isolation w h2 :
  wf w ->
  length h2 = length (heap (Snapshot w).2) ->
  (forall p, p ∉ (Snapshot w).1 -> h2 !! p = heap (Snapshot w).2 !! p) ->
  let w2 := {| heap := h2; tracker := tracker (Snapshot w).2;
               dialled := dialled (Snapshot w).2 |} in
  deref (heap (Snapshot w).2) (Snapshot w).1 = live_records w /\
  length (Snapshot w).1 = size (connections (tracker w)) /\
  (forall k p c, connections (tracker w) !! k = Some p ->
                 heap w !! p = Some c ->
                 c ∈ deref (heap (Snapshot w).2) (Snapshot w).1) /\
  NoDup (Snapshot w).1 /\
  (forall p, p ∈ (Snapshot w).1 ->
     (length (heap w) <= p)%nat /\
     forall k, connections (tracker w) !! k ≠ Some p) /\
  (forall k p, connections (tracker w) !! k = Some p ->
               heap w2 !! p = heap w !! p) /\
  tracker w2 = tracker w /\
  deref (heap (Snapshot w2).2) (Snapshot w2).1
    = deref (heap (Snapshot (Snapshot w).2).2) (Snapshot (Snapshot w).2).1 /\
  deref (heap (Snapshot w2).2) (Snapshot w2).1
    = deref (heap (Snapshot w).2) (Snapshot w).1.
Proof.
  intros Hwf. rewrite (Snapshot_eq w Hwf). cbn [fst snd heap tracker dialled].
  intros Hlen Hsame.
  set (w2 := {| heap := h2; tracker := tracker w; dialled := dialled w |}).
  assert (Hlive : forall k p, connections (tracker w) !! k = Some p ->
                              h2 !! p = heap w !! p).
  { intros k p Hp. destruct Hwf as [Hlt _]. apply Hlt in Hp.
    rewrite Hsame.
    - by apply lookup_app_l.
    - intros Hin%list_elem_of_In%in_seq. lia. }
  assert (Hwf1 : wf {| heap := heap w ++ live_records w; tracker := tracker w;
                       dialled := dialled w |}).
  { destruct Hwf as [Hlt Hinj]. split; [|done]. cbn. intros k p Hp%Hlt.
    rewrite length_app. lia. }
  assert (Hwf2 : wf w2).
  { destruct Hwf1 as [Hlt Hinj]. split; [|done]. cbn in *. intros k p Hp%Hlt.
    by rewrite Hlen. }
  assert (Hrec2 : live_records w2 = live_records w).
  { apply deref_ext, Forall_forall. intros p Hp.
    apply list_elem_of_fmap in Hp as ([k q] & -> & Hkq).
    apply elem_of_map_to_list in Hkq. by eapply Hlive. }
  assert (Hcount : length (live_records w) = size (connections (tracker w))).
  { unfold live_records.
    rewrite deref_length by (by apply wf_live_allocated).
    by rewrite length_fmap, length_map_to_list. }
  split; [apply deref_fresh|].
  split; [by rewrite length_seq|].
  split.
  { intros k p c Hk Hc. rewrite deref_fresh. unfold live_records.
    apply (deref_elem _ _ p); [|done].
    apply list_elem_of_fmap. exists (k, p). split; [done|].
    by apply elem_of_map_to_list. }
  split; [apply NoDup_seq|].
  split.
  { intros p Hp%list_elem_of_In%in_seq. split; [lia|].
    intros k Hk. destruct Hwf as [Hlt _]. apply Hlt in Hk. lia. }
  split; [done|]. split; [done|].
  rewrite (Snapshot_eq w2 Hwf2), (Snapshot_eq _ Hwf1).
  cbn [fst snd heap tracker dialled].
  rewrite Hrec2, (live_records_app w _ _ Hwf), !deref_fresh. done.
Qed.

(** ** The probe pass *)

Section ProbePassInvariant.

Import ProbePass.

Lemma count_nil f : count f [] = 0%nat.
Proof. reflexivity. Qed.

Lemma count_cons f w ws :
  count f (w :: ws) = ((if f w.2 then 1 else 0) + count f ws)%nat.
Proof. unfold count. cbn [List.filter]. by destruct (f w.2). Qed.

Lemma count_snoc f ws w :
  count f (ws ++ [w]) = (count f ws + (if f w.2 then 1 else 0))%nat.
Proof.
  induction ws as [|x ws IH].
  - cbn [app]. rewrite count_cons, !count_nil. lia.
  - rewrite <-app_comm_cons, !count_cons, IH. lia.
Qed.

(** Moving one goroutine to another phase moves one unit of the count. *)
Lemma count_move f ws i c ph ph' :
  ws !! i = Some (c, ph) ->
  (count f (<[i := (c, ph')]> ws) + (if f ph then 1 else 0) =
   count f ws + (if f ph' then 1 else 0))%nat.
Proof.
  revert i. induction ws as [|w ws IH]; intros i Hi; [done|].
  destruct i as [|i]; cbn in Hi.
  - injection Hi as ->. cbn [insert list_insert]. rewrite !count_cons.
    cbn [snd]. lia.
  - cbn [insert list_insert]. rewrite !count_cons.
    specialize (IH i Hi). rewrite <-!Nat.add_assoc. f_equal. exact IH.
Qed.

Lemma count_le f g ws :
  (forall ph, f ph = true -> g ph = true) -> (count f ws <= count g ws)%nat.
Proof.
  intros Hfg. induction ws as [|w ws IH]; [done|].
  rewrite !count_cons. specialize (Hfg w.2).
  destruct (f w.2), (g w.2); [lia| |lia|lia]. discriminate (Hfg eq_refl).
Qed.

Lemma count_pending_zero ws :
  count pending ws = 0%nat -> Forall (fun w => w.2 = Exited) ws.
Proof.
  induction ws as [|w ws IH]; [done|].
  rewrite count_cons. intros Hc. constructor.
  - destruct w.2; cbn in Hc; try lia. done.
  - apply IH. lia.
Qed.

Lemma workers_move (ws : list (nat * phase)) i c ph ph' :
  ws !! i = Some (c, ph) -> (<[i := (c, ph')]> ws).*1 = ws.*1.
Proof.
  intros Hi. rewrite list_fmap_insert. apply list_insert_id.
  by rewrite list_lookup_fmap, Hi.
Qed.

(** Closes the conjuncts of [invariant] once the step is known. *)
Ltac close_invariant :=
  repeat split;
  first
    [ done
    | lia
    | by intros [?|?]
    | by rewrite <-app_assoc
    | match goal with
      | Hret : _ = Returned -> _ |- _ = Returned -> _ =>
          let Hp := fresh in intros Hp; specialize (Hret Hp); lia
      end
    | match goal with
      | Htodo : _ \/ _ -> _ |- _ => intros _; apply Htodo; by left
      end
    | intros _; lia ].

Lemma invariant_start targets h : invariant targets (start targets h).
Proof.
  repeat split; cbn; try done.
  - unfold semCap. lia.
  - by intros [?|?].
Qed.

Lemma invariant_step targets s s' :
  invariant targets s -> step s s' -> invariant targets s'.
Proof.
  intros (Hsem & Hcap & Hwg & Htargets & Htodo & Hret) Hstep.
  destruct Hstep as
    [s c rest Hpc Hrest | s Hpc Hrest | s c Hpc Hroom | s c Hpc | s Hpc Hzero
    | s i c rtt loss Hi | s i c rtt loss conn Hi Hconn
    | s i c Hi Hpos | s i c Hi];
    unfold invariant; cbn [pc todo sem wg workers mem].
  - rewrite Hpc, Hrest in *. cbn in *. close_invariant.
  - rewrite Hpc, Hrest in *. cbn in *. close_invariant.
  - rewrite Hpc in *. cbn in *. unfold semCap in *. close_invariant.
  - rewrite Hpc in *. cbn in *.
    rewrite !count_snoc, fmap_app. cbn. close_invariant.
  - rewrite Hpc in *. cbn in *. close_invariant.
  - pose proof (count_move holds_slot _ i c Probing (Writing rtt loss) Hi).
    pose proof (count_move pending _ i c Probing (Writing rtt loss) Hi).
    rewrite (workers_move _ i c Probing _ Hi). cbn in *. close_invariant.
  - pose proof (count_move holds_slot _ i c (Writing rtt loss) Releasing Hi).
    pose proof (count_move pending _ i c (Writing rtt loss) Releasing Hi).
    rewrite (workers_move _ i c (Writing rtt loss) _ Hi). cbn in *.
    close_invariant.
  - pose proof (count_move holds_slot _ i c Releasing Finishing Hi).
    pose proof (count_move pending _ i c Releasing Finishing Hi).
    rewrite (workers_move _ i c Releasing _ Hi). cbn in *. close_invariant.
  - pose proof (count_move holds_slot _ i c Finishing Exited Hi).
    pose proof (count_move pending _ i c Finishing Exited Hi).
    rewrite (workers_move _ i c Finishing _ Hi). cbn in *. close_invariant.
Qed.

Lemma reachable_invariant targets h s :
  reachable targets h s -> invariant targets s.
Proof.
  induction 1 as [|s s' _ IH Hstep].
  - apply invariant_start.
  - by eapply invariant_step.
Qed.

End ProbePassInvariant.

(** C9.  In every state a probe pass goes through, whatever the number of
    targets and the scheduling of the goroutines, at most 20 probes are in
    flight; and when [pingAll] has returned, a goroutine was started for
    every target, in order, and every one of them has finished. *)
Theorem probe_pass_bounded targets h s :
  ProbePass.reachable targets h s ->
  (ProbePass.in_flight s <= 20)%nat /\
  (ProbePass.pc s = ProbePass.Returned ->
   ProbePass.todo s = [] /\
   (ProbePass.workers s).*1 = targets /\
   Forall (fun w => w.2 = ProbePass.Exited) (ProbePass.workers s)).
Proof.
  intros Hreach.
  destruct (reachable_invariant targets h s Hreach)
    as (Hsem & Hcap & Hwg & Htargets & Htodo & Hret).
  split.
  - unfold ProbePass.in_flight.
    pose proof (count_le ProbePass.probing ProbePass.holds_slot
                  (ProbePass.workers s)) as Hle.
    unfold ProbePass.semCap in Hcap.
    etrans; [apply Hle|lia]. by intros [].
  - intros Hpc. specialize (Htodo (or_intror Hpc)). specialize (Hret Hpc).
    rewrite Hpc, Htodo in Htargets. cbn in Htargets.
    rewrite !app_nil_r in Htargets.
    split; [done|]. split; [done|]. by apply count_pending_zero.
Qed.

(** The bound is reached: with more than 20 targets, the dispatching loop
    can start 20 goroutines without any of them finishing, and then stands
    before [sem <- struct{}{}] with the channel full. *)
Lemma dispatch_reachable targets h k :
  (k <= 20)%nat -> (k <= length targets)%nat ->
  ProbePass.reachable targets h
    {| ProbePass.pc := ProbePass.AtLoop;
       ProbePass.todo := drop k targets;
       ProbePass.sem := k;
       ProbePass.wg := Z.of_nat k;
       ProbePass.workers := (fun c => (c, ProbePass.Probing)) <$> take k targets;
       ProbePass.mem := h |}.
Proof.
  induction k as [|k IH]; intros Hk Hlen.
  - rewrite drop_0, take_0. apply ProbePass.reachable_start.
  - destruct (lookup_lt_is_Some_2 targets k) as [c Hc]; [lia|].
    specialize (IH ltac:(lia) ltac:(lia)).
    set (ws := (fun c => (c, ProbePass.Probing)) <$> take k targets) in *.
    set (s0 := ProbePass.mkPass ProbePass.AtLoop (drop k targets) k
                 (Z.of_nat k) ws h) in *.
    pose (s1 := ProbePass.mkPass (ProbePass.AtSend c) (drop (S k) targets) k
                  (Z.of_nat k + 1) ws h).
    pose (s2 := ProbePass.mkPass (ProbePass.AtGo c) (drop (S k) targets) (S k)
                  (Z.of_nat k + 1) ws h).
    replace (Z.of_nat (S k)) with (Z.of_nat k + 1) by lia.
    rewrite (take_S_r _ _ c Hc), fmap_app.
    apply (ProbePass.reachable_step _ _ s2);
      [|by apply (ProbePass.step_go s2 c)].
    apply (ProbePass.reachable_step _ _ s1);
      [|apply (ProbePass.step_send s1 c);
        [done|cbn; unfold ProbePass.semCap; lia]].
    apply (ProbePass.reachable_step _ _ s0); [exact IH|].
    apply (ProbePass.step_add s0 c (drop (S k) targets)); [done|].
    cbn. by apply drop_S.
Qed.

Lemma count_probing_started (cs : list nat) :
  ProbePass.count ProbePass.probing
    ((fun c => (c, ProbePass.Probing)) <$> cs) = length cs.
Proof.
  induction cs as [|c cs IH]; [done|].
  rewrite fmap_cons, count_cons, IH. done.
Qed.

Lemma twenty_in_flight targets h :
  (20 < length targets)%nat ->
  exists s c,
    ProbePass.reachable targets h s /\
    ProbePass.in_flight s = 20%nat /\
    ProbePass.pc s = ProbePass.AtSend c /\
    ProbePass.sem s = ProbePass.semCap.
Proof.
  intros Hlen.
  destruct (lookup_lt_is_Some_2 targets 20) as [c Hc]; [lia|].
  pose proof (dispatch_reachable targets h 20 ltac:(lia) ltac:(lia)) as Hreach.
  set (s0 := ProbePass.mkPass ProbePass.AtLoop (drop 20 targets) 20
               (Z.of_nat 20)
               ((fun c => (c, ProbePass.Probing)) <$> take 20 targets) h) in *.
  exists (ProbePass.mkPass (ProbePass.AtSend c) (drop 21 targets) 20
            (Z.of_nat 20 + 1)
            ((fun c => (c, ProbePass.Probing)) <$> take 20 targets) h), c.
  split; [|split; [|done]].
  - apply (ProbePass.reachable_step _ _ s0); [exact Hreach|].
    apply (ProbePass.step_add s0 c (drop 21 targets)); [done|].
    cbn. by apply drop_S.
  - unfold ProbePass.in_flight. cbn [ProbePass.workers].
    rewrite count_probing_started, length_take. lia.
Qed.

Lemma pass_end_reachable :
  ProbePass.reachable [0%nat] [Scenario.record1] Scenario.pass_end.
Proof.
  pose (h := [Scenario.record1]).
  pose (loss := Float64.of_Z 100).
  pose (s0 := ProbePass.start [0%nat] h).
  pose (s1 := ProbePass.mkPass (ProbePass.AtSend 0) [] 0 1 [] h).
  pose (s2 := ProbePass.mkPass (ProbePass.AtGo 0) [] 1 1 [] h).
  pose (s3 := ProbePass.mkPass ProbePass.AtLoop [] 1 1
                [(0%nat, ProbePass.Probing)] h).
  pose (s4 := ProbePass.mkPass ProbePass.AtWait [] 1 1
                [(0%nat, ProbePass.Probing)] h).
  pose (s5 := ProbePass.mkPass ProbePass.AtWait [] 1 1
                [(0%nat, ProbePass.Writing 0 loss)] h).
  pose (s6 := ProbePass.mkPass ProbePass.AtWait [] 1 1
                [(0%nat, ProbePass.Releasing)]
                [write_back 0 loss Scenario.record1]).
  pose (s7 := ProbePass.mkPass ProbePass.AtWait [] 0 1
                [(0%nat, ProbePass.Finishing)]
                [write_back 0 loss Scenario.record1]).
  pose (s8 := ProbePass.mkPass ProbePass.AtWait [] 0 0
                [(0%nat, ProbePass.Exited)]
                [write_back 0 loss Scenario.record1]).
  apply (ProbePass.reachable_step _ _ s8); [|by apply (ProbePass.step_wait s8)].
  apply (ProbePass.reachable_step _ _ s7);
    [|by apply (ProbePass.step_done s7 0%nat 0%nat)].
  apply (ProbePass.reachable_step _ _ s6);
    [|apply (ProbePass.step_release s6 0%nat 0%nat); cbn; [done|lia]].
  apply (ProbePass.reachable_step _ _ s5);
    [|by apply (ProbePass.step_written s5 0%nat 0%nat 0 loss Scenario.record1)].
  apply (ProbePass.reachable_step _ _ s4);
    [|by apply (ProbePass.step_probed s4 0%nat 0%nat 0 loss)].
  apply (ProbePass.reachable_step _ _ s3);
    [|by apply (ProbePass.step_range_over s3)].
  apply (ProbePass.reachable_step _ _ s2);
    [|by apply (ProbePass.step_go s2 0%nat)].
  apply (ProbePass.reachable_step _ _ s1);
    [|apply (ProbePass.step_send s1 0%nat); cbn; [done|unfold ProbePass.semCap; lia]].
  apply (ProbePass.reachable_step _ _ s0);
    [|by apply (ProbePass.step_add s0 0%nat [])].
  apply ProbePass.reachable_start.
Qed.

Lemma probe_pass_bounded_witness :
  ProbePass.reachable [0%nat] [Scenario.record1] Scenario.pass_end /\
  (ProbePass.in_flight Scenario.pass_end <= 20)%nat /\
  (ProbePass.pc Scenario.pass_end = ProbePass.Returned ->
   ProbePass.todo Scenario.pass_end = [] /\
   (ProbePass.workers Scenario.pass_end).*1 = [0%nat] /\
   Forall (fun w => w.2 = ProbePass.Exited)
          (ProbePass.workers Scenario.pass_end)).
Proof.
  split; [exact pass_end_reachable|].
  exact (probe_pass_bounded [0%nat] [Scenario.record1] Scenario.pass_end
           pass_end_reachable).
Defined.

(** ** Probe counters *)

Lemma discovered_counts sc :
  discovered sc -> PingCount sc = 0 /\ PingFailed sc = 0.
Proof. by intros []. Qed.

(** One write-back adds one attempt, and one failure when the loss is at
    least 100, as long as the counters are below the largest [int]. *)
Lemma write_back_counts rtt loss c :
  0 <= PingFailed c -> PingFailed c <= PingCount c -> PingCount c < int_max ->
  PingCount (write_back rtt loss c) = PingCount c + 1 /\
  PingFailed (write_back rtt loss c) =
    PingFailed c + (if Float64.leb (Float64.of_Z 100) loss then 1 else 0).
Proof.
  unfold int_max. intros H0 Hle Hmax. unfold write_back. cbn.
  split.
  - apply wrap_int_id. unfold int_min, int_max. lia.
  - destruct (Float64.leb _ loss); [|lia].
    apply wrap_int_id. unfold int_min, int_max. lia.
Qed.

Lemma counted_mono n n' c : n <= n' -> counted n c -> counted n' c.
Proof. unfold counted. lia. Qed.

Lemma reconcile_loop_Forall (P : Connection -> Prop) now scanned h m alive :
  (forall sc c, P c -> P (update_existing now sc c)) ->
  Forall (fun sc => P (init_new now sc)) scanned ->
  Forall P h ->
  Forall P (reconcile_loop now scanned h m alive).1.1.
Proof.
  intros Hupd Hnew. revert h m alive.
  induction Hnew as [|sc rest Hsc _ IH]; intros h m alive Hh; [done|].
  rewrite reconcile_loop_cons. apply IH.
  unfold reconcile_step.
  destruct (m !! Key sc) as [p|]; [destruct (h !! p) as [c|] eqn:Hp|]; cbn.
  - apply Forall_insert; [done|]. apply Hupd.
    by eapply Forall_lookup_1.
  - done.
  - apply Forall_app. split; [done|]. by constructor.
Qed.

Lemma copy_records_Forall (P : Connection -> Prop) keep ps h result :
  Forall P h -> Forall P (copy_records keep ps h result).2.
Proof.
  revert h result. induction ps as [|p ps IH]; intros h result Hh; [done|].
  cbn [copy_records]. destruct (h !! p) as [c|] eqn:Hp; [|by apply IH].
  destruct (keep c); [|by apply IH].
  apply IH, Forall_app. split; [done|]. constructor; [|done].
  by eapply Forall_lookup_1.
Qed.

Lemma Snapshot_Forall (P : Connection -> Prop) w :
  Forall P (heap w) -> Forall P (heap (Snapshot w).2).
Proof.
  intros Hh. unfold Snapshot.
  pose proof (copy_records_Forall P (fun _ => true)
                (map_to_list (connections (tracker w))).*2 (heap w) [] Hh).
  by destruct (copy_records _ _ _ _).
Qed.

Lemma Search_Forall (P : Connection -> Prop) lower query w :
  Forall P (heap w) -> Forall P (heap (Search lower query w).2).
Proof.
  intros Hh. unfold Search.
  destruct (String.eqb query ""); [by apply Snapshot_Forall|].
  pose proof (copy_records_Forall P
                (matches lower (GoStrings.ToLower lower query))
                (map_to_list (connections (tracker w))).*2 (heap w) [] Hh).
  by destruct (copy_records _ _ _ _).
Qed.

Lemma engine_step_counted n w w' :
  Z.of_nat n < int_max ->
  engine_step w w' ->
  Forall (counted (Z.of_nat n)) (heap w) ->
  Forall (counted (Z.of_nat (S n))) (heap w').
Proof.
  intros Hn Hstep Hh.
  assert (Hh' : Forall (counted (Z.of_nat (S n))) (heap w)).
  { eapply Forall_impl; [exact Hh|]. intros c. apply counted_mono. lia. }
  destruct Hstep as [now scanned w Hdisc|p rtt loss conn log w Hp|w|lower query w].
  - rewrite reconcile_heap. apply reconcile_loop_Forall; [done| |done].
    eapply Forall_impl; [exact Hdisc|]. intros sc [Hc Hf]%discovered_counts.
    unfold counted. cbn. rewrite Hc, Hf. lia.
  - cbn. apply Forall_insert; [done|].
    destruct (Forall_lookup_1 _ _ _ _ Hh Hp) as (H0 & Hle & Hmax).
    destruct (write_back_counts rtt loss conn) as [Hc Hf]; [lia..|].
    unfold counted. rewrite Hc, Hf.
    destruct (Float64.leb _ loss); lia.
  - by apply Snapshot_Forall.
  - by apply Search_Forall.
Qed.

Lemma engine_run_counted n w :
  engine_run n w -> Z.of_nat n <= int_max ->
  Forall (counted (Z.of_nat n)) (heap w).
Proof.
  induction 1 as [|n w w' _ IH Hstep]; intros Hn; [by constructor|].
  eapply engine_step_counted; [lia|done|]. apply IH. lia.
Qed.

(** C10.  In a world the engine reaches in [n] atomic actions from
    [NewTracker], with [n] below the largest [int], every record in
    memory has a failure count between 0 and its attempt count.  A record
    enters the engine with both counts at 0; a write-back to a record in
    memory adds exactly one attempt, and adds one failure when the loss is
    at least 100 and none otherwise. *)
Theorem probe_failures_bounded_by_attempts n w :
  engine_run n w ->
  Z.of_nat n < int_max ->
  (forall p c, heap w !! p = Some c ->
     0 <= PingFailed c /\ PingFailed c <= PingCount c) /\
  (forall now sc, discovered sc ->
     PingCount (init_new now sc) = 0 /\ PingFailed (init_new now sc) = 0) /\
  (forall p c rtt loss, heap w !! p = Some c ->
     PingCount (write_back rtt loss c) = PingCount c + 1 /\
     PingFailed (write_back rtt loss c) =
       PingFailed c + (if Float64.leb (Float64.of_Z 100) loss then 1 else 0)).
Proof.
  intros Hrun Hn.
  pose proof (engine_run_counted n w Hrun ltac:(lia)) as Hall.
  split; [|split].
  - intros p c Hp. destruct (Forall_lookup_1 _ _ _ _ Hall Hp) as (?&?&?).
    done.
  - intros now sc Hsc. cbn. by apply discovered_counts.
  - intros p c rtt loss Hp.
    destruct (Forall_lookup_1 _ _ _ _ Hall Hp) as (?&?&?).
    apply write_back_counts; lia.
Qed.

(** ** Worlds the engine is in *)

Lemma pingAll_wf dial w : wf w -> wf (pingAll dial w).
Proof.
  intros [Hlt Hinj]. unfold wf, pingAll.
  pose proof (probe_each_length dial
                (collect_targets (heap w) (connections (tracker w)))
                (heap w) (dialled w)) as Hlen.
  destruct (probe_each _ _ _ _) as [h log]. cbn in *.
  split; [|done]. intros k p Hp%Hlt. by rewrite Hlen.
Qed.

Lemma scan_wf dial scanned now w : wf w -> wf (scan dial scanned now w).
Proof.
  intros Hwf. destruct scanned as [scanned|]; [|done]. cbn.
  destruct (pingEnabled _); [apply pingAll_wf|]; by apply reconcile_wf.
Qed.

Lemma Scenario_wf :
  wf Scenario.world0 /\ wf Scenario.world1 /\ wf Scenario.world2 /\
  wf Scenario.world3.
Proof.
  assert (H0 : wf Scenario.world0) by apply wf_new.
  assert (H1 : wf Scenario.world1) by by apply scan_wf.
  assert (H2 : wf Scenario.world2) by by apply scan_wf.
  assert (H3 : wf Scenario.world3) by by apply scan_wf.
  done.
Qed.

Lemma copy_records_length keep ps h result :
  (length h <= length (copy_records keep ps h result).2)%nat.
Proof.
  revert h result. induction ps as [|p ps IH]; intros h result; [done|].
  cbn [copy_records]. destruct (h !! p) as [c|]; [|apply IH].
  destruct (keep c); [|apply IH].
  etrans; [|apply IH]. rewrite length_app. lia.
Qed.

Lemma wf_grow w h t log :
  wf w -> (length (heap w) <= length h)%nat -> t = tracker w ->
  wf {| heap := h; tracker := t; dialled := log |}.
Proof.
  intros [Hlt Hinj] Hlen ->. split; [|done]. cbn.
  intros k p Hp%Hlt. lia.
Qed.

Lemma Snapshot_wf w : wf w -> wf (Snapshot w).2.
Proof.
  intros Hwf. unfold Snapshot.
  pose proof (copy_records_length (fun _ => true)
                (map_to_list (connections (tracker w))).*2 (heap w) []).
  destruct (copy_records _ _ _ _) as [result h]. by eapply wf_grow.
Qed.

Lemma Search_wf lower query w : wf w -> wf (Search lower query w).2.
Proof.
  intros Hwf. unfold Search.
  destruct (String.eqb query ""); [by apply Snapshot_wf|].
  pose proof (copy_records_length
                (matches lower (GoStrings.ToLower lower query))
                (map_to_list (connections (tracker w))).*2 (heap w) []).
  destruct (copy_records _ _ _ _) as [result h]. by eapply wf_grow.
Qed.

(** Every world the engine reaches is well formed. *)
Lemma engine_run_wf n w : engine_run n w -> wf w.
Proof.
  induction 1 as [|n w w' _ IH Hstep]; [apply wf_new|].
  destruct Hstep as [now scanned w _|p rtt loss conn log w _|w|lower query w].
  - by apply reconcile_wf.
  - eapply wf_grow; [done| |done]. by rewrite length_insert.
  - by apply Snapshot_wf.
  - by apply Search_wf.
Qed.

(** The probes of a pass, one after the other, are write-backs of the
    engine. *)
Lemma probe_each_run dial targets t n h log :
  engine_run n {| heap := h; tracker := t; dialled := log |} ->
  exists n',
    engine_run n' {| heap := (probe_each dial targets h log).1; tracker := t;
                     dialled := (probe_each dial targets h log).2 |}.
Proof.
  revert n h log. induction targets as [|p rest IH]; intros n h log Hrun.
  - by exists n.
  - cbn [probe_each]. destruct (h !! p) as [conn|] eqn:Hp; [|by eapply IH].
    destruct (MeasurePing dial (RemoteAddr conn) (RemotePort conn) log)
      as [[rtt loss] log'].
    apply (IH (S n)). eapply engine_run_step; [exact Hrun|].
    by apply (engine_write_back p rtt loss conn log'
                {| heap := h; tracker := t; dialled := log |}).
Qed.

(** A whole scan cycle fed by a scanner is a run of the engine. *)
Lemma scan_run dial scanned now n w :
  Forall discovered scanned -> engine_run n w ->
  exists n', engine_run n' (scan dial (Some scanned) now w).
Proof.
  intros Hdisc Hrun. cbn.
  assert (Hrec : engine_run (S n) (reconcile now scanned w))
    by (eapply engine_run_step; [exact Hrun|by constructor]).
  destruct (pingEnabled _); [|by eauto].
  unfold pingAll. destruct (reconcile now scanned w) as [h t log]. cbn.
  destruct (probe_each_run dial (collect_targets h (connections t)) t
              (S n) h log Hrec) as [n' Hn'].
  exists n'. by destruct (probe_each _ _ _ _).
Qed.

(** ** The properties on the host with one connection *)

Lemma rate_kept_on_counter_decrease_witness :
  exists c',
    connections (tracker (reconcile (Scenario.t0 + 2 * GoTime.Second)
                            ([] ++ Scenario.reset :: []) Scenario.world2))
      !! Key Scenario.reset = Some 0%nat /\
    heap (reconcile (Scenario.t0 + 2 * GoTime.Second)
            ([] ++ Scenario.reset :: []) Scenario.world2) !! 0%nat = Some c' /\
    (TxBytes Scenario.reset < prevTxBytes Scenario.record2 ->
     TxRate c' = TxRate Scenario.record2) /\
    (RxBytes Scenario.reset < prevRxBytes Scenario.record2 ->
     RxRate c' = RxRate Scenario.record2).
Proof.
  apply (rate_kept_on_counter_decrease (Scenario.t0 + 2 * GoTime.Second)
           [] Scenario.reset [] Scenario.world2 0%nat Scenario.record2).
  - apply Scenario_wf.
  - vm_compute. reflexivity.
  - vm_compute. reflexivity.
  - apply not_elem_of_nil.
Defined.

Lemma first_observation_zero_rate_witness :
  (exists p c,
     let l := reconcile_loop Scenario.t0
                ([] ++ [Scenario.reset]) (heap Scenario.world0)
                (connections (tracker Scenario.world0)) ∅ in
     l.1.2 !! Key Scenario.reset = Some p /\ l.1.1 !! p = Some c /\
     FirstSeen c = Scenario.t0 /\ LastUpdated c = Scenario.t0 /\
     TxBytes c = TxBytes Scenario.reset /\ RxBytes c = RxBytes Scenario.reset /\
     prevTxBytes c = TxBytes Scenario.reset /\
     prevRxBytes c = RxBytes Scenario.reset /\
     TxRate c = Float64.zero /\ RxRate c = Float64.zero) /\
  (exists p c,
     connections (tracker (reconcile Scenario.t0
                             ([] ++ Scenario.reset :: []) Scenario.world0))
       !! Key Scenario.reset = Some p /\
     heap (reconcile Scenario.t0 ([] ++ Scenario.reset :: []) Scenario.world0)
       !! p = Some c /\
     FirstSeen c = Scenario.t0 /\ LastUpdated c = Scenario.t0 /\
     TxRate c = Float64.zero /\ RxRate c = Float64.zero).
Proof.
  apply (first_observation_zero_rate Scenario.t0 [] Scenario.reset []
           Scenario.world0).
  - apply Scenario_wf.
  - constructor.
  - reflexivity.
  - apply not_elem_of_nil.
Defined.

Lemma search_by_application_name_witness :
  Search (fun s => s) "" Scenario.world3 = Snapshot Scenario.world3 /\
  ("CHR" ≠ "" ->
   deref (heap (Search (fun s => s) "CHR" Scenario.world3).2)
         (Search (fun s => s) "CHR" Scenario.world3).1
     = List.filter
         (fun c => GoStrings.Contains
                     (GoStrings.ToLower (fun s => s) (AppName c))
                     (GoStrings.ToLower (fun s => s) "CHR"))
         (live_records Scenario.world3) /\
   Forall (fun p => (length (heap Scenario.world3) <= p)%nat)
          (Search (fun s => s) "CHR" Scenario.world3).1 /\
   tracker (Search (fun s => s) "CHR" Scenario.world3).2
     = tracker Scenario.world3 /\
   live_records (Search (fun s => s) "CHR" Scenario.world3).2
     = live_records Scenario.world3) /\
  (forall c, c ∈ live_records Scenario.world3 -> AppName c = "Chrome" ->
     c ∈ deref (heap (Search (fun s => s) "chrome" Scenario.world3).2)
               (Search (fun s => s) "chrome" Scenario.world3).1 /\
     c ∈ deref (heap (Search (fun s => s) "CHR" Scenario.world3).2)
               (Search (fun s => s) "CHR" Scenario.world3).1).
Proof.
  apply (search_by_application_name (fun s => s) "CHR" Scenario.world3).
  apply Scenario_wf.
Defined.

Lemma snapshot_isolation_witness :
  let w2 := {| heap := Scenario.scribbled;
               tracker := tracker (Snapshot Scenario.world1).2;
               dialled := dialled (Snapshot Scenario.world1).2 |} in
  deref (heap (Snapshot Scenario.world1).2) (Snapshot Scenario.world1).1
    = live_records Scenario.world1 /\
  length (Snapshot Scenario.world1).1
    = size (connections (tracker Scenario.world1)) /\
  (forall k p c, connections (tracker Scenario.world1) !! k = Some p ->
                 heap Scenario.world1 !! p = Some c ->
                 c ∈ deref (heap (Snapshot Scenario.world1).2)
                       (Snapshot Scenario.world1).1) /\
  NoDup (Snapshot Scenario.world1).1 /\
  (forall p, p ∈ (Snapshot Scenario.world1).1 ->
     (length (heap Scenario.world1) <= p)%nat /\
     forall k, connections (tracker Scenario.world1) !! k ≠ Some p) /\
  (forall k p, connections (tracker Scenario.world1) !! k = Some p ->
               heap w2 !! p = heap Scenario.world1 !! p) /\
  tracker w2 = tracker Scenario.world1 /\
  deref (heap (Snapshot w2).2) (Snapshot w2).1
    = deref (heap (Snapshot (Snapshot Scenario.world1).2).2)
            (Snapshot (Snapshot Scenario.world1).2).1 /\
  deref (heap (Snapshot w2).2) (Snapshot w2).1
    = deref (heap (Snapshot Scenario.world1).2) (Snapshot Scenario.world1).1.
Proof.
  apply (snapshot_isolation Scenario.world1 Scenario.scribbled).
  - apply Scenario_wf.
  - vm_compute. reflexivity.
  - intros p Hp. apply list_lookup_insert_ne. intros <-. apply Hp.
    apply (bool_decide_unpack _). vm_compute. exact I.
Defined.

Lemma world1_probed_run : engine_run 2 Scenario.world1_probed.
Proof.
  assert (Hdisc : Forall discovered (Scenario.discover Scenario.t0 1000 0))
    by (repeat constructor).
  assert (H1 : engine_run 1 Scenario.world1).
  { exact (engine_run_step 0 Scenario.world0 _
             (engine_run_new (3 * GoTime.Second) false)
             (engine_reconcile Scenario.t0 _ Scenario.world0 Hdisc)). }
  eapply engine_run_step; [exact H1|].
  apply (engine_write_back 0%nat 0 (Float64.of_Z 100) Scenario.record1 []
           Scenario.world1).
  vm_compute. reflexivity.
Qed.

Lemma probe_failures_bounded_by_attempts_witness :
  (forall p c, heap Scenario.world1_probed !! p = Some c ->
     0 <= PingFailed c /\ PingFailed c <= PingCount c) /\
  (forall now sc, discovered sc ->
     PingCount (init_new now sc) = 0 /\ PingFailed (init_new now sc) = 0) /\
  (forall p c rtt loss, heap Scenario.world1_probed !! p = Some c ->
     PingCount (write_back rtt loss c) = PingCount c + 1 /\
     PingFailed (write_back rtt loss c) =
       PingFailed c + (if Float64.leb (Float64.of_Z 100) loss then 1 else 0)).
Proof.
  apply (probe_failures_bounded_by_attempts 2 Scenario.world1_probed).
  - exact world1_probed_run.
  - vm_compute. reflexivity.
Defined.

(** * Further properties of the engine *)

(** ** A reconciliation, key by key *)

Lemma first_occurrence (scanned : list Connection) k :
  k ∈ Key <$> scanned ->
  exists pre sc post,
    scanned = pre ++ sc :: post /\ Key sc = k /\ k ∉ Key <$> pre.
Proof.
  induction scanned as [|a rest IH]; [by intros ?%elem_of_nil|].
  rewrite fmap_cons. intros Hin.
  destruct (decide (Key a = k)) as [Heq|Hne].
  - exists [], a, rest. split; [done|]. split; [done|]. apply not_elem_of_nil.
  - apply elem_of_cons in Hin as [Heq|Hin]; [congruence|].
    destruct (IH Hin) as (pre & sc & post & -> & Hk & Hpre).
    exists (a :: pre), sc, post. split; [done|]. split; [done|].
    rewrite fmap_cons. apply not_elem_of_cons. split; [congruence|done].
Qed.

(** What one iteration leaves under the key of the record it handles. *)
Lemma reconcile_step_result now sc h m alive :
  wf_map h m ->
  exists p c',
    (reconcile_step now sc h m alive).1.2 !! Key sc = Some p /\
    (reconcile_step now sc h m alive).1.1 !! p = Some c' /\
    ((m !! Key sc = None /\ c' = init_new now sc) \/
     (exists c, m !! Key sc = Some p /\ h !! p = Some c /\
                c' = update_existing now sc c)).
Proof.
  intros [Hlt Hinj].
  destruct (m !! Key sc) as [p|] eqn:Hk.
  - destruct (lookup_lt_is_Some_2 h p (Hlt _ _ Hk)) as [c Hc].
    rewrite (reconcile_step_existing now sc h m alive p c Hk Hc). cbn.
    exists p, (update_existing now sc c). split; [done|]. split.
    + apply list_lookup_insert_eq. by eapply lookup_lt_Some.
    + right. by exists c.
  - rewrite (reconcile_step_new now sc h m alive Hk). cbn.
    exists (length h), (init_new now sc). split; [apply lookup_insert_eq|].
    split; [|by left].
    rewrite lookup_app_r by lia. by rewrite Nat.sub_diag.
Qed.

(** A property that every update of the cycle preserves holds of the record
    of [k] at the end of the loop if it holds at some point of it. *)
Lemma reconcile_loop_inv (P : Connection -> Prop) now scanned h m alive k p c :
  (forall sc c, P c -> P (update_existing now sc c)) ->
  wf_map h m -> m !! k = Some p -> h !! p = Some c -> P c ->
  exists c',
    (reconcile_loop now scanned h m alive).1.2 !! k = Some p /\
    (reconcile_loop now scanned h m alive).1.1 !! p = Some c' /\ P c'.
Proof.
  intros Hupd. revert h m alive c.
  induction scanned as [|sc rest IH]; intros h m alive c Hwf Hk Hp HP.
  - by exists c.
  - rewrite reconcile_loop_cons.
    pose proof (reconcile_step_wf now sc h m alive Hwf) as Hwf'.
    destruct (decide (Key sc = k)) as [Heq|Hne].
    + subst k.
      rewrite (reconcile_step_existing now sc h m alive p c Hk Hp) in *.
      cbn [fst snd] in *.
      apply (IH _ _ _ (update_existing now sc c)); try done.
      * apply list_lookup_insert_eq. by eapply lookup_lt_Some.
      * by apply Hupd.
    + apply (IH _ _ _ c); try done.
      * by rewrite reconcile_step_other.
      * by rewrite (reconcile_step_frame now sc h m alive k p).
Qed.

(** A property that the update branch establishes, that the insert branch
    establishes for the records of this cycle, and that updates preserve,
    holds of every record of the live map after the cycle. *)
Lemma reconcile_live_inv (P : Connection -> Prop) now scanned w k p :
  (forall sc c, P (update_existing now sc c)) ->
  (forall sc, sc ∈ scanned -> P (init_new now sc)) ->
  wf w ->
  connections (tracker (reconcile now scanned w)) !! k = Some p ->
  exists c, heap (reconcile now scanned w) !! p = Some c /\ P c.
Proof.
  intros Hupd Hnew Hwf. rewrite reconcile_lookup, reconcile_heap.
  case_bool_decide as Hin; [|done]. intros Hk.
  destruct (first_occurrence scanned k Hin) as (pre & sc & post & -> & <- & Hpre).
  rewrite reconcile_loop_app, reconcile_loop_cons in *.
  pose proof (reconcile_loop_wf now pre _ _ ∅ Hwf) as Hwf1.
  set (l1 := reconcile_loop now pre (heap w) (connections (tracker w)) ∅) in *.
  pose proof (reconcile_step_wf now sc _ _ l1.2 Hwf1) as Hwf2.
  destruct (reconcile_step_result now sc _ _ l1.2 Hwf1)
    as (q & c2 & Hq & Hc2 & Hcase).
  assert (HP2 : P c2).
  { destruct Hcase as [[_ ->]|(c0 & _ & _ & ->)]; [|apply Hupd].
    apply Hnew. apply elem_of_app. right. apply elem_of_cons. by left. }
  destruct (reconcile_loop_inv P now post
              (reconcile_step now sc l1.1.1 l1.1.2 l1.2).1.1
              (reconcile_step now sc l1.1.1 l1.1.2 l1.2).1.2
              (reconcile_step now sc l1.1.1 l1.1.2 l1.2).2 (Key sc) q c2)
    as (c' & Hk' & Hc' & HP'); [by intros; apply Hupd|done..|].
  rewrite Hk' in Hk. injection Hk as <-. by exists c'.
Qed.

Lemma update_existing_identity now sc c :
  same_identity c (update_existing now sc c).
Proof. by repeat split. Qed.

Lemma same_identity_trans c1 c2 c3 :
  same_identity c1 c2 -> same_identity c2 c3 -> same_identity c1 c3.
Proof. unfold same_identity. intuition congruence. Qed.

(** X1.  A connection that a cycle observes again keeps its record: the
    key leads to the same address, and the identity fields, the application
    name, the direction, the first-seen time and the probe results of the
    record are untouched by the reconciliation (only state, counters,
    rates, age and time stamps are refreshed). *)
Theorem reconcile_keeps_identity now scanned w k p c :
  wf w ->
  connections (tracker w) !! k = Some p ->
  heap w !! p = Some c ->
  k ∈ Key <$> scanned ->
  exists c',
    connections (tracker (reconcile now scanned w)) !! k = Some p /\
    heap (reconcile now scanned w) !! p = Some c' /\
    same_identity c c'.
Proof.
  intros Hwf Hk Hp Hin. rewrite reconcile_lookup, reconcile_heap.
  rewrite bool_decide_eq_true_2 by done.
  apply (reconcile_loop_inv (same_identity c) now scanned _ _ ∅ k p c);
    [|done..|by repeat split].
  intros sc c1 H1. eapply same_identity_trans; [exact H1|].
  apply update_existing_identity.
Qed.

(** X2.  After the locked part of a cycle fed by a scanner, every record of
    the live map carries the stamps of that cycle: last-updated and the
    time of the previous sample are the scan time, and the age is the scan
    time minus the first-seen time. *)
Theorem reconcile_stamps_live_records now scanned w k p :
  wf w ->
  Forall discovered scanned ->
  connections (tracker (reconcile now scanned w)) !! k = Some p ->
  exists c, heap (reconcile now scanned w) !! p = Some c /\ stamped now c.
Proof.
  intros Hwf Hdisc. apply reconcile_live_inv; [done| |done].
  intros sc Hsc. rewrite Forall_forall in Hdisc.
  assert (ConnAge sc = 0) as Hage by (by destruct (Hdisc sc Hsc)).
  split; [done|]. split; [done|]. cbn. by rewrite Sub_same.
Qed.

(** X3.  The state and the byte counters of a live record are those of the
    last discovered record with its key. *)
Theorem reconcile_last_observation now pre sc post w :
  wf w ->
  Key sc ∉ Key <$> post ->
  exists p c,
    connections (tracker (reconcile now (pre ++ sc :: post) w)) !! Key sc
      = Some p /\
    heap (reconcile now (pre ++ sc :: post) w) !! p = Some c /\
    State c = State sc /\ TxBytes c = TxBytes sc /\ RxBytes c = RxBytes sc.
Proof.
  intros Hwf Hpost. rewrite reconcile_lookup, reconcile_heap.
  rewrite bool_decide_eq_true_2
    by (rewrite fmap_app, fmap_cons; apply elem_of_app; right;
        apply elem_of_cons; by left).
  rewrite reconcile_loop_app, reconcile_loop_cons.
  pose proof (reconcile_loop_wf now pre _ _ ∅ Hwf) as Hwf1.
  set (l1 := reconcile_loop now pre (heap w) (connections (tracker w)) ∅) in *.
  pose proof (reconcile_step_wf now sc _ _ l1.2 Hwf1) as Hwf2.
  destruct (reconcile_step_result now sc _ _ l1.2 Hwf1)
    as (q & c2 & Hq & Hc2 & Hcase).
  destruct (reconcile_loop_frame now post _ _
              (reconcile_step now sc l1.1.1 l1.1.2 l1.2).2 _ _ Hwf2 Hq Hpost)
    as [Hk' Hc'].
  exists q, c2. split; [done|]. split; [by rewrite Hc'|].
  by destruct Hcase as [[_ ->]|(c0 & _ & _ & ->)].
Qed.

(** X4.  Reconciling again at the same instant changes no rate and no
    first-seen time: for every record of the live map after a cycle at
    [now], a second reconciliation at [now] that observes its key, with any
    counters, leaves both rates and the first-seen time as they are. *)
Theorem reconcile_same_instant now scanned1 scanned2 w k p c :
  wf w ->
  connections (tracker (reconcile now scanned1 w)) !! k = Some p ->
  heap (reconcile now scanned1 w) !! p = Some c ->
  k ∈ Key <$> scanned2 ->
  exists c',
    connections (tracker (reconcile now scanned2 (reconcile now scanned1 w)))
      !! k = Some p /\
    heap (reconcile now scanned2 (reconcile now scanned1 w)) !! p = Some c' /\
    TxRate c' = TxRate c /\ RxRate c' = RxRate c /\
    FirstSeen c' = FirstSeen c.
Proof.
  intros Hwf Hk Hp Hin.
  destruct (reconcile_live_inv
              (fun c => prevTime c = now /\ LastUpdated c = now)
              now scanned1 w k p) as (c1 & Hc1 & Hprev & Hlast); try done.
  rewrite Hp in Hc1. injection Hc1 as <-.
  pose proof (reconcile_wf now scanned1 w Hwf) as Hwf1.
  set (w1 := reconcile now scanned1 w) in *.
  rewrite reconcile_lookup, reconcile_heap.
  rewrite bool_decide_eq_true_2 by done.
  destruct (reconcile_loop_settled now scanned2 (heap w1)
              (connections (tracker w1)) ∅ k p c Hwf1 Hk Hp Hprev Hlast)
    as (c' & Hk' & Hc' & _ & _ & Hfirst & Htx & Hrx).
  by exists c'.
Qed.

(** ** Keys and records *)

Lemma reconcile_step_keyed now sc h m alive :
  wf_map h m -> keyed h m ->
  keyed (reconcile_step now sc h m alive).1.1
        (reconcile_step now sc h m alive).1.2.
Proof.
  intros [Hlt Hinj] Hkeyed. unfold reconcile_step.
  destruct (m !! Key sc) as [p|] eqn:Hk; [destruct (h !! p) as [c|] eqn:Hp|];
    cbn [fst snd]; [|done|].
  - intros k q c' Hq Hc'. destruct (decide (q = p)) as [->|Hne].
    + rewrite list_lookup_insert_eq in Hc' by (by eapply lookup_lt_Some).
      injection Hc' as <-. by apply (Hkeyed k p c).
    + rewrite list_lookup_insert_ne in Hc' by done. by eapply Hkeyed.
  - intros k q c' Hq Hc'. rewrite lookup_insert in Hq.
    destruct (decide (Key sc = k)) as [<-|Hne].
    + injection Hq as <-.
      rewrite lookup_app_r, Nat.sub_diag in Hc' by lia. by injection Hc' as <-.
    + rewrite lookup_app_l in Hc' by eauto. by eapply Hkeyed.
Qed.

Lemma reconcile_loop_keyed now scanned h m alive :
  wf_map h m -> keyed h m ->
  keyed (reconcile_loop now scanned h m alive).1.1
        (reconcile_loop now scanned h m alive).1.2.
Proof.
  revert h m alive.
  induction scanned as [|sc rest IH]; intros h m alive Hwf Hkeyed; [done|].
  rewrite reconcile_loop_cons.
  apply IH; [by apply reconcile_step_wf|by apply reconcile_step_keyed].
Qed.

Lemma reconcile_keyed now scanned w :
  wf w -> keyed (heap w) (connections (tracker w)) ->
  keyed (heap (reconcile now scanned w))
        (connections (tracker (reconcile now scanned w))).
Proof.
  intros Hwf Hkeyed k p c. rewrite reconcile_lookup, reconcile_heap.
  case_bool_decide; [|done]. by apply reconcile_loop_keyed.
Qed.

Lemma copy_records_prefix keep ps h result q :
  (q < length h)%nat -> (copy_records keep ps h result).2 !! q = h !! q.
Proof.
  revert h result. induction ps as [|p ps IH]; intros h result Hq; [done|].
  cbn [copy_records]. destruct (h !! p) as [c|]; [|by apply IH].
  destruct (keep c); [|by apply IH].
  rewrite IH by (rewrite length_app; lia). by apply lookup_app_l.
Qed.

Lemma Snapshot_prefix w q :
  (q < length (heap w))%nat -> heap (Snapshot w).2 !! q = heap w !! q.
Proof.
  intros Hq. unfold Snapshot.
  pose proof (copy_records_prefix (fun _ => true)
                (map_to_list (connections (tracker w))).*2 (heap w) [] q Hq).
  by destruct (copy_records _ _ _ _).
Qed.

Lemma Snapshot_tracker w : tracker (Snapshot w).2 = tracker w.
Proof. unfold Snapshot. by destruct (copy_records _ _ _ _). Qed.

Lemma Search_prefix lower query w q :
  (q < length (heap w))%nat -> heap (Search lower query w).2 !! q = heap w !! q.
Proof.
  intros Hq. unfold Search.
  destruct (String.eqb query ""); [by apply Snapshot_prefix|].
  pose proof (copy_records_prefix
                (matches lower (GoStrings.ToLower lower query))
                (map_to_list (connections (tracker w))).*2 (heap w) [] q Hq).
  by destruct (copy_records _ _ _ _).
Qed.

Lemma Search_tracker lower query w :
  tracker (Search lower query w).2 = tracker w.
Proof.
  unfold Search. destruct (String.eqb query ""); [apply Snapshot_tracker|].
  by destruct (copy_records _ _ _ _).
Qed.

Lemma engine_step_keyed w w' :
  wf w -> engine_step w w' ->
  keyed (heap w) (connections (tracker w)) ->
  keyed (heap w') (connections (tracker w')).
Proof.
  intros Hwf Hstep Hkeyed.
  destruct Hstep as [now scanned w _|p rtt loss conn log w Hp|w|lower query w].
  - by apply reconcile_keyed.
  - cbn. intros k q c Hq Hc. destruct (decide (q = p)) as [->|Hne].
    + rewrite list_lookup_insert_eq in Hc by (by eapply lookup_lt_Some).
      injection Hc as <-. by apply (Hkeyed k p conn).
    + rewrite list_lookup_insert_ne in Hc by done. by eapply Hkeyed.
  - rewrite Snapshot_tracker. intros k q c Hq Hc.
    rewrite Snapshot_prefix in Hc by (by eapply (proj1 Hwf)). by eapply Hkeyed.
  - rewrite Search_tracker. intros k q c Hq Hc.
    rewrite Search_prefix in Hc by (by eapply (proj1 Hwf)). by eapply Hkeyed.
Qed.

(** X5.  In every world the engine reaches, the record found under a key
    of the live map has that key: what [Key] computes from the record is
    the key it is stored under. *)
Theorem engine_keys_consistent n w k p c :
  engine_run n w ->
  connections (tracker w) !! k = Some p ->
  heap w !! p = Some c ->
  Key c = k.
Proof.
  intros Hrun. revert k p c.
  induction Hrun as [|n w w' Hrun IH Hstep].
  - intros k p c. cbn. by rewrite lookup_empty.
  - apply (engine_step_keyed w w'); [by eapply engine_run_wf|done|exact IH].
Qed.

(** ** The probe pass, record by record *)

Lemma collect_loop_elem h ps p :
  p ∈ collect_loop h ps <->
  p ∈ ps /\ exists c, h !! p = Some c /\ is_target c = true.
Proof.
  induction ps as [|q ps IH]; cbn [collect_loop].
  - split; [by intros ?%elem_of_nil|by intros [?%elem_of_nil _]].
  - destruct (h !! q) as [c|] eqn:Hq; [destruct (is_target c) eqn:Ht|];
      rewrite ?elem_of_cons, IH, ?elem_of_cons.
    + split; [intros [->|[? ?]]; eauto|intros [[->|?] ?]; eauto].
    + split; [intros [? ?]; eauto|].
      intros [[->|?] (c' & Hc' & Ht')]; [congruence|eauto].
    + split; [intros [? ?]; eauto|].
      intros [[->|?] (c' & Hc' & Ht')]; [congruence|eauto].
Qed.

Lemma collect_loop_NoDup h ps : NoDup ps -> NoDup (collect_loop h ps).
Proof.
  induction 1 as [|q ps Hq _ IH]; cbn [collect_loop]; [constructor|].
  destruct (h !! q) as [c|]; [destruct (is_target c)|]; try done.
  constructor; [|done]. rewrite collect_loop_elem. by intros [? _].
Qed.

Lemma collect_loop_length h ps : (length (collect_loop h ps) <= length ps)%nat.
Proof.
  induction ps as [|q ps IH]; cbn [collect_loop length]; [done|].
  destruct (h !! q) as [c|]; [destruct (is_target c)|]; cbn [length]; lia.
Qed.

Lemma live_addresses_NoDup h (m : gmap string nat) :
  wf_map h m -> NoDup ((map_to_list m).*2).
Proof.
  intros [_ Hinj]. apply NoDup_fmap_2_strong; [|apply NoDup_map_to_list].
  intros [k1 p1] [k2 p2] H1%elem_of_map_to_list H2%elem_of_map_to_list.
  cbn. intros <-. f_equal. by eapply Hinj.
Qed.

Lemma live_addresses_elem (m : gmap string nat) p :
  p ∈ (map_to_list m).*2 <-> exists k, m !! k = Some p.
Proof.
  rewrite list_elem_of_fmap. split.
  - intros ([k q] & -> & Hkq%elem_of_map_to_list). by exists k.
  - intros [k Hk]. exists (k, p). split; [done|]. by apply elem_of_map_to_list.
Qed.

(** With every target listed once, a pass writes back once to each target
    and to nothing else. *)
Lemma probe_each_lookup dial targets h log p :
  NoDup targets ->
  (p ∉ targets -> (probe_each dial targets h log).1 !! p = h !! p) /\
  (p ∈ targets -> forall c, h !! p = Some c ->
   exists rtt loss,
     (probe_each dial targets h log).1 !! p = Some (write_back rtt loss c)).
Proof.
  intros Hnodup. revert h log.
  induction Hnodup as [|q rest Hq _ IH]; intros h log.
  - split; [done|by intros ?%elem_of_nil].
  - cbn [probe_each]. destruct (h !! q) as [conn|] eqn:Hconn.
    + destruct (MeasurePing dial (RemoteAddr conn) (RemotePort conn) log)
        as [[rtt loss] log'].
      destruct (IH (<[q := write_back rtt loss conn]> h) log') as [IH1 IH2].
      split.
      * intros [Hne Hrest]%not_elem_of_cons.
        rewrite IH1 by done. by apply list_lookup_insert_ne.
      * intros [->|Hin]%elem_of_cons c Hc.
        -- rewrite IH1 by done. exists rtt, loss.
           rewrite list_lookup_insert_eq by (by eapply lookup_lt_Some).
           congruence.
        -- apply IH2; [done|].
           rewrite list_lookup_insert_ne; [done|]. by intros ->.
    + destruct (IH h log) as [IH1 IH2]. split.
      * intros [_ Hrest]%not_elem_of_cons. by apply IH1.
      * intros [->|Hin]%elem_of_cons c Hc; [congruence|by apply IH2].
Qed.

Lemma pingAll_heap dial w :
  heap (pingAll dial w) =
    (probe_each dial (collect_targets (heap w) (connections (tracker w)))
       (heap w) (dialled w)).1.
Proof. unfold pingAll. by destruct (probe_each _ _ _ _). Qed.

Lemma pingAll_dialled dial w :
  dialled (pingAll dial w) =
    (probe_each dial (collect_targets (heap w) (connections (tracker w)))
       (heap w) (dialled w)).2.
Proof. unfold pingAll. by destruct (probe_each _ _ _ _). Qed.

(** X6.  A probe pass writes back exactly once to every record of the live
    map that is ESTABLISHED with a remote address other than 0.0.0.0 and
    [::], and changes no other record, in the live map or not. *)
Theorem pingAll_probes_each_target_once dial w :
  wf w ->
  (forall k p c,
     connections (tracker w) !! k = Some p -> heap w !! p = Some c ->
     (is_target c = true ->
      exists rtt loss,
        heap (pingAll dial w) !! p = Some (write_back rtt loss c)) /\
     (is_target c = false -> heap (pingAll dial w) !! p = Some c)) /\
  (forall q, (forall k, connections (tracker w) !! k ≠ Some q) ->
             heap (pingAll dial w) !! q = heap w !! q).
Proof.
  intros Hwf. rewrite pingAll_heap. unfold collect_targets.
  pose proof (collect_loop_NoDup (heap w) _
                (live_addresses_NoDup _ _ Hwf)) as Hnodup.
  split.
  - intros k p c Hk Hc.
    destruct (probe_each_lookup dial _ (heap w) (dialled w) p Hnodup)
      as [Hout Hin].
    split; intros Ht.
    + apply Hin; [|done]. apply collect_loop_elem.
      split; [apply live_addresses_elem; eauto|eauto].
    + rewrite Hout; [done|]. rewrite collect_loop_elem.
      intros [_ (c' & Hc' & Ht')]. congruence.
  - intros q Hq.
    destruct (probe_each_lookup dial _ (heap w) (dialled w) q Hnodup)
      as [Hout _].
    apply Hout. rewrite collect_loop_elem, live_addresses_elem.
    intros [[k Hk] _]. by apply (Hq k).
Qed.

Lemma MeasurePing_skipped_log dial addr port log :
  skipped_addr addr = true -> (MeasurePing dial addr port log).2 = log.
Proof. intros Hs. unfold MeasurePing. by rewrite Hs. Qed.

(** What one pass appends to the log of dialled targets. *)
Lemma probe_each_log dial targets h log :
  NoDup targets ->
  exists extra,
    (probe_each dial targets h log).2 = log ++ extra /\
    (length extra <= 3 * length targets)%nat /\
    forall t, t ∈ extra ->
      exists p c, p ∈ targets /\ h !! p = Some c /\
        skipped_addr (RemoteAddr c) = false /\
        t = JoinHostPort (RemoteAddr c) (itoa (RemotePort c)).
Proof.
  intros Hnodup. revert h log.
  induction Hnodup as [|q rest Hq _ IH]; intros h log.
  - exists []. cbn. rewrite app_nil_r. split; [done|]. split; [lia|].
    by intros t ?%elem_of_nil.
  - cbn [probe_each]. destruct (h !! q) as [conn|] eqn:Hconn.
    + pose proof (MeasurePing_dials dial (RemoteAddr conn) (RemotePort conn) log)
        as Hdials.
      pose proof (MeasurePing_skipped_log dial (RemoteAddr conn)
                    (RemotePort conn) log) as Hskip.
      destruct (MeasurePing dial (RemoteAddr conn) (RemotePort conn) log)
        as [[rtt loss] log']. cbn [snd] in *.
      destruct (IH (<[q := write_back rtt loss conn]> h) log')
        as (extra & -> & Hlen & Hall).
      assert (Hrest : forall t, t ∈ extra ->
                exists p c, p ∈ q :: rest /\ h !! p = Some c /\
                  skipped_addr (RemoteAddr c) = false /\
                  t = JoinHostPort (RemoteAddr c) (itoa (RemotePort c))).
      { intros t Ht. destruct (Hall t Ht) as (p & c & Hp & Hc & Hs & ->).
        exists p, c. split; [apply elem_of_cons; by right|].
        split; [|done].
        rewrite list_lookup_insert_ne in Hc; [done|]. by intros ->. }
      destruct (skipped_addr (RemoteAddr conn)) eqn:Hs.
      * rewrite Hskip by done. exists extra. split; [done|].
        split; [cbn [length]; lia|done].
      * rewrite Hdials by done.
        exists (replicate 3 (JoinHostPort (RemoteAddr conn)
                               (itoa (RemotePort conn))) ++ extra).
        split; [by rewrite app_assoc|]. split.
        { rewrite length_app, length_replicate. cbn [length]. lia. }
        intros t [Ht|Ht]%elem_of_app; [|by apply Hrest].
        apply elem_of_replicate in Ht as [-> _].
        exists q, conn. split; [apply elem_of_cons; by left|done].
    + destruct (IH h log) as (extra & -> & Hlen & Hall).
      exists extra. split; [done|]. split; [cbn [length]; lia|].
      intros t Ht. destruct (Hall t Ht) as (p & c & Hp & Hc & Hs & ->).
      exists p, c. split; [apply elem_of_cons; by right|done].
Qed.

(** X7.  A scan cycle dials only the remote endpoints of records that are
    in the live map after its reconciliation, ESTABLISHED, and whose remote
    address is none of 0.0.0.0, [::], 127.0.0.1 and [::1]; it dials at most
    three times per record of the live map, and not at all when probing is
    disabled. *)
Theorem scan_dials_only_live_targets dial scanned now w :
  wf w ->
  exists extra,
    dialled (scan dial (Some scanned) now w) = dialled w ++ extra /\
    (pingEnabled (tracker w) = false -> extra = []) /\
    (length extra <=
       3 * size (connections (tracker (reconcile now scanned w))))%nat /\
    forall t, t ∈ extra ->
      exists k p c,
        connections (tracker (reconcile now scanned w)) !! k = Some p /\
        heap (reconcile now scanned w) !! p = Some c /\
        is_target c = true /\
        skipped_addr (RemoteAddr c) = false /\
        t = JoinHostPort (RemoteAddr c) (itoa (RemotePort c)).
Proof.
  intros Hwf.
  pose proof (reconcile_wf now scanned w Hwf) as Hwf1.
  assert (Hlog : dialled (reconcile now scanned w) = dialled w)
    by (by rewrite reconcile_eq).
  assert (Hpe : pingEnabled (tracker (reconcile now scanned w))
                = pingEnabled (tracker w)) by (by rewrite reconcile_eq).
  cbn [scan]. rewrite Hpe. set (w1 := reconcile now scanned w) in *.
  destruct (pingEnabled (tracker w)).
  - rewrite pingAll_dialled, Hlog. unfold collect_targets.
    pose proof (collect_loop_NoDup (heap w1) _
                  (live_addresses_NoDup _ _ Hwf1)) as Hnodup.
    destruct (probe_each_log dial _ (heap w1) (dialled w) Hnodup)
      as (extra & Hextra & Hlen & Hall).
    exists extra. split; [done|]. split; [done|]. split.
    + pose proof (collect_loop_length (heap w1)
                    (map_to_list (connections (tracker w1))).*2) as Hle.
      rewrite length_fmap, length_map_to_list in Hle. lia.
    + intros t Ht. destruct (Hall t Ht) as (p & c & Hp & Hc & Hs & ->).
      apply collect_loop_elem in Hp as [Hp (c' & Hc' & Ht')].
      apply live_addresses_elem in Hp as [k Hk].
      exists k, p, c. repeat split; try done. congruence.
  - exists []. rewrite app_nil_r. split; [done|]. split; [done|].
    split; [cbn; lia|]. by intros t ?%elem_of_nil.
Qed.

(** ** These properties on the host with one connection *)

Lemma reconcile_keeps_identity_witness :
  exists c',
    connections (tracker (reconcile (Scenario.t0 + 2 * GoTime.Second)
                            [Scenario.reset] Scenario.world2))
      !! Scenario.key = Some 0%nat /\
    heap (reconcile (Scenario.t0 + 2 * GoTime.Second)
            [Scenario.reset] Scenario.world2) !! 0%nat = Some c' /\
    same_identity Scenario.record2 c'.
Proof.
  apply (reconcile_keeps_identity (Scenario.t0 + 2 * GoTime.Second)
           [Scenario.reset] Scenario.world2 Scenario.key 0%nat
           Scenario.record2).
  - apply Scenario_wf.
  - vm_compute. reflexivity.
  - vm_compute. reflexivity.
  - apply (bool_decide_unpack _). vm_compute. exact I.
Defined.

Lemma reconcile_stamps_live_records_witness :
  exists c,
    heap (reconcile Scenario.t0 (Scenario.discover Scenario.t0 1000 0)
            Scenario.world0) !! 0%nat = Some c /\
    stamped Scenario.t0 c.
Proof.
  apply (reconcile_stamps_live_records Scenario.t0
           (Scenario.discover Scenario.t0 1000 0) Scenario.world0
           Scenario.key 0%nat).
  - apply Scenario_wf.
  - repeat constructor.
  - vm_compute. reflexivity.
Defined.

Lemma reconcile_last_observation_witness :
  exists p c,
    connections (tracker (reconcile (Scenario.t0 + 2 * GoTime.Second)
                            (Scenario2.listed_before ++ Scenario.reset :: [])
                            Scenario.world2))
      !! Key Scenario.reset = Some p /\
    heap (reconcile (Scenario.t0 + 2 * GoTime.Second)
            (Scenario2.listed_before ++ Scenario.reset :: [])
            Scenario.world2) !! p = Some c /\
    State c = State Scenario.reset /\
    TxBytes c = TxBytes Scenario.reset /\
    RxBytes c = RxBytes Scenario.reset.
Proof.
  apply (reconcile_last_observation (Scenario.t0 + 2 * GoTime.Second)
           Scenario2.listed_before Scenario.reset [] Scenario.world2).
  - apply Scenario_wf.
  - apply not_elem_of_nil.
Defined.

Lemma reconcile_same_instant_witness :
  exists c',
    connections
      (tracker (reconcile (Scenario.t0 + GoTime.Second) Scenario2.again
                  (reconcile (Scenario.t0 + GoTime.Second)
                     (Scenario.discover (Scenario.t0 + GoTime.Second) 2000 0)
                     Scenario.world1)))
      !! Scenario.key = Some 0%nat /\
    heap (reconcile (Scenario.t0 + GoTime.Second) Scenario2.again
            (reconcile (Scenario.t0 + GoTime.Second)
               (Scenario.discover (Scenario.t0 + GoTime.Second) 2000 0)
               Scenario.world1)) !! 0%nat = Some c' /\
    TxRate c' = TxRate Scenario.record2 /\
    RxRate c' = RxRate Scenario.record2 /\
    FirstSeen c' = FirstSeen Scenario.record2.
Proof.
  apply (reconcile_same_instant (Scenario.t0 + GoTime.Second)
           (Scenario.discover (Scenario.t0 + GoTime.Second) 2000 0)
           Scenario2.again Scenario.world1 Scenario.key 0%nat
           Scenario.record2).
  - apply Scenario_wf.
  - vm_compute. reflexivity.
  - vm_compute. reflexivity.
  - apply (bool_decide_unpack _). vm_compute. exact I.
Defined.

Lemma engine_keys_consistent_witness :
  Key Scenario2.record1_probed = Scenario.key.
Proof.
  apply (engine_keys_consistent 2 Scenario.world1_probed Scenario.key 0%nat
           Scenario2.record1_probed).
  - exact world1_probed_run.
  - vm_compute. reflexivity.
  - vm_compute. reflexivity.
Defined.

Lemma pingAll_probes_each_target_once_witness :
  (forall k p c,
     connections (tracker Scenario.world1) !! k = Some p ->
     heap Scenario.world1 !! p = Some c ->
     (is_target c = true ->
      exists rtt loss,
        heap (pingAll Scenario.refused Scenario.world1) !! p
          = Some (write_back rtt loss c)) /\
     (is_target c = false ->
      heap (pingAll Scenario.refused Scenario.world1) !! p = Some c)) /\
  (forall q, (forall k, connections (tracker Scenario.world1) !! k ≠ Some q) ->
             heap (pingAll Scenario.refused Scenario.world1) !! q
               = heap Scenario.world1 !! q).
Proof.
  apply (pingAll_probes_each_target_once Scenario.refused Scenario.world1).
  apply Scenario_wf.
Defined.

Lemma scan_dials_only_live_targets_witness :
  exists extra,
    dialled (scan Scenario.refused
               (Some (Scenario.discover Scenario.t0 1000 0)) Scenario.t0
               Scenario2.probing0)
      = dialled Scenario2.probing0 ++ extra /\
    (pingEnabled (tracker Scenario2.probing0) = false -> extra = []) /\
    (length extra <=
       3 * size (connections
                   (tracker (reconcile Scenario.t0
                               (Scenario.discover Scenario.t0 1000 0)
                               Scenario2.probing0))))%nat /\
    forall t, t ∈ extra ->
      exists k p c,
        connections (tracker (reconcile Scenario.t0
                                (Scenario.discover Scenario.t0 1000 0)
                                Scenario2.probing0)) !! k = Some p /\
        heap (reconcile Scenario.t0 (Scenario.discover Scenario.t0 1000 0)
                Scenario2.probing0) !! p = Some c /\
        is_target c = true /\
        skipped_addr (RemoteAddr c) = false /\
        t = JoinHostPort (RemoteAddr c) (itoa (RemotePort c)).
Proof.
  apply (scan_dials_only_live_targets Scenario.refused
           (Scenario.discover Scenario.t0 1000 0) Scenario.t0
           Scenario2.probing0).
  apply wf_new.
Defined.

(** With probing enabled, the first cycle dials its one live target
    three times. *)
Lemma probing_cycle_dials_three_times :
  dialled (scan Scenario.refused
             (Some (Scenario.discover Scenario.t0 1000 0)) Scenario.t0
             Scenario2.probing0)
  = ["93.184.216.34:443"; "93.184.216.34:443"; "93.184.216.34:443"].
Proof. vm_compute. reflexivity. Qed.

(** Listed twice in one discovery result, the connection ends with the
    counters of the second listing. *)
Lemma listed_twice_keeps_last :
  TxBytes <$> heap (reconcile (Scenario.t0 + 2 * GoTime.Second)
                      (Scenario2.listed_before ++ Scenario.reset :: [])
                      Scenario.world2) = [500].
Proof. vm_compute. reflexivity. Qed.

(** ** The prober, attempt by attempt *)

(** [MeasurePing] on an address that the guard lets through, with the
    outcomes of its three attempts named. *)
Lemma MeasurePing_outcomes dial addr port log o1 o2 o3 :
  skipped_addr addr = false ->
  dial log (JoinHostPort addr (itoa port)) = o1 ->
  dial (log ++ [JoinHostPort addr (itoa port)])
       (JoinHostPort addr (itoa port)) = o2 ->
  dial ((log ++ [JoinHostPort addr (itoa port)])
          ++ [JoinHostPort addr (itoa port)])
       (JoinHostPort addr (itoa port)) = o3 ->
  (MeasurePing dial addr port log).1 =
    let add (acc : Z * Z) (o : option Z) :=
      match o with
      | Some elapsed => (wrap_int (acc.1 + elapsed), wrap_int (acc.2 + 1))
      | None => acc
      end in
    let sums := add (add (add (0, 0) o1) o2) o3 in
    if sums.2 =? 0 then (0, Float64.of_Z 100)
    else (int_quot sums.1 sums.2,
          Float64.mul
            (Float64.div (Float64.of_Z (wrap_int (pingCount - sums.2)))
                         (Float64.of_Z pingCount))
            (Float64.of_Z 100)).
Proof.
  intros Hskip H1 H2 H3. unfold MeasurePing. rewrite Hskip.
  change (Z.to_nat pingCount) with 3%nat. cbn [dial_loop].
  rewrite H1. destruct o1 as [e1|]; rewrite H2; destruct o2 as [e2|];
    rewrite H3; destruct o3 as [e3|]; cbn [fst snd];
    by match goal with |- context [?s =? 0] => destruct (s =? 0) end.
Qed.

(** X8.  The loss law of the prober, for an address that is probed.  When
    the three attempts fail, the result is a zero round-trip time and a
    loss of 100.  When the three attempts succeed, the loss is 0 and the
    round-trip time is the sum of the three elapsed times divided by 3,
    rounded towards zero. *)
Theorem MeasurePing_loss_law dial addr port log :
  skipped_addr addr = false ->
  let target := JoinHostPort addr (itoa port) in
  (dial log target = None ->
   dial (log ++ [target]) target = None ->
   dial ((log ++ [target]) ++ [target]) target = None ->
   (MeasurePing dial addr port log).1 = (0, Float64.of_Z 100)) /\
  (forall e1 e2 e3,
     dial log target = Some e1 ->
     dial (log ++ [target]) target = Some e2 ->
     dial ((log ++ [target]) ++ [target]) target = Some e3 ->
     0 <= e1 -> 0 <= e2 -> 0 <= e3 -> e1 + e2 + e3 <= int_max ->
     (MeasurePing dial addr port log).1
       = (Z.quot (e1 + e2 + e3) 3, Float64.zero)).
Proof.
  intros Hskip target. split.
  - intros H1 H2 H3.
    by rewrite (MeasurePing_outcomes dial addr port log None None None).
  - intros e1 e2 e3 H1 H2 H3 He1 He2 He3 Hsum. unfold int_max in Hsum.
    rewrite (MeasurePing_outcomes dial addr port log
               (Some e1) (Some e2) (Some e3)) by done.
    cbn [fst snd].
    change (wrap_int (wrap_int (wrap_int (0 + 1) + 1) + 1)) with 3.
    cbn [Z.eqb]. unfold int_quot.
    rewrite (wrap_int_id (0 + e1)) by (unfold int_min, int_max; lia).
    rewrite (wrap_int_id (0 + e1 + e2)) by (unfold int_min, int_max; lia).
    rewrite (wrap_int_id (0 + e1 + e2 + e3)) by (unfold int_min, int_max; lia).
    assert (0 <= Z.quot (e1 + e2 + e3) 3 <= e1 + e2 + e3).
    { split; [apply Z.quot_pos; lia|]. apply Z.quot_le_upper_bound; lia. }
    rewrite wrap_int_id by (unfold int_min, int_max; rewrite Z.add_0_l; lia).
    rewrite Z.add_0_l. reflexivity.
Qed.

Lemma MeasurePing_loss_law_witness :
  let target := JoinHostPort "93.184.216.34" (itoa 443) in
  (Scenario.accepted [] target = None ->
   Scenario.accepted ([] ++ [target]) target = None ->
   Scenario.accepted (([] ++ [target]) ++ [target]) target = None ->
   (MeasurePing Scenario.accepted "93.184.216.34" 443 []).1
     = (0, Float64.of_Z 100)) /\
  (forall e1 e2 e3,
     Scenario.accepted [] target = Some e1 ->
     Scenario.accepted ([] ++ [target]) target = Some e2 ->
     Scenario.accepted (([] ++ [target]) ++ [target]) target = Some e3 ->
     0 <= e1 -> 0 <= e2 -> 0 <= e3 -> e1 + e2 + e3 <= int_max ->
     (MeasurePing Scenario.accepted "93.184.216.34" 443 []).1
       = (Z.quot (e1 + e2 + e3) 3, Float64.zero)).
Proof.
  apply (MeasurePing_loss_law Scenario.accepted "93.184.216.34" 443 []).
  vm_compute. reflexivity.
Defined.

(** X9.  A probe reports a loss of at least 100, which is what makes the
    write-back count a failure, exactly when its address is probed and none
    of the three attempts connects. *)
Theorem MeasurePing_failure_iff_all_refused dial addr port log :
  let target := JoinHostPort addr (itoa port) in
  Float64.leb (Float64.of_Z 100) (MeasurePing dial addr port log).1.2 = true
  <->
  skipped_addr addr = false /\
  dial log target = None /\
  dial (log ++ [target]) target = None /\
  dial ((log ++ [target]) ++ [target]) target = None.
Proof.
  intros target. destruct (skipped_addr addr) eqn:Hskip.
  - unfold MeasurePing. rewrite Hskip. cbn [fst snd].
    split; [intros H; vm_compute in H; discriminate H|by intros [? _]].
  - rewrite (MeasurePing_outcomes dial addr port log _ _ _ Hskip
               eq_refl eq_refl eq_refl).
    fold target.
    destruct (dial log target) as [e1|];
      destruct (dial (log ++ [target]) target) as [e2|];
      destruct (dial ((log ++ [target]) ++ [target]) target) as [e3|];
      cbn [fst snd];
      change (wrap_int (wrap_int (wrap_int (0 + 1) + 1) + 1)) with 3;
      change (wrap_int (wrap_int (0 + 1) + 1)) with 2;
      change (wrap_int (0 + 1)) with 1;
      cbn [Z.eqb fst snd];
      (split;
       [intros H; first [done|vm_compute in H; discriminate H]
       |intros (_ & ? & ? & ?); first [discriminate|vm_compute; reflexivity]]).
Qed.

(** ** Decimal integers *)

Lemma digit_char d :
  0 <= d < 10 ->
  ascii_of_nat (Z.to_nat (48 + d)) = pretty_N_char (Z.to_N d).
Proof.
  intros Hd.
  assert (d = 0 \/ d = 1 \/ d = 2 \/ d = 3 \/ d = 4 \/ d = 5 \/ d = 6 \/
          d = 7 \/ d = 8 \/ d = 9) as Hcases by lia.
  repeat (destruct Hcases as [->|Hcases]; [reflexivity|]). by subst.
Qed.

(** The loop of [intToStr] writes the digits that [%d] writes. *)
Lemma intToStr_loop_pretty rounds i buf :
  0 <= i <= int_max -> i < 10 ^ Z.of_nat rounds ->
  intToStr_loop rounds i buf = pretty_N_go (Z.to_N i) buf.
Proof.
  revert i buf. induction rounds as [|r IH]; intros i buf Hi Hlt.
  - cbn in Hlt. assert (i = 0) as -> by lia. reflexivity.
  - cbn [intToStr_loop]. destruct (0 <? i) eqn:Hpos.
    + apply Z.ltb_lt in Hpos. unfold int_max in Hi.
      rewrite pretty_N_go_step by lia.
      assert (Hq : int_quot i 10 = i / 10).
      { unfold int_quot. rewrite Z.quot_div_nonneg by lia.
        apply wrap_int_id. unfold int_min, int_max.
        pose proof (Z.div_le_upper_bound i 10 i). 
        pose proof (Z.div_pos i 10). lia. }
      assert (Hr : int_rem i 10 = i mod 10).
      { unfold int_rem. apply Z.rem_mod_nonneg; lia. }
      rewrite Hq, Hr. rewrite IH.
      * rewrite digit_char by (apply Z.mod_pos_bound; lia).
        rewrite Z2N.inj_div, Z2N.inj_mod by lia. reflexivity.
      * unfold int_max. pose proof (Z.div_pos i 10).
        pose proof (Z.div_le_upper_bound i 10 i). lia.
      * apply Z.div_lt_upper_bound; [lia|].
        rewrite Nat2Z.inj_succ, Z.pow_succ_r in Hlt by lia. lia.
    + apply Z.ltb_ge in Hpos. assert (i = 0) as -> by lia. reflexivity.
Qed.

(** X10.  [intToStr], which writes the port of a probe target, writes
    every [int] but the smallest as [%d] does (the text [Key] uses for
    ports); the smallest [int], whose negation overflows, comes out as a
    lone minus sign. *)
Theorem intToStr_decimal i :
  int_min <= i <= int_max ->
  intToStr i = if i =? int_min then "-" else fmt_d i.
Proof.
  unfold int_min, int_max. intros Hi. unfold intToStr, fmt_d.
  destruct (i =? 0) eqn:H0.
  { apply Z.eqb_eq in H0 as ->. reflexivity. }
  apply Z.eqb_neq in H0.
  destruct (i =? -9223372036854775808) eqn:Hmin.
  { apply Z.eqb_eq in Hmin as ->. reflexivity. }
  apply Z.eqb_neq in Hmin.
  destruct (i <? 0) eqn:Hneg.
  - apply Z.ltb_lt in Hneg.
    rewrite (wrap_int_id (- i)) by (unfold int_min, int_max; lia).
    rewrite intToStr_loop_pretty
      by (unfold int_max; cbn; lia).
    destruct i as [|q|q]; try lia. cbn [Z.opp].
    unfold pretty, pretty_Z, pretty, pretty_positive, pretty, pretty_N.
    cbn [Z.to_N]. by rewrite decide_False by lia.
  - apply Z.ltb_ge in Hneg.
    rewrite intToStr_loop_pretty by (unfold int_max; cbn; lia).
    destruct i as [|q|q]; try lia.
    unfold pretty, pretty_Z, pretty, pretty_positive, pretty, pretty_N.
    cbn [Z.to_N]. by rewrite decide_False by lia.
Qed.

Lemma intToStr_decimal_witness :
  intToStr 443 = if 443 =? int_min then "-" else fmt_d 443.
Proof.
  apply (intToStr_decimal 443). unfold int_min, int_max. lia.
Defined.

(** ** Narrowing a search *)

Lemma string_app_cons x (a b : string) :
  String x a +:+ b = String x (a +:+ b).
Proof. reflexivity. Qed.

Lemma string_app_nil_l (b : string) : "" +:+ b = b.
Proof. reflexivity. Qed.

Lemma string_app_assoc (a b c : string) : (a +:+ b) +:+ c = a +:+ (b +:+ c).
Proof.
  induction a as [|x a IH]; [done|]. rewrite !string_app_cons. by f_equal.
Qed.

Lemma prefix_app (a s : string) :
  String.prefix a s = true <-> exists post, s = a +:+ post.
Proof.
  revert s. induction a as [|x a IH]; intros s.
  - destruct s; cbn [String.prefix]; split; eauto.
  - destruct s as [|y s]; cbn [String.prefix].
    + split; [done|]. by intros [post ?].
    + destruct (ascii_dec x y) as [->|Hne].
      * rewrite IH. split; intros [post Hp]; exists post;
          rewrite string_app_cons in *; congruence.
      * split; [done|]. intros [post Hp].
        rewrite string_app_cons in Hp. congruence.
Qed.

(** [strings.Contains]: the substring occurs somewhere in the string. *)
Lemma Contains_occurs (s sub : string) :
  GoStrings.Contains s sub = true <->
  exists pre post, s = pre +:+ (sub +:+ post).
Proof.
  split.
  - induction s as [|x s IH]; cbn [GoStrings.Contains].
    + rewrite orb_false_r. intros [post Hp]%prefix_app. by exists "", post.
    + intros [[post Hp]%prefix_app|Hrest]%orb_true_iff.
      * by exists "", post.
      * destruct (IH Hrest) as (pre & post & ->). by exists (String x pre), post.
  - intros (pre & post & ->). induction pre as [|x pre IH].
    + rewrite string_app_nil_l.
      assert (String.prefix sub (sub +:+ post) = true) as Hp
        by (apply prefix_app; eauto).
      destruct (sub +:+ post); cbn [GoStrings.Contains]; by rewrite Hp.
    + rewrite string_app_cons. cbn [GoStrings.Contains].
      by rewrite IH, orb_true_r.
Qed.

Lemma Contains_trans (s q' q : string) :
  GoStrings.Contains s q' = true -> GoStrings.Contains q' q = true ->
  GoStrings.Contains s q = true.
Proof.
  intros (pre & post & ->)%Contains_occurs (pre' & post' & ->)%Contains_occurs.
  apply Contains_occurs. exists (pre +:+ pre'), (post' +:+ post).
  by rewrite !string_app_assoc.
Qed.

Lemma map_bytes_app f (a b : string) :
  GoStrings.map_bytes f (a +:+ b)
    = GoStrings.map_bytes f a +:+ GoStrings.map_bytes f b.
Proof.
  induction a as [|x a IH]; [done|].
  rewrite string_app_cons. cbn [GoStrings.map_bytes].
  rewrite string_app_cons. by f_equal.
Qed.

Lemma all_ascii_app (a b : string) :
  GoStrings.all_ascii (a +:+ b)
    = GoStrings.all_ascii a && GoStrings.all_ascii b.
Proof.
  induction a as [|x a IH]; [done|].
  rewrite string_app_cons. cbn [GoStrings.all_ascii].
  rewrite IH. by rewrite andb_assoc.
Qed.

Lemma ToLower_Contains lower (q' q : string) :
  GoStrings.all_ascii q' = true -> GoStrings.Contains q' q = true ->
  GoStrings.Contains (GoStrings.ToLower lower q') (GoStrings.ToLower lower q)
    = true.
Proof.
  intros Hascii (pre & post & ->)%Contains_occurs.
  rewrite !all_ascii_app in Hascii.
  apply andb_true_iff in Hascii as [Hpre [Hq Hpost]%andb_true_iff].
  unfold GoStrings.ToLower.
  rewrite !all_ascii_app, Hpre, Hq, Hpost. cbn [andb].
  rewrite !map_bytes_app. apply Contains_occurs. eauto.
Qed.

Lemma Search_records lower query w :
  wf w ->
  deref (heap (Search lower query w).2) (Search lower query w).1 =
    if String.eqb query "" then live_records w
    else List.filter (matches lower (GoStrings.ToLower lower query))
                     (live_records w).
Proof.
  intros Hwf. destruct (String.eqb_spec query "") as [->|Hne].
  - cbn [Search String.eqb]. rewrite (Snapshot_eq w Hwf). cbn [fst snd heap].
    apply deref_fresh.
  - rewrite (Search_eq lower query w Hwf Hne). cbn [fst snd heap].
    apply deref_fresh.
Qed.

(** X11.  Typing more never widens a search: when the query [q] occurs in
    the ASCII query [q'], every record that [Search] returns for [q'] it
    also returns for [q] (for the empty [q]: is in the snapshot). *)
Theorem Search_narrows lower q q' w c :
  wf w ->
  GoStrings.all_ascii q' = true ->
  GoStrings.Contains q' q = true ->
  c ∈ deref (heap (Search lower q' w).2) (Search lower q' w).1 ->
  c ∈ deref (heap (Search lower q w).2) (Search lower q w).1.
Proof.
  intros Hwf Hascii Hsub. rewrite !Search_records by done.
  destruct (String.eqb_spec q' "") as [->|Hq'].
  - destruct q; [done|]. by cbn in Hsub.
  - intros [Hlive Hmatch]%list_elem_of_In%filter_In.
    destruct (String.eqb_spec q "") as [->|Hq]; [by apply list_elem_of_In|].
    apply list_elem_of_In, filter_In. split; [done|].
    unfold matches in *. eapply Contains_trans; [exact Hmatch|].
    by apply ToLower_Contains.
Qed.

Lemma Search_narrows_witness :
  Scenario.record1
    ∈ deref (heap (Search (fun s => s) "hro" Scenario.world1).2)
            (Search (fun s => s) "hro" Scenario.world1).1.
Proof.
  apply (Search_narrows (fun s => s) "hro" "Chrom" Scenario.world1
           Scenario.record1).
  - apply Scenario_wf.
  - reflexivity.
  - reflexivity.
  - assert (deref (heap (Search (fun s => s) "Chrom" Scenario.world1).2)
                  (Search (fun s => s) "Chrom" Scenario.world1).1
            = [Scenario.record1]) as -> by (vm_compute; reflexivity).
    apply elem_of_cons. by left.
Defined.

(** * The table of the terminal interface *)

(** ** Cutting and padding cells *)

Lemma string_length_app (a b : string) :
  String.length (a +:+ b) = (String.length a + String.length b)%nat.
Proof.
  induction a as [|x a IH]; [done|].
  rewrite string_app_cons. cbn [String.length]. by rewrite IH.
Qed.

Lemma substring_length n (s : string) :
  (n <= String.length s)%nat -> String.length (String.substring 0 n s) = n.
Proof.
  revert s. induction n as [|n IH]; intros s Hn.
  - by destruct s.
  - destruct s as [|x s]; cbn in *; [lia|]. rewrite IH; [done|lia].
Qed.

Lemma substring_prefix n (s : string) :
  String.prefix (String.substring 0 n s) s = true.
Proof.
  revert s. induction n as [|n IH]; intros s.
  - by destruct s.
  - destruct s as [|x s]; cbn; [done|].
    destruct (ascii_dec x x); [apply IH|done].
Qed.

Lemma substring_app (a b : string) :
  String.substring 0 (String.length a) (a +:+ b) = a.
Proof.
  induction a as [|x a IH]; [by destruct b|].
  rewrite string_app_cons. cbn. by rewrite IH.
Qed.

Lemma repeat_string_length n :
  String.length (Tui.repeat_string " " n) = n.
Proof.
  induction n as [|n IH]; [done|].
  cbn [Tui.repeat_string]. rewrite string_length_app, IH. done.
Qed.

Lemma slice_to_Some (s : string) n :
  0 <= n <= Z.of_nat (String.length s) ->
  Tui.slice_to s n = Some (String.substring 0 (Z.to_nat n) s).
Proof.
  intros Hn. unfold Tui.slice_to.
  destruct (n <? 0) eqn:H0; [apply Z.ltb_lt in H0; lia|].
  destruct (Z.of_nat (String.length s) <? n) eqn:H1;
    [apply Z.ltb_lt in H1; lia|done].
Qed.

Lemma Repeat_spaces can_alloc count :
  0 <= count <= int_max ->
  (forall r, Tui.Repeat can_alloc " " count = Some r ->
     Z.of_nat (String.length r) = count) /\
  ((forall n, 0 < n <= count -> can_alloc n = true) ->
   exists r, Tui.Repeat can_alloc " " count = Some r) /\
  (2 <= count -> can_alloc count = false ->
   Tui.Repeat can_alloc " " count = None).
Proof.
  unfold int_max. intros Hc. unfold Tui.Repeat.
  destruct (count =? 0) eqn:H0.
  { apply Z.eqb_eq in H0. subst count.
    split; [by intros r [= <-]|]. split; [by eauto|lia]. }
  apply Z.eqb_neq in H0.
  destruct (count =? 1) eqn:H1.
  { apply Z.eqb_eq in H1. subst count.
    split; [by intros r [= <-]|]. split; [by eauto|lia]. }
  apply Z.eqb_neq in H1.
  destruct (count <? 0) eqn:Hneg; [apply Z.ltb_lt in Hneg; lia|].
  cbn [String.length]. change (Z.of_nat 1) with 1.
  rewrite Z.mul_1_l. cbn zeta.
  destruct (int_max <? count) eqn:Hover;
    [apply Z.ltb_lt in Hover; unfold int_max in Hover; lia|].
  change (1 =? 0) with false. cbn match.
  destruct (can_alloc count) eqn:Halloc.
  - split; [|split; [by eauto|done]].
    intros r [= <-]. rewrite repeat_string_length. lia.
  - split; [done|]. split; [|done].
    intros Hall. rewrite Hall in Halloc by lia. done.
Qed.

Lemma concat_Some can_alloc (a b r : string) :
  Tui.concat can_alloc a b = Some r -> r = a +:+ b.
Proof.
  unfold Tui.concat. destruct (_ || _); [by intros [= <-]|]. cbn zeta.
  destruct (int_max <? _); [done|].
  destruct (can_alloc _); [by intros [= <-]|done].
Qed.

Lemma substring_full (s : string) :
  String.substring 0 (String.length s) s = s.
Proof. induction s as [|x s IH]; [done|]. cbn. by rewrite IH. Qed.

(** What [padRight] returns, when it returns. *)
Lemma padRight_Some can_alloc (s : string) width r :
  int_min <= width <= int_max ->
  Tui.padRight can_alloc s width = Some r ->
  0 <= width /\
  Z.of_nat (String.length r) = width /\
  (Z.of_nat (String.length s) <= width -> exists pad, r = s +:+ pad) /\
  (width <= Z.of_nat (String.length s) -> String.prefix r s = true).
Proof.
  unfold int_min, int_max. intros Hw. unfold Tui.padRight.
  destruct (width <=? Z.of_nat (String.length s)) eqn:Hle.
  - apply Z.leb_le in Hle. unfold Tui.slice_to.
    destruct (width <? 0) eqn:Hneg; [done|]. apply Z.ltb_ge in Hneg.
    destruct (Z.of_nat (String.length s) <? width) eqn:Hlong;
      [apply Z.ltb_lt in Hlong; lia|].
    cbn [orb]. intros [= <-]. split; [done|]. split; [|split].
    + rewrite substring_length; lia.
    + intros Hge. assert (Z.to_nat width = String.length s) as -> by lia.
      exists "". rewrite substring_full. clear.
      induction s as [|x s IH]; [done|]. rewrite string_app_cons. by f_equal.
    + intros _. apply substring_prefix.
  - apply Z.leb_gt in Hle.
    rewrite wrap_int_id by (unfold int_min, int_max; lia).
    destruct (Repeat_spaces can_alloc
                (width - Z.of_nat (String.length s))) as (Hlen & _ & _);
      [unfold int_max; lia|].
    destruct (Tui.Repeat can_alloc " " _) as [pad|]; [|done].
    intros ->%concat_Some. specialize (Hlen pad eq_refl).
    split; [lia|]. split; [|split].
    + rewrite string_length_app. lia.
    + intros _. eauto.
    + intros Hge. lia.
Qed.

(** [padRight] returns when its buffers can be had. *)
Lemma padRight_returns can_alloc (s : string) width :
  0 <= width <= int_max ->
  (forall n, 0 < n <= width -> can_alloc n = true) ->
  exists r, Tui.padRight can_alloc s width = Some r.
Proof.
  unfold int_max. intros Hw Hall. unfold Tui.padRight.
  destruct (width <=? Z.of_nat (String.length s)) eqn:Hle.
  - apply Z.leb_le in Hle. rewrite slice_to_Some by lia. eauto.
  - apply Z.leb_gt in Hle.
    rewrite wrap_int_id by (unfold int_min, int_max; lia).
    destruct (Repeat_spaces can_alloc
                (width - Z.of_nat (String.length s)))
      as (Hlen & Hret & _); [unfold int_max; lia|].
    destruct Hret as [pad Hpad]; [intros n Hn; apply Hall; lia|].
    rewrite Hpad. specialize (Hlen pad Hpad).
    unfold Tui.concat. destruct (_ || _); [by eauto|]. cbn zeta.
    destruct (int_max <? _) eqn:Hover;
      [apply Z.ltb_lt in Hover; unfold int_max in Hover; lia|].
    rewrite Hall by lia. eauto.
Qed.



(** The cell of seven bytes, and the width at which the padding cannot
    be allocated. *)
Lemma padRight_examples :
  Tui.padRight Scenario3.can_alloc "PID" 7 = Some "PID    " /\
  Tui.padRight Scenario3.can_alloc "" 4611686018427387904 = None.
Proof. split; vm_compute; reflexivity. Qed.

Lemma truncate_truncStr s maxLen : Tui.truncStr s maxLen = Tui.truncate s maxLen.
Proof. reflexivity. Qed.

Lemma truncate_total (s : string) maxLen :
  int_min <= maxLen <= int_max ->
  exists r,
    Tui.truncate s maxLen = Some r /\
    Z.of_nat (String.length r) <= Z.max 0 maxLen /\
    (0 < maxLen -> Z.of_nat (String.length s) <= maxLen -> r = s).
Proof.
  unfold int_min, int_max. intros Hm. unfold Tui.truncate.
  destruct (maxLen <=? 0) eqn:H0.
  { apply Z.leb_le in H0. exists "". split; [done|].
    repeat split; intros; cbn [String.length]; lia. }
  apply Z.leb_gt in H0.
  destruct (Z.of_nat (String.length s) <=? maxLen) eqn:Hfit.
  { apply Z.leb_le in Hfit. exists s. split; [done|].
    repeat split; intros; try done; lia. }
  apply Z.leb_gt in Hfit.
  destruct (maxLen <? 4) eqn:H4.
  - apply Z.ltb_lt in H4. rewrite slice_to_Some by lia.
    eexists. split; [done|]. rewrite substring_length by lia.
    repeat split; intros; lia.
  - apply Z.ltb_ge in H4.
    rewrite wrap_int_id by (unfold int_min, int_max; lia).
    rewrite slice_to_Some by lia.
    eexists. split; [done|].
    rewrite string_length_app, substring_length by lia. cbn [String.length].
    repeat split; intros; lia.
Qed.

(** X13.  [truncate] (and [truncStr], which has the same body) never
    slices out of range; its result is never longer than [maxLen], is the
    string itself when that fits, and otherwise, for a [maxLen] of 4 or
    more, is the first [maxLen - 3] bytes of the string followed by three
    dots. *)
Theorem truncate_fits (s : string) maxLen :
  int_min <= maxLen <= int_max ->
  exists r,
    Tui.truncate s maxLen = Some r /\
    Z.of_nat (String.length r) <= Z.max 0 maxLen /\
    (0 < maxLen -> Z.of_nat (String.length s) <= maxLen -> r = s) /\
    (4 <= maxLen -> maxLen < Z.of_nat (String.length s) ->
     r = String.substring 0 (Z.to_nat (maxLen - 3)) s +:+ "..." /\
     Z.of_nat (String.length r) = maxLen).
Proof.
  intros Hm. destruct (truncate_total s maxLen Hm) as (r & Hr & Hlen & Hfit).
  exists r. split; [done|]. split; [done|]. split; [done|].
  intros H4 Hlong. unfold int_min, int_max in Hm. unfold Tui.truncate in Hr.
  destruct (maxLen <=? 0) eqn:H0; [apply Z.leb_le in H0; lia|].
  destruct (Z.of_nat (String.length s) <=? maxLen) eqn:Hs;
    [apply Z.leb_le in Hs; lia|].
  destruct (maxLen <? 4) eqn:Hlt; [apply Z.ltb_lt in Hlt; lia|].
  rewrite wrap_int_id in Hr by (unfold int_min, int_max; lia).
  rewrite slice_to_Some in Hr by lia. injection Hr as <-.
  split; [done|].
  rewrite string_length_app, substring_length by lia. cbn [String.length]. lia.
Qed.

Lemma truncate_fits_witness :
  exists r,
    Tui.truncate "93.184.216.34:443" 10 = Some r /\
    Z.of_nat (String.length r) <= Z.max 0 10 /\
    (0 < 10 -> Z.of_nat (String.length "93.184.216.34:443") <= 10 ->
     r = "93.184.216.34:443") /\
    (4 <= 10 -> 10 < Z.of_nat (String.length "93.184.216.34:443") ->
     r = String.substring 0 (Z.to_nat (10 - 3)) "93.184.216.34:443" +:+ "..." /\
     Z.of_nat (String.length r) = 10).
Proof.
  apply (truncate_fits "93.184.216.34:443" 10). unfold int_min, int_max. lia.
Defined.

(** X14.  A plain cell of a row, [padRight(truncStr(s, col), col)], for
    a column width from 0 on: whenever it is built it is exactly [col]
    bytes wide and begins with the whole text when the text fits, and it
    is built whenever the run time can allocate buffers of up to [col]
    bytes. *)
Theorem cell_fills_column can_alloc (s : string) col :
  0 <= col <= int_max ->
  (forall r, Tui.cell can_alloc s col = Some r ->
     Z.of_nat (String.length r) = col /\
     (0 < col -> Z.of_nat (String.length s) <= col ->
      exists pad, r = s +:+ pad)) /\
  ((forall n, 0 < n <= col -> can_alloc n = true) ->
   exists r, Tui.cell can_alloc s col = Some r).
Proof.
  intros Hc. unfold Tui.cell. rewrite truncate_truncStr.
  destruct (truncate_total s col) as (t & -> & Hlen & Hfit);
    [unfold int_min, int_max in *; lia|].
  split.
  - intros r Hr.
    apply padRight_Some in Hr as (_ & Hr & Hshort & _);
      [|unfold int_min, int_max in *; lia].
    split; [done|].
    intros Hpos Hs. rewrite (Hfit Hpos Hs) in *. apply Hshort. lia.
  - intros Hall. by apply padRight_returns.
Qed.

Lemma cell_fills_column_witness :
  (forall r, Tui.cell Scenario3.can_alloc "Chrome" 18 = Some r ->
     Z.of_nat (String.length r) = 18 /\
     (0 < 18 -> Z.of_nat (String.length "Chrome") <= 18 ->
      exists pad, r = "Chrome" +:+ pad)) /\
  ((forall n, 0 < n <= 18 -> Scenario3.can_alloc n = true) ->
   exists r, Tui.cell Scenario3.can_alloc "Chrome" 18 = Some r).
Proof.
  apply (cell_fills_column Scenario3.can_alloc "Chrome" 18).
  unfold int_max. lia.
Defined.

(** ** Keys *)

Section TuiKeys.

Variable lower : string -> string.
Variable SliceStable : (nat -> nat -> bool) -> list nat -> list nat.

Lemma visibleRows_bounds m : 1 <= Tui.visibleRows m <= int_max.
Proof.
  unfold Tui.visibleRows, Tui.maxInt, wrap_int, int_max.
  pose proof (Z.mod_pos_bound (Tui.height m - 6 + 9223372036854775808)
                18446744073709551616 ltac:(lia)).
  destruct (_ <? _) eqn:H1; [lia|]. apply Z.ltb_ge in H1. lia.
Qed.

(** A model whose cursor and offset are 0 has its cursor in view. *)
Lemma in_view_reset m :
  Tui.cursor m = 0 -> Tui.offset m = 0 -> Tui.in_view m.
Proof.
  intros Hc Ho. pose proof (visibleRows_bounds m).
  unfold Tui.in_view. rewrite Hc, Ho. unfold Tui.maxInt.
  destruct (_ <? 0) eqn:Hr; [|apply Z.ltb_ge in Hr]; lia.
Qed.

(** Being in view depends on the cursor, the offset, the height and the
    number of rows only. *)
Lemma in_view_same m m' :
  Tui.cursor m' = Tui.cursor m -> Tui.offset m' = Tui.offset m ->
  Tui.height m' = Tui.height m ->
  length (Tui.connections m') = length (Tui.connections m) ->
  Tui.in_view m -> Tui.in_view m'.
Proof.
  unfold Tui.in_view, Tui.visibleRows, Tui.rows.
  by intros -> -> -> ->.
Qed.

Lemma refresh_fields m w :
  Tui.cursor (Tui.refresh lower SliceStable m w).1 = Tui.cursor m /\
  Tui.offset (Tui.refresh lower SliceStable m w).1 = Tui.offset m /\
  Tui.filter (Tui.refresh lower SliceStable m w).1 = Tui.filter m.
Proof.
  unfold Tui.refresh.
  by destruct (if negb (String.eqb (Tui.filter m) "") then _ else _).
Qed.

Lemma in_view_up m :
  Tui.in_view m -> 0 < Tui.cursor m ->
  Tui.in_view
    (Tui.with_cursor (wrap_int (Tui.cursor m - 1))
       (if wrap_int (Tui.cursor m - 1) <? Tui.offset m
        then wrap_int (Tui.cursor m - 1) else Tui.offset m) m).
Proof.
  intros (H0 & H1 & H2 & H3 & H4) Hpos.
  pose proof (visibleRows_bounds m) as HV. unfold int_max in *.
  rewrite wrap_int_id by (unfold int_min, int_max; lia).
  unfold Tui.in_view, Tui.visibleRows, Tui.rows in *.
  cbn [Tui.cursor Tui.offset Tui.height Tui.connections Tui.with_cursor].
  destruct (_ <? Tui.offset m) eqn:Hlt;
    [apply Z.ltb_lt in Hlt|apply Z.ltb_ge in Hlt]; unfold int_max; lia.
Qed.

Lemma in_view_down m :
  Tui.in_view m -> Tui.rows m <= int_max ->
  Tui.cursor m < wrap_int (Tui.rows m - 1) ->
  Tui.in_view
    (Tui.with_cursor (wrap_int (Tui.cursor m + 1))
       (if wrap_int (Tui.offset m + Tui.visibleRows m)
           <=? wrap_int (Tui.cursor m + 1)
        then wrap_int (wrap_int (wrap_int (Tui.cursor m + 1)
                                 - Tui.visibleRows m) + 1)
        else Tui.offset m) m).
Proof.
  intros (H0 & H1 & H2 & H3 & H4) Hrows Hlt.
  pose proof (visibleRows_bounds m) as HV. unfold int_max in *.
  assert (0 <= Tui.rows m) by (unfold Tui.rows; lia).
  rewrite (wrap_int_id (Tui.rows m - 1)) in Hlt
    by (unfold int_min, int_max; lia).
  rewrite (wrap_int_id (Tui.cursor m + 1)) by (unfold int_min, int_max; lia).
  rewrite (wrap_int_id (Tui.offset m + _)) by (unfold int_min, int_max; lia).
  rewrite (wrap_int_id (Tui.cursor m + 1 - _))
    by (unfold int_min, int_max; lia).
  rewrite (wrap_int_id (Tui.cursor m + 1 - _ + 1))
    by (unfold int_min, int_max; lia).
  unfold Tui.in_view, Tui.maxInt in *.
  change (Tui.visibleRows (Tui.with_cursor ?c ?o m)) with (Tui.visibleRows m).
  change (Tui.rows (Tui.with_cursor ?c ?o m)) with (Tui.rows m).
  cbn [Tui.cursor Tui.offset Tui.with_cursor].
  destruct (Tui.rows m - 1 <? 0) eqn:Hr;
    [apply Z.ltb_lt in Hr|apply Z.ltb_ge in Hr];
    (destruct (_ <=? Tui.cursor m + 1) eqn:Hle;
     [apply Z.leb_le in Hle|apply Z.leb_gt in Hle]); unfold int_max; lia.
Qed.

Lemma in_view_end m :
  Tui.in_view m -> Tui.rows m <= int_max ->
  Tui.in_view
    (Tui.with_cursor (Tui.maxInt 0 (wrap_int (Tui.rows m - 1)))
       (if Tui.visibleRows m <=? Tui.maxInt 0 (wrap_int (Tui.rows m - 1))
        then wrap_int (wrap_int (Tui.maxInt 0 (wrap_int (Tui.rows m - 1))
                                 - Tui.visibleRows m) + 1)
        else Tui.offset m) m).
Proof.
  intros (H0 & H1 & H2 & H3 & H4) Hrows.
  pose proof (visibleRows_bounds m) as HV. unfold int_max in *.
  assert (0 <= Tui.rows m) by (unfold Tui.rows; lia).
  rewrite (wrap_int_id (Tui.rows m - 1)) by (unfold int_min, int_max; lia).
  unfold Tui.in_view, Tui.maxInt in *.
  change (Tui.visibleRows (Tui.with_cursor ?c ?o m)) with (Tui.visibleRows m).
  change (Tui.rows (Tui.with_cursor ?c ?o m)) with (Tui.rows m).
  cbn [Tui.cursor Tui.offset Tui.with_cursor].
  destruct (Tui.rows m - 1 <? 0) eqn:Hr;
    [apply Z.ltb_lt in Hr|apply Z.ltb_ge in Hr].
  - destruct (_ <=? 0) eqn:Hle;
      [apply Z.leb_le in Hle|apply Z.leb_gt in Hle]; unfold int_max; lia.
  - destruct (_ <=? Tui.rows m - 1) eqn:Hle;
      [apply Z.leb_le in Hle|apply Z.leb_gt in Hle].
    + rewrite (wrap_int_id (Tui.rows m - 1 - _))
        by (unfold int_min, int_max; lia).
      rewrite wrap_int_id by (unfold int_min, int_max; lia).
      unfold int_max; lia.
    + unfold int_max; lia.
Qed.

Lemma in_view_toggleSort field h m :
  (forall f l, length (SliceStable f l) = length l) ->
  Tui.in_view m -> Tui.in_view (Tui.toggleSort lower SliceStable field h m).
Proof.
  intros Hlen. apply in_view_same; try done.
  - unfold Tui.toggleSort. by destruct (Tui.SortField_eqb _ _).
  - unfold Tui.toggleSort. by destruct (Tui.SortField_eqb _ _).
  - unfold Tui.toggleSort. by destruct (Tui.SortField_eqb _ _).
  - unfold Tui.toggleSort, Tui.sortConnections.
    cbn [Tui.connections Tui.with_connections].
    rewrite Hlen. by destruct (Tui.SortField_eqb _ _).
Qed.

Lemma in_view_refresh_reset m w :
  Tui.cursor m = 0 -> Tui.offset m = 0 ->
  Tui.in_view (Tui.refresh lower SliceStable m w).1.
Proof.
  intros Hc Ho. destruct (refresh_fields m w) as (Hc' & Ho' & _).
  apply in_view_reset; congruence.
Qed.

(** X15.  Every key press other than [r] outside search mode keeps the
    cursor in view: on a row of the table and inside the visible window.
    (The sort is only assumed to keep the length of the slice.) *)
Theorem handleKey_keeps_cursor_in_view key m w :
  (forall f l, length (SliceStable f l) = length l) ->
  Tui.rows m <= int_max ->
  Tui.searching m = true \/ key ≠ "r" ->
  Tui.in_view m ->
  Tui.in_view (Tui.handleKey lower SliceStable key m w).1.1.
Proof.
  intros Hlen Hrows Hkey Hin. unfold Tui.handleKey.
  destruct (Tui.searching m) eqn:Hs.
  - unfold Tui.handleSearchKey.
    destruct (String.eqb key "enter").
    { pose proof (in_view_refresh_reset
                    (Tui.with_cursor 0 0 (Tui.with_searching false m)) w
                    eq_refl eq_refl) as Hr.
      by destruct (Tui.refresh _ _ _ _). }
    destruct (String.eqb key "esc"); [done|].
    destruct (String.eqb key "backspace").
    { destruct (0 <? _); [|done]. by destruct (Tui.slice_to _ _). }
    by destruct (_ =? 1).
  - destruct Hkey as [?|Hr]; [done|].
    apply String.eqb_neq in Hr.
    destruct (String.eqb key "q" || String.eqb key "ctrl+c"); [done|].
    destruct (String.eqb key "/"); [done|].
    destruct (String.eqb key "up" || String.eqb key "k").
    { destruct (0 <? Tui.cursor m) eqn:Hpos; [|done].
      apply Z.ltb_lt in Hpos. by apply in_view_up. }
    destruct (String.eqb key "down" || String.eqb key "j").
    { destruct (Tui.cursor m <? _) eqn:Hlt; [|done].
      apply Z.ltb_lt in Hlt. by apply in_view_down. }
    destruct (String.eqb key "home" || String.eqb key "g");
      [by apply in_view_reset|].
    destruct (String.eqb key "end" || String.eqb key "G");
      [by apply in_view_end|].
    destruct (String.eqb key "1"); [by apply in_view_toggleSort|].
    destruct (String.eqb key "2"); [by apply in_view_toggleSort|].
    destruct (String.eqb key "3"); [by apply in_view_toggleSort|].
    destruct (String.eqb key "4"); [by apply in_view_toggleSort|].
    destruct (String.eqb key "5"); [by apply in_view_toggleSort|].
    destruct (String.eqb key "6"); [by apply in_view_toggleSort|].
    destruct (String.eqb key "p"); [done|].
    rewrite Hr.
    destruct (String.eqb key "c").
    { pose proof (in_view_refresh_reset
                    (Tui.with_cursor 0 0 (Tui.with_filter "" m)) w
                    eq_refl eq_refl) as Hc.
      by destruct (Tui.refresh _ _ _ _). }
    by destruct (String.eqb key "?").
Qed.

Lemma handleKey_typing key m w :
  Tui.searching m = true ->
  String.length key = 1%nat ->
  Tui.handleKey lower SliceStable key m w
    = (Tui.with_filter (Tui.filter m +:+ key) m, w, Tui.NoCmd).
Proof.
  intros Hs Hkey. unfold Tui.handleKey. rewrite Hs.
  unfold Tui.handleSearchKey.
  assert (String.eqb key "enter" = false) as ->
    by (apply String.eqb_neq; intros ->; discriminate).
  assert (String.eqb key "esc" = false) as ->
    by (apply String.eqb_neq; intros ->; discriminate).
  assert (String.eqb key "backspace" = false) as ->
    by (apply String.eqb_neq; intros ->; discriminate).
  by rewrite Hkey.
Qed.

Lemma handleKey_backspace m w :
  Tui.searching m = true ->
  0 < Z.of_nat (String.length (Tui.filter m)) <= int_max ->
  Tui.handleKey lower SliceStable "backspace" m w
    = (Tui.with_filter
         (String.substring 0 (String.length (Tui.filter m) - 1) (Tui.filter m))
         m, w, Tui.NoCmd).
Proof.
  intros Hs Hlen. unfold int_max in Hlen. unfold Tui.handleKey. rewrite Hs.
  unfold Tui.handleSearchKey. cbn [String.eqb Ascii.eqb Bool.eqb].
  destruct (0 <? _) eqn:Hpos; [|apply Z.ltb_ge in Hpos; lia].
  rewrite wrap_int_id by (unfold int_min, int_max; lia).
  rewrite slice_to_Some by lia.
  by replace (Z.to_nat (Z.of_nat (String.length (Tui.filter m)) - 1))
    with (String.length (Tui.filter m) - 1)%nat by lia.
Qed.

(** X16.  In search mode, typing a one-byte key and then pressing
    backspace gives back the model as it was: the byte is appended to the
    filter and removed again, nothing else changes, and the tracker is not
    consulted. *)
Theorem backspace_undoes_typing key m w :
  Tui.searching m = true ->
  String.length key = 1%nat ->
  Z.of_nat (String.length (Tui.filter m)) < int_max ->
  Tui.handleKey lower SliceStable "backspace"
    (Tui.handleKey lower SliceStable key m w).1.1
    (Tui.handleKey lower SliceStable key m w).1.2
  = (m, w, Tui.NoCmd).
Proof.
  intros Hs Hkey Hlen. unfold int_max in Hlen.
  rewrite (handleKey_typing key m w Hs Hkey). cbn [fst snd].
  rewrite handleKey_backspace.
  - cbn [Tui.filter Tui.with_filter]. rewrite string_length_app, Hkey.
    replace (String.length (Tui.filter m) + 1 - 1)%nat
      with (String.length (Tui.filter m)) by lia.
    rewrite substring_app. by destruct m.
  - done.
  - cbn [Tui.filter Tui.with_filter]. rewrite string_length_app, Hkey.
    unfold int_max. lia.
Qed.

End TuiKeys.

(** ** The order of the rows *)

Lemma SFcompare_antisym a b :
  SFcompare b a = option_map CompOpp (SFcompare a b).
Proof.
  destruct a as [sa|sa| |sa ma ea], b as [sb|sb| |sb mb eb];
    try destruct sa; try destruct sb; cbn; try reflexivity;
    rewrite (Z.compare_antisym ea eb); destruct (ea ?= eb); cbn;
    try reflexivity;
    pose proof (Pos.compare_cont_antisym ma mb Eq) as Hcont;
    cbn in Hcont; rewrite <-Hcont;
    by destruct (Pos.compare_cont Eq ma mb).
Qed.

Lemma SFltb_asym a b : SFltb a b = true -> SFltb b a = false.
Proof.
  unfold SFltb. rewrite (SFcompare_antisym a b).
  by destruct (SFcompare a b) as [[]|].
Qed.

Lemma compareFloat_antisym a b :
  Tui.compareFloat b a = - Tui.compareFloat a b /\
  (Tui.compareFloat a b = -1 \/ Tui.compareFloat a b = 0 \/
   Tui.compareFloat a b = 1).
Proof.
  unfold Tui.compareFloat, Float64.ltb.
  pose proof (SFltb_asym a b). pose proof (SFltb_asym b a).
  destruct (SFltb a b), (SFltb b a); intuition (try discriminate; auto).
Qed.

Lemma compareDuration_antisym a b :
  Tui.compareDuration b a = - Tui.compareDuration a b /\
  (Tui.compareDuration a b = -1 \/ Tui.compareDuration a b = 0 \/
   Tui.compareDuration a b = 1).
Proof.
  unfold Tui.compareDuration.
  destruct (a <? b) eqn:H1, (b <? a) eqn:H2; auto.
  apply Z.ltb_lt in H1, H2. lia.
Qed.

Lemma Compare_antisym a b :
  Tui.Compare b a = - Tui.Compare a b /\
  (Tui.Compare a b = -1 \/ Tui.Compare a b = 0 \/ Tui.Compare a b = 1).
Proof.
  unfold Tui.Compare. rewrite (String.compare_antisym b a).
  destruct (String.compare a b); auto.
Qed.

(** X17.  The order [sortConnections] sorts by never puts each of two rows
    before the other, whatever the sort column and direction, and also
    when a loss or a rate is not a number. *)
Theorem less_asymmetric lower field asc a b :
  Tui.less lower field asc a b = true ->
  Tui.less lower field asc b a = false.
Proof.
  unfold Tui.less.
  assert (exists c,
    match field with
    | Tui.SortApp =>
        Tui.Compare (GoStrings.ToLower lower (AppName a))
                    (GoStrings.ToLower lower (AppName b))
    | Tui.SortPing => Tui.compareDuration (Ping a) (Ping b)
    | Tui.SortLoss => Tui.compareFloat (Loss a) (Loss b)
    | Tui.SortTxRate => Tui.compareFloat (TxRate a) (TxRate b)
    | Tui.SortRxRate => Tui.compareFloat (RxRate a) (RxRate b)
    | Tui.SortState => Tui.Compare (State a) (State b)
    end = c /\
    match field with
    | Tui.SortApp =>
        Tui.Compare (GoStrings.ToLower lower (AppName b))
                    (GoStrings.ToLower lower (AppName a))
    | Tui.SortPing => Tui.compareDuration (Ping b) (Ping a)
    | Tui.SortLoss => Tui.compareFloat (Loss b) (Loss a)
    | Tui.SortTxRate => Tui.compareFloat (TxRate b) (TxRate a)
    | Tui.SortRxRate => Tui.compareFloat (RxRate b) (RxRate a)
    | Tui.SortState => Tui.Compare (State b) (State a)
    end = - c /\
    (c = -1 \/ c = 0 \/ c = 1)) as (c & -> & -> & Hc).
  { destruct field; eexists; (split; [reflexivity|]);
      first [apply Compare_antisym|apply compareDuration_antisym
            |apply compareFloat_antisym]. }
  rewrite (String.eqb_sym (Direction b) (Direction a)).
  destruct (String.eqb_spec (Direction a) (Direction b)) as [Heq|Hne];
    destruct (String.eqb_spec (Direction b) Outbound) as [Hb|Hb];
    destruct (String.eqb_spec (Direction a) Outbound) as [Ha|Ha];
    destruct asc; destruct Hc as [-> | [-> | ->]]; vm_compute; congruence.
Qed.

Lemma less_asymmetric_witness :
  Tui.less (fun s => s) Tui.SortLoss false
    Scenario.record1 Scenario2.record1_probed = false.
Proof.
  apply (less_asymmetric (fun s => s) Tui.SortLoss false
           Scenario2.record1_probed Scenario.record1).
  vm_compute. reflexivity.
Defined.

Lemma insert_sorted_length less x l :
  length (Scenario3.insert_sorted less x l) = S (length l).
Proof.
  induction l as [|y l IH]; [done|].
  cbn [Scenario3.insert_sorted]. destruct (less y x); cbn [length]; lia.
Qed.

Lemma insertion_sort_length less l :
  length (Scenario3.insertion_sort less l) = length l.
Proof.
  induction l as [|x l IH]; [done|].
  unfold Scenario3.insertion_sort in *. cbn [foldr length].
  by rewrite insert_sorted_length, IH.
Qed.

Lemma handleKey_keeps_cursor_in_view_witness :
  Tui.in_view
    (Tui.handleKey (fun s => s) Scenario3.insertion_sort "down"
       Scenario3.three_rows Scenario.world1).1.1.
Proof.
  apply (handleKey_keeps_cursor_in_view (fun s => s)
           Scenario3.insertion_sort "down" Scenario3.three_rows
           Scenario.world1).
  - apply insertion_sort_length.
  - vm_compute. discriminate.
  - right. discriminate.
  - apply in_view_reset; reflexivity.
Defined.

Lemma backspace_undoes_typing_witness :
  Tui.handleKey (fun s => s) Scenario3.insertion_sort "backspace"
    (Tui.handleKey (fun s => s) Scenario3.insertion_sort "c"
       Scenario3.typing Scenario.world1).1.1
    (Tui.handleKey (fun s => s) Scenario3.insertion_sort "c"
       Scenario3.typing Scenario.world1).1.2
  = (Scenario3.typing, Scenario.world1, Tui.NoCmd).
Proof.
  apply (backspace_undoes_typing (fun s => s) Scenario3.insertion_sort "c"
           Scenario3.typing Scenario.world1).
  - reflexivity.
  - reflexivity.
  - vm_compute. reflexivity.
Defined.

(** ** What the scanners hand over *)

Lemma name_or_unknown name :
  (if String.eqb name "" then "unknown" else name) <> "".
Proof. by destruct (String.eqb_spec name ""). Qed.

Lemma discovered_classified sc : discovered sc -> classified sc.
Proof.
  intros [now inodePID inodeName e|getProcessName now e]; split; cbn.
  - apply name_or_unknown.
  - destruct (_ || _); auto.
  - apply name_or_unknown.
  - destruct (_ || _); auto.
Qed.

Lemma engine_step_classified w w' :
  engine_step w w' ->
  Forall classified (heap w) -> Forall classified (heap w').
Proof.
  intros Hstep Hh.
  destruct Hstep as [now scanned w Hdisc|p rtt loss conn log w Hp|w|lower query w].
  - rewrite reconcile_heap. apply reconcile_loop_Forall; [done| |done].
    eapply Forall_impl; [exact Hdisc|]. intros sc Hsc.
    by apply discovered_classified in Hsc.
  - cbn. apply Forall_insert; [done|].
    exact (Forall_lookup_1 _ _ _ _ Hh Hp).
  - by apply Snapshot_Forall.
  - by apply Search_Forall.
Qed.

(** X18.  Every record the engine holds, at any point of any run from
    [NewTracker], has a non-empty application name (both scanners fall
    back to "unknown") and the direction IN or OUT; updates, probe
    write-backs and reader copies keep both. *)
Theorem engine_records_classified n w p c :
  engine_run n w ->
  heap w !! p = Some c ->
  AppName c <> "" /\ (Direction c = Inbound \/ Direction c = Outbound).
Proof.
  intros Hrun Hp.
  assert (Hall : Forall classified (heap w)).
  { clear p c Hp. induction Hrun as [|n w w' _ IH Hstep]; [by constructor|].
    by eapply engine_step_classified. }
  exact (Forall_lookup_1 _ _ _ _ Hall Hp).
Qed.

Lemma engine_records_classified_witness :
  AppName Scenario2.record1_probed <> "" /\
  (Direction Scenario2.record1_probed = Inbound \/
   Direction Scenario2.record1_probed = Outbound).
Proof.
  apply (engine_records_classified 2 Scenario.world1_probed 0%nat
           Scenario2.record1_probed).
  - exact world1_probed_run.
  - vm_compute. reflexivity.
Defined.

(** ** Bytes of a word *)

Lemma land_255 v : Z.land v 255 = v mod 256.
Proof. change 255 with (Z.ones 8). by rewrite Z.land_ones by lia. Qed.

Lemma shiftr_div v n : 0 <= n -> Z.shiftr v n = v / 2 ^ n.
Proof. intros Hn. by rewrite Z.shiftr_div_pow2 by lia. Qed.

Lemma lor_shiftl_8 lo hi :
  0 <= lo < 256 -> Z.lor lo (Z.shiftl hi 8) = lo + 256 * hi.
Proof.
  intros Hlo.
  assert (Hdisj : Z.land lo (Z.shiftl hi 8) = 0).
  { apply Z.bits_inj'. intros n Hn. rewrite Z.land_spec, Z.bits_0.
    destruct (Z.lt_ge_cases n 8) as [Hlt|Hge].
    - rewrite Z.shiftl_spec_low by lia. apply andb_false_r.
    - rewrite <-(Z.mod_small lo (2 ^ 8)) by lia.
      by rewrite Z.mod_pow2_bits_high by lia. }
  rewrite <-Z.lxor_lor by done. rewrite <-Z.add_nocarry_lxor by done.
  rewrite Z.shiftl_mul_pow2 by lia. lia.
Qed.

Lemma PutUint32_bytes v :
  WindowsTables.PutUint32 v
  = (v mod 256, v / 256 mod 256, v / 65536 mod 256, v / 16777216 mod 256).
Proof.
  unfold WindowsTables.PutUint32.
  rewrite !land_255, !shiftr_div by lia. reflexivity.
Qed.

Lemma networkToHostPort_bytes p :
  WindowsTables.networkToHostPort p = p / 256 mod 256 + 256 * (p mod 256).
Proof.
  unfold WindowsTables.networkToHostPort. rewrite PutUint32_bytes.
  unfold WindowsTables.Uint16. apply lor_shiftl_8.
  apply Z.mod_pos_bound. lia.
Qed.

Lemma htons_bytes port :
  WindowsTables.htons port = port / 256 mod 256 + 256 * (port mod 256).
Proof.
  unfold WindowsTables.htons. rewrite Z.lor_comm.
  rewrite !land_255, !shiftr_div by lia.
  apply lor_shiftl_8. apply Z.mod_pos_bound. lia.
Qed.

(** X19.  [networkToHostPort] always returns a port between 0 and 65535,
    reads only the two low bytes of its argument, and undoes the byte
    order of the operating system's tables: a row field that holds the
    port [port] in network byte order, with anything in its two high
    bytes, is read back as [port]. *)
Theorem networkToHostPort_round_trip port high :
  0 <= port < 65536 ->
  (forall p, 0 <= WindowsTables.networkToHostPort p < 65536) /\
  (forall p, WindowsTables.networkToHostPort p
             = WindowsTables.networkToHostPort (p mod 65536)) /\
  WindowsTables.networkToHostPort (WindowsTables.htons port + 65536 * high)
    = port.
Proof.
  intros Hport. split; [|split].
  - intros p. rewrite networkToHostPort_bytes.
    pose proof (Z.mod_pos_bound (p / 256) 256).
    pose proof (Z.mod_pos_bound p 256). lia.
  - intros p. rewrite !networkToHostPort_bytes.
    f_equal; [|f_equal]; Z.div_mod_to_equations; lia.
  - rewrite networkToHostPort_bytes, htons_bytes.
    Z.div_mod_to_equations. lia.
Qed.

Lemma networkToHostPort_round_trip_witness :
  (forall p, 0 <= WindowsTables.networkToHostPort p < 65536) /\
  (forall p, WindowsTables.networkToHostPort p
             = WindowsTables.networkToHostPort (p mod 65536)) /\
  WindowsTables.networkToHostPort (WindowsTables.htons 443 + 65536 * 7) = 443.
Proof. apply (networkToHostPort_round_trip 443 7). lia. Defined.

(** ** Dotted quads *)

Lemma string_app_nil_r (a : string) : a +:+ "" = a.
Proof. induction a as [|x a IH]; [done|]. rewrite string_app_cons. by f_equal. Qed.

Lemma free_app c (s r : string) : free c (s +:+ r) = free c s && free c r.
Proof.
  induction s as [|a s IH]; [done|].
  rewrite string_app_cons. cbn [free]. by rewrite IH, andb_assoc.
Qed.

Lemma fields_free s cur :
  free "." s = true -> AddressClass.fields s cur = [cur +:+ s].
Proof.
  revert cur. induction s as [|a s IH]; intros cur Hs.
  - by rewrite string_app_nil_r.
  - cbn [free] in Hs. apply andb_true_iff in Hs as [Ha Hs].
    cbn [AddressClass.fields].
    destruct (Ascii.eqb a ".") eqn:Hdot; [done|].
    rewrite IH by done. by rewrite string_app_assoc.
Qed.

Lemma fields_dot s r cur :
  free "." s = true ->
  AddressClass.fields (s +:+ String "." r) cur
  = (cur +:+ s) :: AddressClass.fields r "".
Proof.
  revert cur. induction s as [|a s IH]; intros cur Hs.
  - rewrite string_app_nil_l, string_app_nil_r. reflexivity.
  - cbn [free] in Hs. apply andb_true_iff in Hs as [Ha Hs].
    rewrite string_app_cons. cbn [AddressClass.fields].
    destruct (Ascii.eqb a ".") eqn:Hdot; [done|].
    rewrite IH by done. by rewrite string_app_assoc.
Qed.

Lemma octet_table :
  forallb (fun b => free "." (fmt_d b) &&
                    match AddressClass.octet (fmt_d b) with
                    | Some n => n =? b
                    | None => false
                    end) octets = true.
Proof. vm_compute. reflexivity. Qed.

Lemma octet_pretty b :
  0 <= b < 256 ->
  free "." (fmt_d b) = true /\ AddressClass.octet (fmt_d b) = Some b.
Proof.
  intros Hb. pose proof octet_table as Htable.
  rewrite forallb_forall in Htable.
  assert (Hin : In b octets).
  { apply list_elem_of_In, elem_of_seqZ. lia. }
  apply Htable in Hin. apply andb_true_iff in Hin as [Hfree Hoct].
  split; [done|].
  destruct (AddressClass.octet (fmt_d b)) as [n|]; [|done].
  apply Z.eqb_eq in Hoct. by subst.
Qed.

Lemma IPv4_String_parses a b c d :
  0 <= a < 256 -> 0 <= b < 256 -> 0 <= c < 256 -> 0 <= d < 256 ->
  AddressClass.ipv4 (WindowsTables.IPv4_String a b c d) = Some (a, b, c, d).
Proof.
  intros [Ha Ha']%octet_pretty [Hb Hb']%octet_pretty [Hc Hc']%octet_pretty
    [Hd Hd']%octet_pretty.
  unfold AddressClass.ipv4, WindowsTables.IPv4_String.
  rewrite !string_app_cons, !string_app_nil_l.
  rewrite !fields_dot, fields_free by done.
  rewrite !string_app_nil_l. cbn [fmap list_fmap].
  by rewrite Ha', Hb', Hc', Hd'.
Qed.

Lemma uint32ToIP_in_addr a b c d :
  0 <= a < 256 -> 0 <= b < 256 -> 0 <= c < 256 -> 0 <= d < 256 ->
  WindowsTables.uint32ToIP (WindowsTables.in_addr a b c d)
  = WindowsTables.IPv4_String a b c d.
Proof.
  intros Ha Hb Hc Hd. unfold WindowsTables.uint32ToIP.
  rewrite PutUint32_bytes. unfold WindowsTables.in_addr.
  f_equal; Z.div_mod_to_equations; lia.
Qed.

(** X20.  [uint32ToIP] writes the address of a row as its dotted quad:
    for the four octets [a.b.c.d] of an address, held by the row in
    memory order, the text is the decimal octets between dots, and reading
    that text as a dotted quad gives the four octets back. *)
Theorem uint32ToIP_round_trip a b c d :
  0 <= a < 256 -> 0 <= b < 256 -> 0 <= c < 256 -> 0 <= d < 256 ->
  WindowsTables.uint32ToIP (WindowsTables.in_addr a b c d)
    = fmt_d a +:+ "." +:+ fmt_d b +:+ "." +:+ fmt_d c +:+ "." +:+ fmt_d d /\
  AddressClass.ipv4 (WindowsTables.uint32ToIP (WindowsTables.in_addr a b c d))
    = Some (a, b, c, d).
Proof.
  intros Ha Hb Hc Hd. rewrite uint32ToIP_in_addr by done.
  split; [reflexivity|]. by apply IPv4_String_parses.
Qed.

Lemma uint32ToIP_round_trip_witness :
  WindowsTables.uint32ToIP (WindowsTables.in_addr 93 184 216 34)
    = fmt_d 93 +:+ "." +:+ fmt_d 184 +:+ "." +:+ fmt_d 216 +:+ "." +:+
      fmt_d 34 /\
  AddressClass.ipv4
    (WindowsTables.uint32ToIP (WindowsTables.in_addr 93 184 216 34))
    = Some (93, 184, 216, 34).
Proof. apply (uint32ToIP_round_trip 93 184 216 34); lia. Defined.

Lemma in_addr_bytes v :
  0 <= v < 4294967296 ->
  v = WindowsTables.in_addr (v mod 256) (v / 256 mod 256)
        (v / 65536 mod 256) (v / 16777216 mod 256).
Proof. intros Hv. unfold WindowsTables.in_addr. Z.div_mod_to_equations. lia. Qed.

Lemma uint32ToIP_parses v :
  0 <= v < 4294967296 ->
  AddressClass.ipv4 (WindowsTables.uint32ToIP v)
  = Some (v mod 256, v / 256 mod 256, v / 65536 mod 256,
          v / 16777216 mod 256).
Proof.
  intros Hv. unfold WindowsTables.uint32ToIP. rewrite PutUint32_bytes.
  apply IPv4_String_parses; apply Z.mod_pos_bound; lia.
Qed.

Lemma uint32ToIP_inj u v :
  0 <= u < 4294967296 -> 0 <= v < 4294967296 ->
  WindowsTables.uint32ToIP u = WindowsTables.uint32ToIP v -> u = v.
Proof.
  intros Hu Hv Heq.
  pose proof (uint32ToIP_parses u Hu) as Hpu.
  pose proof (uint32ToIP_parses v Hv) as Hpv.
  rewrite Heq, Hpv in Hpu. injection Hpu as H0 H1 H2 H3.
  rewrite (in_addr_bytes u Hu), (in_addr_bytes v Hv).
  by rewrite H0, H1, H2, H3.
Qed.

Lemma uint32ToIP_zero x :
  0 <= x < 4294967296 ->
  (WindowsTables.uint32ToIP x = "0.0.0.0" <-> x = 0) /\
  WindowsTables.uint32ToIP x <> "::".
Proof.
  intros Hx. split.
  - split; [|intros ->; vm_compute; reflexivity].
    intros Heq. apply uint32ToIP_inj; [done|lia|]. rewrite Heq.
    vm_compute. reflexivity.
  - intros Heq. pose proof (uint32ToIP_parses x Hx) as Hp.
    rewrite Heq in Hp.
    assert (Hnone : AddressClass.ipv4 "::" = None) by (vm_compute; reflexivity).
    rewrite Hnone in Hp. discriminate.
Qed.

(** X21.  Two different addresses never get the same text from
    [uint32ToIP]; in particular the text is "0.0.0.0", which the engine
    treats as no peer, for the zero address only, and it is never the
    IPv6 text "::". *)
Theorem uint32ToIP_injective x y :
  0 <= x < 4294967296 -> 0 <= y < 4294967296 ->
  (WindowsTables.uint32ToIP x = WindowsTables.uint32ToIP y -> x = y) /\
  (WindowsTables.uint32ToIP x = "0.0.0.0" <-> x = 0) /\
  WindowsTables.uint32ToIP x <> "::".
Proof.
  intros Hx Hy. split.
  - by apply uint32ToIP_inj.
  - by apply uint32ToIP_zero.
Qed.

Lemma uint32ToIP_injective_witness :
  (WindowsTables.uint32ToIP 16777343 = WindowsTables.uint32ToIP 16777343 ->
   16777343 = 16777343) /\
  (WindowsTables.uint32ToIP 16777343 = "0.0.0.0" <-> 16777343 = 0) /\
  WindowsTables.uint32ToIP 16777343 <> "::".
Proof. apply (uint32ToIP_injective 16777343 16777343); lia. Defined.

(** ** Rows of the Windows tables *)

Lemma winTCPStates_cases s :
  (s = 1 \/ s = 2 \/ s = 3 \/ s = 4 \/ s = 5 \/ s = 6 \/ s = 7 \/ s = 8 \/
   s = 9 \/ s = 10 \/ s = 11 \/ s = 12) \/
  ((s < 1 \/ 12 < s) /\ WindowsTables.winTCPStates s = None).
Proof.
  destruct s as [|p|p]; [right; split; [lia|done]| |right; split; [lia|done]].
  do 4 (try destruct p as [p|p|]);
    first [left; lia | right; split; [lia|reflexivity]].
Qed.

(** X22.  A row of the Windows TCP table becomes a probe target exactly
    when its state code is 5 (established) and its remote address is not
    zero, and an inbound record exactly when its state code is 2
    (listening) or its remote address is zero; a state code outside
    1..12 is shown as UNKNOWN. *)
Theorem windows_tcp_row_classified getProcessName now row :
  0 <= WindowsTables.tcp_RemoteAddr row < 4294967296 ->
  let c := ScannerWindows.toConnection getProcessName now
             (WindowsTables.tcp_entry row) in
  (is_target c = true <->
   WindowsTables.tcp_State row = 5 /\ WindowsTables.tcp_RemoteAddr row <> 0) /\
  (Direction c = Inbound <->
   WindowsTables.tcp_State row = 2 \/ WindowsTables.tcp_RemoteAddr row = 0) /\
  (State c = StateUnknown <->
   WindowsTables.tcp_State row < 1 \/ 12 < WindowsTables.tcp_State row).
Proof.
  intros Hr c.
  destruct (uint32ToIP_zero (WindowsTables.tcp_RemoteAddr row) Hr)
    as (Hzero & Hv6).
  assert (Hst : State c
                = default StateUnknown
                    (WindowsTables.winTCPStates (WindowsTables.tcp_State row)))
    by reflexivity.
  assert (Hra : RemoteAddr c
                = WindowsTables.uint32ToIP (WindowsTables.tcp_RemoteAddr row))
    by reflexivity.
  assert (Hdir : Direction c
                 = if String.eqb (State c) StateListening
                      || String.eqb (RemoteAddr c) "0.0.0.0"
                      || String.eqb (RemoteAddr c) "::"
                   then Inbound else Outbound) by reflexivity.
  unfold is_target. rewrite Hdir. clearbody c.
  destruct (String.eqb_spec (RemoteAddr c) "::") as [Heq|_].
  { exfalso. apply Hv6. by rewrite <-Hra. }
  destruct (String.eqb_spec (RemoteAddr c) "0.0.0.0") as [Heq|Hne].
  - rewrite Hra in Heq. apply Hzero in Heq.
    rewrite Hst.
    destruct (winTCPStates_cases (WindowsTables.tcp_State row))
      as [Hs|[Hout Hnone]].
    + repeat (destruct Hs as [Hs|Hs]; [rewrite Hs; cbn; repeat split; 
        first [done | lia | by intros [? ?] | by right | by intros [? | ?]; lia ]|]).
      rewrite Hs; cbn; repeat split;
        first [done | lia | by intros [? ?] | by right | by intros [? | ?]; lia ].
    + rewrite Hnone. cbn. repeat split;
        first [done | lia | by intros [? ?] | by right ].
  - assert (Hnz : WindowsTables.tcp_RemoteAddr row <> 0).
    { intros Hz. apply Hne. rewrite Hra. by apply Hzero. }
    rewrite Hst.
    destruct (winTCPStates_cases (WindowsTables.tcp_State row))
      as [Hs|[Hout Hnone]].
    + repeat (destruct Hs as [Hs|Hs]; [rewrite Hs; cbn; repeat split;
        first [done | lia | by intros [? ?] | by left
              | by intros [? | ?]; lia ]|]).
      rewrite Hs; cbn; repeat split;
        first [done | lia | by intros [? ?] | by left
              | by intros [? | ?]; lia ].
    + rewrite Hnone. cbn. repeat split;
        first [done | lia | by intros [? ?] | by intros [? | ?]; lia ].
Qed.

Lemma windows_tcp_row_classified_witness :
  let c := ScannerWindows.toConnection (fun _ => "chrome") Scenario.t0
             (WindowsTables.tcp_entry tcp_row_example) in
  (is_target c = true <->
   WindowsTables.tcp_State tcp_row_example = 5 /\
   WindowsTables.tcp_RemoteAddr tcp_row_example <> 0) /\
  (Direction c = Inbound <->
   WindowsTables.tcp_State tcp_row_example = 2 \/
   WindowsTables.tcp_RemoteAddr tcp_row_example = 0) /\
  (State c = StateUnknown <->
   WindowsTables.tcp_State tcp_row_example < 1 \/
   12 < WindowsTables.tcp_State tcp_row_example).
Proof.
  apply (windows_tcp_row_classified (fun _ => "chrome") Scenario.t0
           tcp_row_example).
  cbn. unfold WindowsTables.in_addr. lia.
Defined.

(** X23.  Every row of the Windows UDP tables, IPv4 or IPv6, becomes a
    record shown as ESTABLISHED and inbound with remote port 0, and is
    never a probe target: a probe pass dials no UDP socket. *)
Theorem windows_udp_rows_not_probed IP_String getProcessName now row row6 :
  let c := ScannerWindows.toConnection getProcessName now
             (WindowsTables.udp_entry row) in
  let c6 := ScannerWindows.toConnection getProcessName now
              (WindowsTables.udp6_entry IP_String row6) in
  (State c = StateEstablished /\ Direction c = Inbound /\
   RemotePort c = 0 /\ is_target c = false) /\
  (State c6 = StateEstablished /\ Direction c6 = Inbound /\
   RemotePort c6 = 0 /\ is_target c6 = false).
Proof. repeat split. Qed.

(** ** Keys *)

Lemma free_cons c a s :
  free c (String a s) = true <-> a <> c /\ free c s = true.
Proof.
  cbn [free]. rewrite andb_true_iff, negb_true_iff.
  by destruct (Ascii.eqb_spec a c); split; intros [? ?].
Qed.

Lemma free_digit c d :
  free c "0123456789-" = true -> (d < 10)%N -> pretty_N_char d <> c.
Proof.
  intros Hc Hd. rewrite !free_cons in Hc.
  destruct Hc as (H0 & H1 & H2 & H3 & H4 & H5 & H6 & H7 & H8 & H9 & _).
  assert (d = 0 \/ d = 1 \/ d = 2 \/ d = 3 \/ d = 4 \/ d = 5 \/ d = 6 \/
          d = 7 \/ d = 8 \/ d = 9)%N as Hcases by lia.
  repeat (destruct Hcases as [->|Hcases]; [done|]). by subst.
Qed.

Lemma pretty_N_go_free c x s :
  free c "0123456789-" = true -> free c s = true ->
  free c (pretty_N_go x s) = true.
Proof.
  intros Hc. revert s.
  induction (N.lt_wf_0 x) as [x _ IH]. intros s Hs.
  destruct (decide (x = 0)%N) as [->|Hx]; [done|].
  rewrite pretty_N_go_step by lia. apply IH.
  - apply N.div_lt; lia.
  - apply free_cons. split; [|done].
    apply free_digit; [done|]. apply N.mod_lt. lia.
Qed.

Lemma fmt_d_free c z :
  free c "0123456789-" = true -> free c (fmt_d z) = true.
Proof.
  intros Hc. unfold fmt_d, pretty, pretty_Z.
  assert (HN : forall n : N, free c (pretty n) = true).
  { intros n. unfold pretty, pretty_N.
    destruct (decide (n = 0)%N).
    - rewrite !free_cons in Hc. apply free_cons. by destruct Hc as [? _].
    - by apply pretty_N_go_free. }
  destruct z as [|p|p]; [apply (HN 0%N)|apply (HN (N.pos p))|].
  rewrite string_app_cons, string_app_nil_l. apply free_cons.
  split; [|apply (HN (N.pos p))].
  rewrite !free_cons in Hc. by destruct Hc as (_&_&_&_&_&_&_&_&_&_&?&_).
Qed.

Lemma free_occurs c (s r : string) : free c (s +:+ String c r) = false.
Proof.
  rewrite free_app. cbn [free]. rewrite Ascii.eqb_refl. cbn.
  apply andb_false_r.
Qed.

(** Cutting at the first [c]. *)
Lemma split_first c (s s' r r' : string) :
  free c s = true -> free c s' = true ->
  s +:+ String c r = s' +:+ String c r' -> s = s' /\ r = r'.
Proof.
  revert s'. induction s as [|a s IH]; intros s' Hs Hs' Heq.
  - destruct s' as [|a' s']; rewrite ?string_app_cons, ?string_app_nil_l in Heq.
    + by injection Heq.
    + injection Heq as <- _. apply free_cons in Hs' as [? _]. done.
  - apply free_cons in Hs as [Ha Hs].
    destruct s' as [|a' s']; rewrite ?string_app_cons, ?string_app_nil_l in Heq.
    + by injection Heq as -> _.
    + injection Heq as <- Heq. apply free_cons in Hs' as [_ Hs'].
      destruct (IH s' Hs Hs' Heq) as [-> ->]. done.
Qed.

(** Cutting at the last [c]. *)
Lemma split_last c (s s' r r' : string) :
  free c r = true -> free c r' = true ->
  s +:+ String c r = s' +:+ String c r' -> s = s' /\ r = r'.
Proof.
  intros Hr Hr'. revert s'. induction s as [|a s IH]; intros s' Heq.
  - destruct s' as [|a' s']; rewrite ?string_app_cons, ?string_app_nil_l in Heq.
    + by injection Heq.
    + injection Heq as <- Heq. rewrite Heq, free_occurs in Hr. done.
  - destruct s' as [|a' s']; rewrite ?string_app_cons, ?string_app_nil_l in Heq.
    + injection Heq as -> Heq. rewrite <-Heq, free_occurs in Hr'. done.
    + injection Heq as <- Heq. destruct (IH s' Heq) as [-> ->]. done.
Qed.

(** X24.  [Key] tells connections apart: with protocol names that hold
    no colon and local addresses that hold no [>] (every protocol name
    and address the scanners produce), two records with the same key
    agree on PID, protocol, both addresses and both ports. *)
Theorem Key_injective c c' :
  free ":" (Protocol c) = true -> free ":" (Protocol c') = true ->
  free ">" (LocalAddr c) = true -> free ">" (LocalAddr c') = true ->
  Key c = Key c' ->
  PID c = PID c' /\ Protocol c = Protocol c' /\
  LocalAddr c = LocalAddr c' /\ LocalPort c = LocalPort c' /\
  RemoteAddr c = RemoteAddr c' /\ RemotePort c = RemotePort c'.
Proof.
  intros Hp Hp' Hl Hl' Heq. unfold Key in Heq.
  rewrite !string_app_cons, !string_app_nil_l in Heq.
  apply split_first in Heq as [Hpid Heq];
    [|by apply fmt_d_free..].
  apply split_first in Heq as [Hproto Heq]; [|done..].
  assert (Hcut : forall la lp ra rp : string,
            la +:+ String ":" (lp +:+ String "-" (String ">"
              (ra +:+ String ":" rp)))
            = (la +:+ String ":" (lp +:+ String "-" "")) +:+
              String ">" (ra +:+ String ":" rp)).
  { intros la lp ra rp. rewrite string_app_assoc, string_app_cons.
    by rewrite string_app_assoc, string_app_cons, string_app_nil_l. }
  rewrite !Hcut in Heq.
  apply split_first in Heq as [Hlocal Hremote].
  2,3: rewrite free_app; cbn [free]; rewrite free_app; cbn [free];
       rewrite fmt_d_free by done; rewrite ?Hl, ?Hl'; done.
  apply split_last in Hremote as [Hra Hrp]; [|by apply fmt_d_free..].
  apply split_last in Hlocal as [Hla Hlp].
  2,3: rewrite free_app; cbn [free]; rewrite fmt_d_free by done; done.
  apply split_last in Hlp as [Hlp _]; [|done..].
  unfold fmt_d in *.
  apply (inj pretty) in Hpid, Hrp, Hlp. done.
Qed.

Lemma Key_injective_witness :
  PID Scenario.record1 = PID Scenario.record2 /\
  Protocol Scenario.record1 = Protocol Scenario.record2 /\
  LocalAddr Scenario.record1 = LocalAddr Scenario.record2 /\
  LocalPort Scenario.record1 = LocalPort Scenario.record2 /\
  RemoteAddr Scenario.record1 = RemoteAddr Scenario.record2 /\
  RemotePort Scenario.record1 = RemotePort Scenario.record2.
Proof.
  apply (Key_injective Scenario.record1 Scenario.record2);
    vm_compute; reflexivity.
Defined.

(** ** Hexadecimal text *)

Lemma hex_char_cases d :
  0 <= d < 16 ->
  d = 0 \/ d = 1 \/ d = 2 \/ d = 3 \/ d = 4 \/ d = 5 \/ d = 6 \/ d = 7 \/
  d = 8 \/ d = 9 \/ d = 10 \/ d = 11 \/ d = 12 \/ d = 13 \/ d = 14 \/ d = 15.
Proof. lia. Qed.

Lemma hex_char_digit d :
  0 <= d < 16 ->
  ProcNet.hex_digit (ProcNet.hex_char d) = Some d /\
  ProcNet.fromHexChar (ProcNet.hex_char d) = Some d /\
  ProcNet.upper_byte (ProcNet.hex_char d) = ProcNet.hex_char d /\
  GoStrings.is_ascii_byte (ProcNet.hex_char d) = true.
Proof.
  intros Hd%hex_char_cases.
  repeat (destruct Hd as [->|Hd]; [by vm_compute|]). subst. by vm_compute.
Qed.

Lemma hex_char_free c d :
  free c "0123456789ABCDEF" = true -> 0 <= d < 16 -> ProcNet.hex_char d <> c.
Proof.
  intros Hc Hd%hex_char_cases. rewrite !free_cons in Hc.
  destruct Hc as (H0 & H1 & H2 & H3 & H4 & H5 & H6 & H7 & H8 & H9 & HA & HB &
                  HC & HD & HE & HF & _).
  repeat (destruct Hd as [->|Hd]; [done|]). by subst.
Qed.

Lemma hex_upper_free c k v :
  free c "0123456789ABCDEF" = true -> free c (ProcNet.hex_upper k v) = true.
Proof.
  intros Hc. revert v. induction k as [|k IH]; intros v; [done|].
  cbn [ProcNet.hex_upper]. rewrite free_app, IH. cbn [andb].
  apply free_cons. split; [|done].
  apply hex_char_free; [done|]. apply Z.mod_pos_bound. lia.
Qed.

Lemma hex_upper_nonempty k v : ProcNet.hex_upper (S k) v <> "".
Proof.
  cbn [ProcNet.hex_upper]. by destruct (ProcNet.hex_upper k (v / 16)).
Qed.

Lemma Split_free sep s cur :
  free sep s = true -> ProcNet.Split sep s cur = [cur +:+ s].
Proof.
  revert cur. induction s as [|a s IH]; intros cur Hs.
  - by rewrite string_app_nil_r.
  - apply free_cons in Hs as [Ha Hs]. cbn [ProcNet.Split].
    destruct (Ascii.eqb_spec a sep) as [?|_]; [done|].
    rewrite IH by done. by rewrite string_app_assoc.
Qed.

Lemma Split_sep sep s r cur :
  free sep s = true ->
  ProcNet.Split sep (s +:+ String sep r) cur
  = (cur +:+ s) :: ProcNet.Split sep r "".
Proof.
  revert cur. induction s as [|a s IH]; intros cur Hs.
  - rewrite string_app_nil_l, string_app_nil_r. cbn [ProcNet.Split].
    by rewrite Ascii.eqb_refl.
  - apply free_cons in Hs as [Ha Hs].
    rewrite string_app_cons. cbn [ProcNet.Split].
    destruct (Ascii.eqb_spec a sep) as [?|_]; [done|].
    rewrite IH by done. by rewrite string_app_assoc.
Qed.

Lemma ParseUint_loop_app maxVal s r n m :
  ProcNet.ParseUint_loop maxVal s n = (m, None) ->
  ProcNet.ParseUint_loop maxVal (s +:+ r) n = ProcNet.ParseUint_loop maxVal r m.
Proof.
  revert n. induction s as [|c s IH]; intros n Hs.
  - cbn in Hs. by injection Hs as ->.
  - rewrite string_app_cons. cbn [ProcNet.ParseUint_loop] in *.
    destruct (ProcNet.hex_digit c) as [d|]; [|done].
    destruct (ProcNet.cutoff16 <=? n); [done|].
    cbn zeta in *.
    destruct (_ || _); [done|]. by apply IH.
Qed.

Lemma cutoff16_eq : ProcNet.cutoff16 = 16 ^ 15.
Proof. reflexivity. Qed.

(** The loop of [ParseUint] reads the digits the kernel writes. *)
Lemma ParseUint_loop_hex maxVal k v :
  (k <= 16)%nat -> 0 <= v -> 16 ^ Z.of_nat k - 1 <= maxVal ->
  ProcNet.ParseUint_loop maxVal (ProcNet.hex_upper k v) 0
  = (v mod 16 ^ Z.of_nat k, None).
Proof.
  revert v. induction k as [|k IH]; intros v Hk Hv Hmax.
  - cbn. by rewrite Z.mod_1_r.
  - cbn [ProcNet.hex_upper].
    assert (Hpow : 16 ^ Z.of_nat (S k) = 16 * 16 ^ Z.of_nat k).
    { rewrite Nat2Z.inj_succ, Z.pow_succ_r by lia. reflexivity. }
    assert (Hpos : 0 < 16 ^ Z.of_nat k) by (apply Z.pow_pos_nonneg; lia).
    assert (Hle : 16 ^ Z.of_nat k <= 16 ^ 15)
      by (apply Z.pow_le_mono_r; lia).
    rewrite (ParseUint_loop_app maxVal _ _ 0 ((v / 16) mod 16 ^ Z.of_nat k)).
    2:{ apply IH; [lia| |lia]. apply Z.div_pos; lia. }
    pose proof (Z.mod_pos_bound (v / 16) (16 ^ Z.of_nat k) Hpos) as Hm.
    pose proof (Z.mod_pos_bound v 16) as Hd.
    set (m := (v / 16) mod 16 ^ Z.of_nat k) in *.
    cbn [ProcNet.ParseUint_loop].
    destruct (hex_char_digit (v mod 16)) as [-> _]; [lia|].
    rewrite cutoff16_eq.
    destruct (16 ^ 15 <=? m) eqn:Hcut; [apply Z.leb_le in Hcut; lia|].
    cbn zeta.
    assert (H15 : 16 ^ 15 = 1152921504606846976) by reflexivity.
    rewrite (wrap_uint64_id (m * 16)) by lia.
    rewrite (wrap_uint64_id (m * 16 + v mod 16)) by lia.
    destruct (m * 16 + v mod 16 <? m * 16) eqn:H1;
      [apply Z.ltb_lt in H1; lia|].
    destruct (maxVal <? m * 16 + v mod 16) eqn:H2;
      [apply Z.ltb_lt in H2; lia|].
    cbn [orb]. f_equal.
    rewrite Hpow, Z.rem_mul_r by lia. unfold m. lia.
Qed.

Lemma ParseUint_nonempty s bitSize :
  s <> "" ->
  ProcNet.ParseUint s bitSize
  = ProcNet.ParseUint_loop
      (wrap_uint64 (wrap_uint64 (Z.shiftl 1 bitSize) - 1)) s 0.
Proof. by destruct s. Qed.

(** The queue lengths: eight digits read with [bitSize] 64. *)
Lemma ParseUint_hex8 v :
  0 <= v < 4294967296 ->
  ProcNet.ParseUint (ProcNet.hex_upper 8 v) 64 = (v, None).
Proof.
  intros Hv. rewrite ParseUint_nonempty by apply hex_upper_nonempty.
  rewrite ParseUint_loop_hex; [|lia|lia|by vm_compute].
  f_equal. apply Z.mod_small. change (16 ^ Z.of_nat 8) with 4294967296. lia.
Qed.

Lemma ParseInt_unsigned s bitSize :
  s <> "" -> free "+" s = true -> free "-" s = true ->
  ProcNet.ParseInt s bitSize
  = match ProcNet.ParseUint s bitSize with
    | (_, Some ProcNet.ErrSyntax) => (0, Some ProcNet.ErrSyntax)
    | (un, _) =>
        if Z.shiftl 1 (bitSize - 1) <=? un
        then (Z.shiftl 1 (bitSize - 1) - 1, Some ProcNet.ErrRange)
        else (un, None)
    end.
Proof.
  intros Hne Hplus Hminus. destruct s as [|c s]; [done|].
  apply free_cons in Hplus as [Hplus _]. apply free_cons in Hminus as [Hminus _].
  unfold ProcNet.ParseInt.
  destruct (Ascii.eqb_spec c "+") as [?|_]; [done|].
  destruct (Ascii.eqb_spec c "-") as [?|_]; [done|].
  cbn [orb negb andb]. reflexivity.
Qed.

(** The port: four digits read with [bitSize] 32. *)
Lemma ParseInt_hex4 port :
  0 <= port < 65536 ->
  ProcNet.ParseInt (ProcNet.hex_upper 4 port) 32 = (port, None).
Proof.
  intros Hp.
  rewrite ParseInt_unsigned;
    [|apply hex_upper_nonempty|by apply hex_upper_free..].
  rewrite ParseUint_nonempty by apply hex_upper_nonempty.
  rewrite ParseUint_loop_hex; [|lia|lia|by vm_compute].
  change (16 ^ Z.of_nat 4) with 65536. rewrite Z.mod_small by lia.
  change (Z.shiftl 1 (32 - 1)) with 2147483648.
  destruct (2147483648 <=? port) eqn:Hcut; [apply Z.leb_le in Hcut; lia|done].
Qed.

Lemma DecodeString_app n s l r :
  (String.length s <= n)%nat ->
  ProcNet.DecodeString s = Some l ->
  ProcNet.DecodeString (s +:+ r) = (l ++.) <$> ProcNet.DecodeString r.
Proof.
  revert s l. induction n as [|n IH]; intros s l Hn Hs.
  - destruct s; [|cbn in Hn; lia]. injection Hs as <-.
    rewrite string_app_nil_l. by destruct (ProcNet.DecodeString r).
  - destruct s as [|p [|q rest]].
    + injection Hs as <-. rewrite string_app_nil_l.
      by destruct (ProcNet.DecodeString r).
    + done.
    + rewrite !string_app_cons. cbn [ProcNet.DecodeString] in *.
      destruct (ProcNet.fromHexChar p) as [a|]; [|done].
      destruct (ProcNet.fromHexChar q) as [b|]; [|done].
      destruct (ProcNet.DecodeString rest) as [l'|] eqn:Hrest; [|done].
      injection Hs as <-.
      rewrite (IH rest l') by (cbn in Hn; lia || done).
      by destruct (ProcNet.DecodeString r).
Qed.

Lemma lor_shiftl_4 hi lo :
  0 <= lo < 16 -> Z.lor (Z.shiftl hi 4) lo = 16 * hi + lo.
Proof.
  intros Hlo.
  assert (Hdisj : Z.land (Z.shiftl hi 4) lo = 0).
  { apply Z.bits_inj'. intros n Hn. rewrite Z.land_spec, Z.bits_0.
    destruct (Z.lt_ge_cases n 4) as [Hlt|Hge].
    - by rewrite Z.shiftl_spec_low by lia.
    - rewrite <-(Z.mod_small lo (2 ^ 4)) by lia.
      rewrite Z.mod_pow2_bits_high by lia. apply andb_false_r. }
  rewrite <-Z.lxor_lor by done. rewrite <-Z.add_nocarry_lxor by done.
  rewrite Z.shiftl_mul_pow2 by lia. lia.
Qed.

Lemma DecodeString_hex_step k v l :
  ProcNet.DecodeString (ProcNet.hex_upper k (v / 256)) = Some l ->
  ProcNet.DecodeString (ProcNet.hex_upper (S (S k)) v)
  = Some (l ++ [v mod 256]).
Proof.
  intros Hl. cbn [ProcNet.hex_upper].
  rewrite string_app_assoc, string_app_cons, string_app_nil_l.
  rewrite Z.div_div by lia. change (16 * 16) with 256.
  rewrite (DecodeString_app _ _ l _ (le_n _) Hl).
  cbn [ProcNet.DecodeString].
  destruct (hex_char_digit ((v / 16) mod 16)) as (_ & -> & _);
    [apply Z.mod_pos_bound; lia|].
  destruct (hex_char_digit (v mod 16)) as (_ & -> & _);
    [apply Z.mod_pos_bound; lia|].
  cbn [fmap option_fmap option_map]. do 3 f_equal.
  rewrite lor_shiftl_4 by (apply Z.mod_pos_bound; lia).
  Z.div_mod_to_equations. lia.
Qed.

Lemma DecodeString_hex8 v :
  ProcNet.DecodeString (ProcNet.hex_upper 8 v)
  = Some [v / 256 / 256 / 256 mod 256; v / 256 / 256 mod 256;
          v / 256 mod 256; v mod 256].
Proof.
  assert (H0 : forall w, ProcNet.DecodeString (ProcNet.hex_upper 0 w) = Some [])
    by done.
  pose proof (DecodeString_hex_step 0 _ _ (H0 (v / 256 / 256 / 256 / 256))) as H2.
  pose proof (DecodeString_hex_step 2 _ _ H2) as H4.
  pose proof (DecodeString_hex_step 4 _ _ H4) as H6.
  exact (DecodeString_hex_step 6 _ _ H6).
Qed.

Lemma hexToIP_in_addr IP_String a b c d :
  0 <= a < 256 -> 0 <= b < 256 -> 0 <= c < 256 -> 0 <= d < 256 ->
  ProcNet.hexToIP IP_String
    (ProcNet.hex_upper 8 (WindowsTables.in_addr a b c d))
  = Some (WindowsTables.IPv4_String a b c d).
Proof.
  intros Ha Hb Hc Hd. unfold ProcNet.hexToIP. rewrite DecodeString_hex8.
  unfold WindowsTables.in_addr.
  do 2 f_equal; Z.div_mod_to_equations; lia.
Qed.

Lemma parseAddr_kernel IP_String a b c d port :
  0 <= a < 256 -> 0 <= b < 256 -> 0 <= c < 256 -> 0 <= d < 256 ->
  0 <= port < 65536 ->
  ProcNet.parseAddr IP_String (ProcNet.kernel_addr a b c d port)
  = Some (WindowsTables.IPv4_String a b c d, port).
Proof.
  intros Ha Hb Hc Hd Hp. unfold ProcNet.parseAddr, ProcNet.kernel_addr.
  rewrite string_app_cons, string_app_nil_l.
  rewrite Split_sep by (by apply hex_upper_free).
  rewrite Split_free by (by apply hex_upper_free).
  rewrite !string_app_nil_l.
  rewrite ParseInt_hex4 by done. by rewrite hexToIP_in_addr.
Qed.

(** X25.  [parseAddr] reads an IPv4 endpoint of [/proc/net/tcp] back:
    for the octets [a.b.c.d] and the port the kernel wrote as eight and
    four hexadecimal digits (the address as the little-endian word of
    the four octets), the result is the dotted quad in the right order
    and the port. *)
Theorem parseAddr_round_trip IP_String e :
  KernelLine.valid_endpoint e ->
  ProcNet.parseAddr IP_String (KernelLine.endpoint_text e)
  = Some (fmt_d (KernelLine.oct_a e) +:+ "." +:+ fmt_d (KernelLine.oct_b e)
          +:+ "." +:+ fmt_d (KernelLine.oct_c e) +:+ "." +:+
          fmt_d (KernelLine.oct_d e),
          KernelLine.ep_port e).
Proof.
  intros (Ha & Hb & Hc & Hd & Hp). unfold KernelLine.endpoint_text.
  rewrite parseAddr_kernel by done. reflexivity.
Qed.

Lemma parseAddr_round_trip_witness :
  ProcNet.parseAddr (fun _ => "") "0100007F:0035" = Some ("127.0.0.1", 53).
Proof.
  apply (parseAddr_round_trip (fun _ => "")
           (KernelLine.mkEndpoint 127 0 0 1 53)).
  unfold KernelLine.valid_endpoint. cbn. lia.
Defined.

(** ** Lines of an IPv4 table *)

Lemma hex_upper_ascii k v :
  GoStrings.all_ascii (ProcNet.hex_upper k v) = true.
Proof.
  revert v. induction k as [|k IH]; intros v; [done|].
  cbn [ProcNet.hex_upper]. rewrite all_ascii_app, IH.
  cbn [GoStrings.all_ascii andb].
  destruct (hex_char_digit (v mod 16)) as (_ & _ & _ & ->);
    [apply Z.mod_pos_bound; lia|done].
Qed.

Lemma hex_upper_upper k v :
  GoStrings.map_bytes ProcNet.upper_byte (ProcNet.hex_upper k v)
  = ProcNet.hex_upper k v.
Proof.
  revert v. induction k as [|k IH]; intros v; [done|].
  cbn [ProcNet.hex_upper]. rewrite map_bytes_app, IH.
  cbn [GoStrings.map_bytes].
  destruct (hex_char_digit (v mod 16)) as (_ & _ & -> & _);
    [apply Z.mod_pos_bound; lia|done].
Qed.

Lemma ToUpper_hex upper k v :
  ProcNet.ToUpper upper (ProcNet.hex_upper k v) = ProcNet.hex_upper k v.
Proof.
  unfold ProcNet.ToUpper. by rewrite hex_upper_ascii, hex_upper_upper.
Qed.

Lemma parse_fields_kernel IP_String upper proto slot la lb lc ld lport
    ra rb rc rd rport code tx rx f5 f6 f7 f8 inode rest :
  (0 <= la < 256 /\ 0 <= lb < 256 /\ 0 <= lc < 256 /\ 0 <= ld < 256 /\
   0 <= lport < 65536) ->
  (0 <= ra < 256 /\ 0 <= rb < 256 /\ 0 <= rc < 256 /\ 0 <= rd < 256 /\
   0 <= rport < 65536) ->
  0 <= tx < 4294967296 -> 0 <= rx < 4294967296 ->
  ProcNet.parse_fields IP_String upper proto
    (slot :: ProcNet.kernel_addr la lb lc ld lport ::
     ProcNet.kernel_addr ra rb rc rd rport :: ProcNet.hex_upper 2 code ::
     ProcNet.kernel_queues tx rx :: f5 :: f6 :: f7 :: f8 :: inode :: rest)
  = Some {| ScannerLinux.protocol := proto;
            ScannerLinux.localAddr := WindowsTables.IPv4_String la lb lc ld;
            ScannerLinux.localPort := lport;
            ScannerLinux.remoteAddr := WindowsTables.IPv4_String ra rb rc rd;
            ScannerLinux.remotePort := rport;
            ScannerLinux.state :=
              default StateUnknown
                (ProcNet.procStates !! ProcNet.hex_upper 2 code);
            ScannerLinux.inode := inode;
            ScannerLinux.txQueue := tx;
            ScannerLinux.rxQueue := rx |}.
Proof.
  intros (Ha & Hb & Hc & Hd & Hp) (Ha' & Hb' & Hc' & Hd' & Hp') Htx Hrx.
  unfold ProcNet.parse_fields.
  rewrite !parseAddr_kernel by done. rewrite ToUpper_hex.
  unfold ProcNet.kernel_queues. rewrite string_app_cons, string_app_nil_l.
  rewrite Split_sep by (by apply hex_upper_free).
  rewrite Split_free by (by apply hex_upper_free).
  rewrite !string_app_nil_l, !ParseUint_hex8 by done.
  reflexivity.
Qed.

(** X26.  The line parser reads a line of an IPv4 table back: from the
    fields the kernel writes for a socket, [parseProcNet]'s loop body
    recovers both dotted quads, both ports, both queue lengths and the
    inode, and looks the state code up as written (the kernel's upper-case
    digits pass [strings.ToUpper] unchanged); the line is not skipped. *)
Theorem parse_fields_round_trip IP_String upper proto slot s f5 f6 f7 f8 rest :
  KernelLine.valid_socket s ->
  ProcNet.parse_fields IP_String upper proto
    (KernelLine.fields slot s f5 f6 f7 f8 rest)
  = Some {| ScannerLinux.protocol := proto;
            ScannerLinux.localAddr := KernelLine.dotted (KernelLine.local s);
            ScannerLinux.localPort := KernelLine.ep_port (KernelLine.local s);
            ScannerLinux.remoteAddr := KernelLine.dotted (KernelLine.remote s);
            ScannerLinux.remotePort :=
              KernelLine.ep_port (KernelLine.remote s);
            ScannerLinux.state :=
              default StateUnknown
                (ProcNet.procStates !! ProcNet.hex_upper 2 (KernelLine.st s));
            ScannerLinux.inode := KernelLine.ino s;
            ScannerLinux.txQueue := KernelLine.tx_queue s;
            ScannerLinux.rxQueue := KernelLine.rx_queue s |}.
Proof.
  intros (Hlocal & Hremote & _ & Htx & Hrx).
  unfold KernelLine.fields, KernelLine.endpoint_text, KernelLine.dotted.
  unfold KernelLine.valid_endpoint in Hlocal, Hremote.
  rewrite parse_fields_kernel by done. reflexivity.
Qed.

Lemma parse_fields_round_trip_witness :
  ProcNet.parse_fields (fun _ => "") (fun s => s) "tcp"
    (KernelLine.fields "0:" KernelLine.browser "00:00000000" "00000000"
       "1000" "0" ["1"])
  = Some {| ScannerLinux.protocol := "tcp";
            ScannerLinux.localAddr :=
              KernelLine.dotted (KernelLine.local KernelLine.browser);
            ScannerLinux.localPort :=
              KernelLine.ep_port (KernelLine.local KernelLine.browser);
            ScannerLinux.remoteAddr :=
              KernelLine.dotted (KernelLine.remote KernelLine.browser);
            ScannerLinux.remotePort :=
              KernelLine.ep_port (KernelLine.remote KernelLine.browser);
            ScannerLinux.state :=
              default StateUnknown
                (ProcNet.procStates !!
                   ProcNet.hex_upper 2 (KernelLine.st KernelLine.browser));
            ScannerLinux.inode := KernelLine.ino KernelLine.browser;
            ScannerLinux.txQueue := KernelLine.tx_queue KernelLine.browser;
            ScannerLinux.rxQueue := KernelLine.rx_queue KernelLine.browser |}.
Proof.
  apply (parse_fields_round_trip (fun _ => "") (fun s => s) "tcp" "0:"
           KernelLine.browser "00:00000000" "00000000" "1000" "0" ["1"]).
  unfold KernelLine.valid_socket, KernelLine.valid_endpoint. cbn. lia.
Defined.

Lemma procStates_table :
  forallb
    (fun code =>
       let n := default StateUnknown
                  (ProcNet.procStates !! ProcNet.hex_upper 2 code) in
       Bool.eqb (String.eqb n StateEstablished) (code =? 1) &&
       Bool.eqb (String.eqb n StateListening) (code =? 10) &&
       Bool.eqb (String.eqb n StateUnknown) ((code =? 0) || (12 <=? code)))
    octets = true.
Proof. vm_compute. reflexivity. Qed.

Lemma procStates_code code :
  0 <= code < 256 ->
  let n := default StateUnknown
             (ProcNet.procStates !! ProcNet.hex_upper 2 code) in
  (n = StateEstablished <-> code = 1) /\
  (n = StateListening <-> code = 10) /\
  (n = StateUnknown <-> code = 0 \/ 12 <= code).
Proof.
  intros Hc n. pose proof procStates_table as Htable.
  rewrite forallb_forall in Htable.
  assert (Hin : In code octets) by (apply list_elem_of_In, elem_of_seqZ; lia).
  apply Htable in Hin. cbv zeta in Hin. subst n.
  apply andb_true_iff in Hin as [Hin H3].
  apply andb_true_iff in Hin as [H1 H2].
  apply Bool.eqb_prop in H1, H2, H3.
  split; [|split].
  - rewrite <-String.eqb_eq, H1. apply Z.eqb_eq.
  - rewrite <-String.eqb_eq, H2. apply Z.eqb_eq.
  - rewrite <-String.eqb_eq, H3, orb_true_iff, Z.eqb_eq, Z.leb_le. done.
Qed.

Lemma IPv4_String_zero a b c d :
  0 <= a < 256 -> 0 <= b < 256 -> 0 <= c < 256 -> 0 <= d < 256 ->
  (WindowsTables.IPv4_String a b c d = "0.0.0.0" <->
   a = 0 /\ b = 0 /\ c = 0 /\ d = 0) /\
  WindowsTables.IPv4_String a b c d <> "::".
Proof.
  intros Ha Hb Hc Hd.
  pose proof (IPv4_String_parses a b c d Ha Hb Hc Hd) as Hparse.
  assert (Hzero : AddressClass.ipv4 "0.0.0.0" = Some (0, 0, 0, 0))
    by (vm_compute; reflexivity).
  assert (Hv6 : AddressClass.ipv4 "::" = None) by (vm_compute; reflexivity).
  split; [split|].
  - intros Heq. rewrite Heq, Hzero in Hparse. by injection Hparse as <- <- <- <-.
  - intros (-> & -> & -> & ->). vm_compute. reflexivity.
  - intros Heq. rewrite Heq, Hv6 in Hparse. done.
Qed.

(** X27.  A line of an IPv4 table of [/proc/net] gives a probe target
    exactly when its state code is 01 (established) and its remote
    address is not 0.0.0.0, and an inbound record exactly when its state
    code is 0A (listening) or its remote address is 0.0.0.0; the codes 00
    and 0C..FF are shown as UNKNOWN. *)
Theorem linux_line_classified IP_String upper now inodePID inodeName proto
    slot s f5 f6 f7 f8 rest :
  KernelLine.valid_socket s ->
  exists e,
    ProcNet.parse_fields IP_String upper proto
      (KernelLine.fields slot s f5 f6 f7 f8 rest) = Some e /\
    let c := ScannerLinux.toConnection now inodePID inodeName e in
    (is_target c = true <->
     KernelLine.st s = 1 /\ ~ KernelLine.zero_address (KernelLine.remote s)) /\
    (Direction c = Inbound <->
     KernelLine.st s = 10 \/ KernelLine.zero_address (KernelLine.remote s)) /\
    (State c = StateUnknown <-> KernelLine.st s = 0 \/ 12 <= KernelLine.st s).
Proof.
  intros Hs. eexists. split.
  { destruct Hs as (Hlocal & Hremote & _ & Htx & Hrx).
    unfold KernelLine.fields, KernelLine.endpoint_text.
    by apply parse_fields_kernel. }
  destruct Hs as (_ & (Ha & Hb & Hc & Hd & _) & Hst & _).
  destruct (procStates_code (KernelLine.st s) Hst) as (Hest & Hlis & Hunk).
  destruct (IPv4_String_zero _ _ _ _ Ha Hb Hc Hd) as [Hzero Hv6].
  fold (KernelLine.dotted (KernelLine.remote s)) in Hzero, Hv6.
  fold (KernelLine.zero_address (KernelLine.remote s)) in Hzero.
  intros c.
  assert (Hstate : State c
            = default StateUnknown
                (ProcNet.procStates !! ProcNet.hex_upper 2 (KernelLine.st s)))
    by reflexivity.
  assert (Hra : RemoteAddr c = KernelLine.dotted (KernelLine.remote s))
    by reflexivity.
  assert (Hdir : Direction c
                 = if String.eqb (State c) StateListening
                      || String.eqb (RemoteAddr c) "0.0.0.0"
                      || String.eqb (RemoteAddr c) "::"
                   then Inbound else Outbound) by reflexivity.
  unfold is_target. rewrite Hdir. clearbody c.
  rewrite <-Hstate in Hest, Hlis, Hunk. rewrite <-Hra in Hzero, Hv6.
  split; [|split; [|done]].
  - rewrite !andb_true_iff, !negb_true_iff, String.eqb_eq, !String.eqb_neq.
    rewrite Hest, Hzero. split; [by intros [[? ?] _]|by intros [? ?]].
  - destruct (String.eqb_spec (RemoteAddr c) "::") as [?|_]; [done|].
    rewrite orb_false_r.
    destruct (String.eqb (State c) StateListening
              || String.eqb (RemoteAddr c) "0.0.0.0") eqn:Hor.
    + apply orb_true_iff in Hor. rewrite !String.eqb_eq in Hor.
      rewrite Hlis, Hzero in Hor. done.
    + apply orb_false_iff in Hor. rewrite !String.eqb_neq in Hor.
      rewrite Hlis, Hzero in Hor. split; [done|tauto].
Qed.

Lemma linux_line_classified_witness :
  exists e,
    ProcNet.parse_fields (fun _ => "") (fun s => s) "tcp"
      (KernelLine.fields "1:" KernelLine.resolver "00:00000000" "00000000"
         "101" "0" []) = Some e /\
    let c := ScannerLinux.toConnection Scenario.t0 ∅ ∅ e in
    (is_target c = true <->
     KernelLine.st KernelLine.resolver = 1 /\
     ~ KernelLine.zero_address (KernelLine.remote KernelLine.resolver)) /\
    (Direction c = Inbound <->
     KernelLine.st KernelLine.resolver = 10 \/
     KernelLine.zero_address (KernelLine.remote KernelLine.resolver)) /\
    (State c = StateUnknown <->
     KernelLine.st KernelLine.resolver = 0 \/
     12 <= KernelLine.st KernelLine.resolver).
Proof.
  apply (linux_line_classified (fun _ => "") (fun s => s) Scenario.t0 ∅ ∅
           "tcp" "1:" KernelLine.resolver "00:00000000" "00000000" "101" "0"
           []).
  unfold KernelLine.valid_socket, KernelLine.valid_endpoint. cbn. lia.
Defined.

(** ** The table and the engine *)

Section TuiReads.

Variable lower : string -> string.
Variable SliceStable : (nat -> nat -> bool) -> list nat -> list nat.

Lemma reader_only_refl w : reader_only w w.
Proof. by repeat split. Qed.

Lemma Snapshot_reader w : reader_only w (Snapshot w).2.
Proof.
  repeat split.
  - apply Snapshot_tracker.
  - unfold Snapshot. by destruct (copy_records _ _ _ _).
  - intros q Hq. by apply Snapshot_prefix.
Qed.

Lemma Search_reader query w : reader_only w (Search lower query w).2.
Proof.
  repeat split.
  - apply Search_tracker.
  - unfold Search. destruct (String.eqb query "").
    + unfold Snapshot. by destruct (copy_records _ _ _ _).
    + by destruct (copy_records _ _ _ _).
  - intros q Hq. by apply Search_prefix.
Qed.

Lemma refresh_reader m w :
  reader_only w (Tui.refresh lower SliceStable m w).2.
Proof.
  unfold Tui.refresh.
  destruct (negb (String.eqb (Tui.filter m) "")).
  - pose proof (Search_reader (Tui.filter m) w) as H.
    by destruct (Search lower (Tui.filter m) w).
  - pose proof (Snapshot_reader w) as H. by destruct (Snapshot w).
Qed.

Lemma refresh_reader_eq m w m' w' :
  Tui.refresh lower SliceStable m w = (m', w') -> reader_only w w'.
Proof. intros H. pose proof (refresh_reader m w) as Hr. by rewrite H in Hr. Qed.

Lemma handleKey_reader key m w :
  reader_only w (Tui.handleKey lower SliceStable key m w).1.2.
Proof.
  unfold Tui.handleKey, Tui.handleSearchKey.
  repeat case_match; cbn [fst snd];
    first [apply reader_only_refl | by eapply refresh_reader_eq].
Qed.

(** X28.  The table only reads the engine: whatever message [Update]
    handles (a key, a tick, a resize) in whatever state, the tracker and
    its map, the dial log and every record already in memory are left as
    they were; a refresh only adds the copies it was handed. *)
Theorem Update_reads_only msg m w :
  tracker (Tui.Update lower SliceStable msg m w).1.2 = tracker w /\
  dialled (Tui.Update lower SliceStable msg m w).1.2 = dialled w /\
  forall q, (q < length (heap w))%nat ->
    heap (Tui.Update lower SliceStable msg m w).1.2 !! q = heap w !! q.
Proof.
  change (reader_only w (Tui.Update lower SliceStable msg m w).1.2).
  destruct msg as [key| |Width Height|]; cbn [Tui.Update].
  - apply handleKey_reader.
  - destruct (negb (Tui.paused m)); [|apply reader_only_refl].
    pose proof (refresh_reader m w) as Hr.
    by destruct (Tui.refresh lower SliceStable m w).
  - apply reader_only_refl.
  - apply reader_only_refl.
Qed.

End TuiReads.
